(** * ha-lsp-server: the Home Assistant language server

    A shallow embedding of [rootfs/opt/ha-lsp-server/server.js] and the
    properties of its specification.

    Definitions:
    - [Cache]        the time-boxed cache of [HomeAssistantClient]
                     ([isCacheValid], [getCached], [invalidateCache]);
    - [Js]           the JavaScript string primitives the server uses;
    - [Regex]        a backtracking matcher for the regular expressions
                     that appear as literals in the source;
    - [TextDocument] documents, positions and offsets;
    - [Analyzer]     [YamlContextAnalyzer]: [analyzeContext] and the
                     reference scans;
    - [Providers]    completion, hover and diagnostics.

    Theorems: [CacheFacts], [RegexFacts], [AnalyzerFacts],
    [ProvidersFacts].

    JavaScript strings are modelled by [string], a character being a code
    unit below 256. An exception is a [Throw] of [Result]; a [Map] is a
    [gmap]; [undefined] and [null] are [None]. The server is
    single-threaded: an [await] is modelled by the outcome of the
    operation awaited. *)

From Stdlib Require Import ZArith String Ascii List Bool Lia.
From Stdlib Require Import Sorting.Sorted.
From stdpp Require Import gmap strings list pretty.

(** ** Outcomes of code that may throw *)

Inductive Result (E A : Type) : Type :=
| Ok (a : A)
| Throw (e : E).

Arguments Ok {E A} a.
Arguments Throw {E A} e.

(** * The runtime data cache *)

Module Cache.

Local Open Scope Z_scope.

Section WithWorld.

(** [V]: what a fetcher yields; [E]: what it throws; [W]: everything
    outside the client (the runtime that is queried and the clock). *)
Context {V E W : Type}.

(** [Date.now()], in milliseconds. *)
Variable now : W -> Z.

(** The two maps created by the constructor. *)
Record HomeAssistantClient : Type := mkClient {
  cache : gmap string V;
  cacheTimestamps : gmap string Z
}.

Definition new_client : HomeAssistantClient :=
  {| cache := ∅; cacheTimestamps := ∅ |}.

(** [const CACHE_TTL = 60000; // 1 minute cache TTL] *)
Definition CACHE_TTL : Z := 60000.

(** [timestamp && (Date.now() - timestamp) < CACHE_TTL]: a missing
    timestamp is [undefined], and both [undefined] and [0] are falsy. *)
Definition isCacheValid (c : HomeAssistantClient) (key : string) (w : W)
  : bool :=
  match cacheTimestamps c !! key with
  | Some timestamp => negb (timestamp =? 0) && (now w - timestamp <? CACHE_TTL)
  | None => false
  end.

(** A fetcher is a no-argument asynchronous query: awaiting it changes
    the world and either yields a value or throws. It has no access to
    the client's maps. *)
Definition Fetcher : Type := W -> Result E V * W.

(** [getCached(key, fetcher)]. The value returned is [Some v], or [None]
    for the [undefined] that [Map.get] gives on an absent key. The
    timestamp stored is read after the fetcher has completed. *)
Definition getCached (c : HomeAssistantClient) (key : string)
    (fetcher : Fetcher) (w : W)
  : Result E (option V) * HomeAssistantClient * W :=
  if isCacheValid c key w then
    (Ok (cache c !! key), c, w)
  else
    match fetcher w with
    | (Ok data, w') =>
        (Ok (Some data),
         {| cache := <[key := data]> (cache c);
            cacheTimestamps := <[key := now w']> (cacheTimestamps c) |},
         w')
    | (Throw error, w') =>
        match cache c !! key with
        | Some stale => (Ok (Some stale), c, w')
        | None => (Throw error, c, w')
        end
    end.

Definition invalidateCache (c : HomeAssistantClient) : HomeAssistantClient :=
  {| cache := ∅; cacheTimestamps := ∅ |}.

(** Projections of the triple returned by [getCached]. *)
Definition returned (r : Result E (option V) * HomeAssistantClient * W)
  : Result E (option V) := r.1.1.
Definition client_after (r : Result E (option V) * HomeAssistantClient * W)
  : HomeAssistantClient := r.1.2.
Definition world_after (r : Result E (option V) * HomeAssistantClient * W)
  : W := r.2.

Definition raises (r : Result E (option V)) : Prop :=
  match r with Throw _ => True | Ok _ => False end.

(** Every key that has a timestamp has a value. *)
Definition consistent (c : HomeAssistantClient) : Prop :=
  forall key, is_Some (cacheTimestamps c !! key) -> is_Some (cache c !! key).

(** The two maps hold the same keys. *)
Definition same_keys (c : HomeAssistantClient) : Prop :=
  forall key, is_Some (cache c !! key) <-> is_Some (cacheTimestamps c !! key).

End WithWorld.

(** ** An example world

    The world is the reading of the clock; a query takes five
    milliseconds. *)

Definition answering (data : string) : @Fetcher string string Z :=
  fun w => (Ok data, w + 5).

Definition failing (message : string) : @Fetcher string string Z :=
  fun w => (Throw message, w + 5).

Definition clock : Z -> Z := fun w => w.

(** The client after a first successful [getCached("states", ...)] begun
    at clock reading 1000. *)
Definition warmed_client : @HomeAssistantClient string :=
  client_after (getCached clock new_client "states" (answering "snapshot") 1000).

End Cache.


(** * JavaScript string primitives *)

Module Js.

Local Open Scope nat_scope.

(** What the server can throw besides the errors of the runtime. *)
Inductive JsError : Type :=
| TypeError (message : string)
| Error (message : string).

Definition code (c : ascii) : nat := nat_of_ascii c.

Definition in_range (lo hi : nat) (c : ascii) : bool :=
  (lo <=? code c) && (code c <=? hi).

(** White space and line terminators, as [\s] and [trim] see them. *)
Definition is_space (c : ascii) : bool :=
  in_range 9 13 c || (code c =? 32) || (code c =? 160).

Definition is_lower (c : ascii) : bool := in_range 97 122 c.
Definition is_upper (c : ascii) : bool := in_range 65 90 c.
Definition is_digit (c : ascii) : bool := in_range 48 57 c.

Definition lower_char (c : ascii) : ascii :=
  if is_upper c || (in_range 192 222 c && negb (code c =? 215))
  then ascii_of_nat (code c + 32) else c.

(** [s.toLowerCase()] *)
Fixpoint toLowerCase (s : string) : string :=
  match s with
  | EmptyString => EmptyString
  | String c s' => String (lower_char c) (toLowerCase s')
  end.

(** [s.startsWith(p)] *)
Definition startsWith (s p : string) : bool := String.prefix p s.

(** [s.indexOf(needle)]: the least index of an occurrence, or -1. *)
Fixpoint indexOf_at (s needle : string) (i : nat) : Z :=
  if String.prefix needle s then Z.of_nat i
  else match s with
       | EmptyString => (-1)%Z
       | String _ s' => indexOf_at s' needle (S i)
       end.

Definition indexOf (s needle : string) : Z := indexOf_at s needle 0.

(** [s.indexOf(needle, from)] *)
Definition indexOf_from (s needle : string) (from : nat) : Z :=
  indexOf_at (String.substring from (String.length s - from) s) needle
    (Nat.min from (String.length s)).

(** [s.lastIndexOf(needle)]: the greatest index of an occurrence, or -1.
    [found] is the greatest one met so far. *)
Fixpoint lastIndexOf_at (s needle : string) (i : nat) (found : Z) : Z :=
  let found' := if String.prefix needle s then Z.of_nat i else found in
  match s with
  | EmptyString => found'
  | String _ s' => lastIndexOf_at s' needle (S i) found'
  end.

Definition lastIndexOf (s needle : string) : Z := lastIndexOf_at s needle 0 (-1)%Z.

(** [s.includes(needle)] *)
Definition includes (s needle : string) : bool := (0 <=? indexOf s needle)%Z.

(** [s.substring(a, b)]: the two bounds are swapped when [a > b] and
    clamped to the length. *)
Definition substring (s : string) (a b : nat) : string :=
  String.substring (Nat.min a b) (Nat.max a b - Nat.min a b) s.

(** [s.split(sep)] for a one-character separator. *)
Fixpoint split (sep : ascii) (s : string) : list string :=
  match s with
  | EmptyString => [EmptyString]
  | String c s' =>
      if Ascii.eqb c sep then EmptyString :: split sep s'
      else match split sep s' with
           | l :: ls => String c l :: ls
           | [] => [String c EmptyString]
           end
  end.

Fixpoint trimStart (s : string) : string :=
  match s with
  | String c s' => if is_space c then trimStart s' else s
  | EmptyString => EmptyString
  end.

(** Drops trailing white space: a character is kept when something is
    kept after it or it is not white space. *)
Fixpoint trimEnd (s : string) : string :=
  match s with
  | EmptyString => EmptyString
  | String c s' =>
      match trimEnd s' with
      | EmptyString => if is_space c then EmptyString else String c EmptyString
      | t => String c t
      end
  end.

(** [s.trim()] *)
Definition trim (s : string) : string := trimEnd (trimStart s).

(** [a.join(sep)] *)
Fixpoint join (sep : string) (l : list string) : string :=
  match l with
  | [] => EmptyString
  | [x] => x
  | x :: rest => String.append x (String.append sep (join sep rest))
  end.

(** Truthiness of a string that may be [undefined]. *)
Definition truthy (s : option string) : bool :=
  match s with
  | Some (String _ _) => true
  | _ => false
  end.

(** [a || b] on strings. *)
Definition or_else (a : option string) (b : string) : string :=
  match a with
  | Some (String c s) => String c s
  | _ => b
  end.

(** The character of the line feed. *)
Definition LF : ascii := ascii_of_nat 10.

End Js.

(** * Regular expressions

    The regular expressions of the source are written as terms of [regex]
    and run by a backtracking matcher with the semantics of the
    JavaScript engine: alternatives are tried left to right, [Star] is
    greedy and gives back one iteration at a time, an iteration that
    consumes nothing is rejected. No expression of the source uses the
    multi-line flag, so [^] and [$] are the ends of the input. *)

Module Regex.

Import Js.
Local Open Scope nat_scope.

Inductive regex : Type :=
| Empty
| Chars (p : ascii -> bool)
| Seq (r1 r2 : regex)
| Alt (r1 r2 : regex)
| Star (r : regex)
| Group (n : nat) (r : regex)
| AssertStart
| AssertEnd.

(** A sequence of expressions, and the two derived quantifiers. *)
Definition seq (rs : list regex) : regex := List.fold_right Seq Empty rs.
Definition Plus (r : regex) : regex := Seq r (Star r).
Definition Opt (r : regex) : regex := Alt r Empty.

(** A position in the input, what is left of it, and the captures made
    so far (the most recent first), each a pair of offsets. *)
Record mstate : Type := mkState {
  pos : nat;
  rest : string;
  caps : list (nat * (nat * nat))
}.

Definition cont : Type := mstate -> option mstate.

Fixpoint star_loop (body : cont -> cont) (fuel : nat) (k : cont) (st : mstate)
  : option mstate :=
  match fuel with
  | O => k st
  | S fuel' =>
      match body (fun st' => if pos st' =? pos st then None
                             else star_loop body fuel' k st') st with
      | Some r => Some r
      | None => k st
      end
  end.

Fixpoint run (r : regex) (k : cont) (st : mstate) : option mstate :=
  match r with
  | Empty => k st
  | Chars p =>
      match rest st with
      | String c s' =>
          if p c then k {| pos := S (pos st); rest := s'; caps := caps st |}
          else None
      | EmptyString => None
      end
  | Seq r1 r2 => run r1 (run r2 k) st
  | Alt r1 r2 =>
      match run r1 k st with
      | Some x => Some x
      | None => run r2 k st
      end
  | Star r1 => star_loop (run r1) (S (String.length (rest st))) k st
  | Group n r1 =>
      run r1 (fun st' => k {| pos := pos st'; rest := rest st';
                              caps := (n, (pos st, pos st')) :: caps st' |}) st
  | AssertStart => if pos st =? 0 then k st else None
  | AssertEnd =>
      match rest st with
      | EmptyString => k st
      | String _ _ => None
      end
  end.

(** The match object: [index], the offset at which the match ends (the
    [lastIndex] of a global expression after [exec]), the whole match
    [match[0]] and the captured groups. *)
Record Match : Type := mkMatch {
  index : nat;
  lastIndex_after : nat;
  whole : string;
  groups : list (nat * string)
}.

Definition group (m : Match) (n : nat) : option string :=
  snd <$> List.find (fun g => fst g =? n) (groups m).

Definition mk_match (input : string) (i : nat) (st : mstate) : Match :=
  {| index := i;
     lastIndex_after := pos st;
     whole := Js.substring input i (pos st);
     groups := List.map (fun c => (fst c, Js.substring input (fst (snd c)) (snd (snd c))))
                        (caps st) |}.

(** The leftmost match that starts at offset [i] or later, [s] being the
    input from [i] on. *)
Fixpoint search (r : regex) (input : string) (i : nat) (s : string)
  : option Match :=
  match run r Some {| pos := i; rest := s; caps := [] |} with
  | Some st => Some (mk_match input i st)
  | None =>
      match s with
      | EmptyString => None
      | String _ s' => search r input (S i) s'
      end
  end.

(** [r.exec(input)] with [r.lastIndex = lastIndex]. *)
Definition exec (r : regex) (input : string) (lastIndex : nat) : option Match :=
  if String.length input <? lastIndex then None
  else search r input lastIndex
         (String.substring lastIndex (String.length input - lastIndex) input).

(** [input.match(r)] for an expression without the global flag. *)
Definition match_ (input : string) (r : regex) : option Match := exec r input 0.

(** [r.test(input)] *)
Definition test (r : regex) (input : string) : bool :=
  match match_ input r with Some _ => true | None => false end.

(** The loop [while ((match = r.exec(input)) !== null) { ... }] for an
    expression with the global flag: the matches in the order met, each
    search resuming where the previous match ended. *)
Fixpoint exec_loop (r : regex) (input : string) (fuel lastIndex : nat)
  : list Match :=
  match fuel with
  | O => []
  | S fuel' =>
      match exec r input lastIndex with
      | None => []
      | Some m => m :: exec_loop r input fuel' (lastIndex_after m)
      end
  end.

Definition exec_all (r : regex) (input : string) : list Match :=
  exec_loop r input (S (String.length input)) 0.

(** [input.replace(r, '')] for an expression without the global flag. *)
Definition remove_first (input : string) (r : regex) : string :=
  match match_ input r with
  | None => input
  | Some m =>
      String.append (Js.substring input 0 (index m))
                    (Js.substring input (lastIndex_after m) (String.length input))
  end.

(** The expression can match the empty string. *)
Fixpoint nullable (r : regex) : bool :=
  match r with
  | Empty => true
  | Chars _ => false
  | Seq r1 r2 => nullable r1 && nullable r2
  | Alt r1 r2 => nullable r1 || nullable r2
  | Star _ => true
  | Group _ r1 => nullable r1
  | AssertStart => true
  | AssertEnd => true
  end.

(** [st'] is reached from [st] by consuming input. *)
Definition reaches (st st' : mstate) : Prop :=
  pos st <= pos st' /\
  pos st' + String.length (rest st') = pos st + String.length (rest st).

(** Every capture of [st] lies between [lo] and the position of [st]. *)
Definition caps_ok (lo : nat) (st : mstate) : Prop :=
  Forall (fun c => lo <= fst (snd c) /\ fst (snd c) <= snd (snd c)
                   /\ snd (snd c) <= pos st) (caps st).

(** *** Atoms *)

Definition chr (c : ascii) : regex := Chars (Ascii.eqb c).

(** A letter, whatever its case (the [i] flag). *)
Definition chr_i (c : ascii) : regex :=
  Chars (fun x => Ascii.eqb (lower_char x) (lower_char c)).

Fixpoint lit (s : string) : regex :=
  match s with
  | EmptyString => Empty
  | String c s' => Seq (chr c) (lit s')
  end.

Fixpoint lit_i (s : string) : regex :=
  match s with
  | EmptyString => Empty
  | String c s' => Seq (chr_i c) (lit_i s')
  end.

Definition is_char (s : string) (c : ascii) : bool :=
  match s with
  | String d EmptyString => Ascii.eqb c d
  | _ => false
  end.

(** [\s] and [\w] *)
Definition cls_s : regex := Chars is_space.
Definition word_char (c : ascii) : bool :=
  is_lower c || is_upper c || is_digit c || is_char "_" c.
Definition cls_w : regex := Chars word_char.

(** [[a-z_]] and [[a-z0-9_]] under the [i] flag, [[a-z_.]] under it. *)
Definition ident_char (c : ascii) : bool :=
  is_lower c || is_upper c || is_char "_" c.
Definition ident_digit_char (c : ascii) : bool :=
  ident_char c || is_digit c.
Definition ident_dot_char (c : ascii) : bool :=
  ident_char c || is_char "." c.

End Regex.

(** * Documents and positions

    The text-document object is the one of the document synchronization
    transport (the package vscode-languageserver-textdocument, on which
    the server depends and which the repository does not contain). A
    document is its URI and its text; offsets and positions are converted
    as that package does: through the offsets at which the lines start, a
    line ending at a line feed, a carriage return or the pair of them, a
    position never lying behind the line break that ends its line. *)

Module TextDocument.

Import Js.
Local Open Scope nat_scope.

Record Position : Type := mkPosition {
  line : nat;
  character : nat
}.

Record Range : Type := mkRange {
  start : Position;
  end_ : Position
}.

Record TextDocument : Type := mkDocument {
  uri : string;
  getText : string
}.

Definition CR : ascii := ascii_of_nat 13.

Definition isEOL (c : ascii) : bool := Ascii.eqb c CR || Ascii.eqb c LF.

(** The offsets following each line break met in [s], [i] being the
    offset of [s] in the text. *)
Fixpoint breaks_from (s : string) (i : nat) : list nat :=
  match s with
  | EmptyString => []
  | String c s' =>
      if Ascii.eqb c CR then
        match s' with
        | String d s'' =>
            if Ascii.eqb d LF then (i + 2) :: breaks_from s'' (i + 2)
            else (i + 1) :: breaks_from s' (i + 1)
        | EmptyString => [i + 1]
        end
      else if Ascii.eqb c LF then (i + 1) :: breaks_from s' (i + 1)
      else breaks_from s' (i + 1)
  end.

Definition getLineOffsets (d : TextDocument) : list nat :=
  0 :: breaks_from (getText d) 0.

Definition charAt (s : string) (i : nat) : option ascii := String.get i s.

Fixpoint ensureBeforeEOL_loop (content : string) (lineOffset : nat)
    (fuel offset : nat) : nat :=
  match fuel with
  | O => offset
  | S fuel' =>
      if (lineOffset <? offset) &&
         match charAt content (offset - 1) with
         | Some c => isEOL c
         | None => false
         end
      then ensureBeforeEOL_loop content lineOffset fuel' (offset - 1)
      else offset
  end.

Definition ensureBeforeEOL (d : TextDocument) (offset lineOffset : nat) : nat :=
  ensureBeforeEOL_loop (getText d) lineOffset offset offset.

Definition offsetAt (d : TextDocument) (p : Position) : nat :=
  let lineOffsets := getLineOffsets d in
  match lineOffsets !! line p with
  | None => String.length (getText d)
  | Some lineOffset =>
      if character p =? 0 then lineOffset
      else
        let nextLineOffset :=
          default (String.length (getText d)) (lineOffsets !! S (line p)) in
        ensureBeforeEOL d (Nat.min (lineOffset + character p) nextLineOffset)
                        lineOffset
  end.

Definition positionAt (d : TextDocument) (offset : nat) : Position :=
  let offset := Nat.min offset (String.length (getText d)) in
  let lineOffsets := getLineOffsets d in
  let line := List.length (List.filter (fun o => o <=? offset) lineOffsets) - 1 in
  let lineOffset := default 0 (lineOffsets !! line) in
  {| line := line;
     character := ensureBeforeEOL d offset lineOffset - lineOffset |}.

(** [document.getText(range)] *)
Definition getTextIn (d : TextDocument) (r : Range) : string :=
  Js.substring (getText d) (offsetAt d (start r)) (offsetAt d (end_ r)).

End TextDocument.

(** * The YAML context analyzer *)

Module Analyzer.

Import Js Regex TextDocument.
Local Open Scope nat_scope.
Local Open Scope string_scope.

(** ** The regular expressions of [YamlContextAnalyzer]

    Each is preceded by its text in the source; there a blank is put
    between a star and a closing parenthesis that follows it. *)

(** [ /^(\s* )/ ] *)
Definition re_indent : regex := seq [AssertStart; Group 1 (Star cls_s)].

(** [ /^(\s* )([a-z_]+)\s*:/i ] *)
Definition re_key : regex :=
  seq [AssertStart; Group 1 (Star cls_s); Group 2 (Plus (Chars ident_char));
       Star cls_s; chr ":"].

(** [ /^\s*-\s*/ ] *)
Definition re_list_item : regex :=
  seq [AssertStart; Star cls_s; chr "-"; Star cls_s].

(** [ /^-\s*/ ] *)
Definition re_leading_dash : regex := seq [AssertStart; chr "-"; Star cls_s].

(** [ /platform:\s*(\w+)/ ] *)
Definition re_platform : regex :=
  seq [lit "platform:"; Star cls_s; Group 1 (Plus cls_w)].

(** [ /service:\s*([\w.]+)/ ] *)
Definition re_service_domain : regex :=
  seq [lit "service:"; Star cls_s;
       Group 1 (Plus (Chars (fun c => word_char c || is_char "." c)))].

(** [[a-z_]+\.[a-z0-9_]+] under the [i] flag: the shape of an entity or
    service identifier. *)
Definition re_dotted_id : regex :=
  seq [Plus (Chars ident_char); chr "."; Plus (Chars ident_digit_char)].

(** [ /entity_id:\s*([a-z_]+\.[a-z0-9_]+)/gi ] *)
Definition entityIdPattern : regex :=
  seq [lit_i "entity_id:"; Star cls_s; Group 1 re_dotted_id].

(** [ /entity_id:\s*\n(\s+-\s+[a-z_]+\.[a-z0-9_]+\s* )+/gi ] *)
Definition listEntityPattern : regex :=
  seq [lit_i "entity_id:"; Star cls_s; chr LF;
       Plus (Group 1 (seq [Plus cls_s; chr "-"; Plus cls_s; re_dotted_id;
                           Star cls_s]))].

(** [ /-\s+([a-z_]+\.[a-z0-9_]+)/gi ] *)
Definition itemPattern : regex :=
  seq [chr "-"; Plus cls_s; Group 1 re_dotted_id].

Definition quote_char (c : ascii) : bool := is_char "'" c || Ascii.eqb c (ascii_of_nat 34).

(** [ /states\(['"]([a-z_]+\.[a-z0-9_]+)['"]\)/gi ] *)
Definition statesPattern : regex :=
  seq [lit_i "states("; Chars quote_char; Group 1 re_dotted_id;
       Chars quote_char; chr ")"].

(** [ /is_state\(['"]([a-z_]+\.[a-z0-9_]+)['"]/gi ] *)
Definition isStatePattern : regex :=
  seq [lit_i "is_state("; Chars quote_char; Group 1 re_dotted_id;
       Chars quote_char].

(** [ /(?:service|action):\s*([a-z_]+\.[a-z0-9_]+)/gi ] *)
Definition servicePattern : regex :=
  seq [Alt (lit_i "service") (lit_i "action"); chr ":"; Star cls_s;
       Group 1 re_dotted_id].

(** [ /!include\s+([^\s\n]+)/g ] *)
Definition includePattern : regex :=
  seq [lit "!include"; Plus cls_s;
       Group 1 (Plus (Chars (fun c => negb (is_space c || Ascii.eqb c LF))))].

(** ** [analyzeContext] *)

Record Context : Type := mkContext {
  ctx_line : string;
  lineBeforeCursor : string;
  offset : nat;
  position : Position;
  inKey : bool;
  inValue : bool;
  key : option string;
  parentKey : option string;
  parentKeys : list string;
  inList : bool;
  inJinja : bool;
  triggerType : option string;
  actionType : option string;
  domain : option string
}.

(** [ l.match(/^(\s* )/)?.[1].length || 0 ] *)
Definition indent (l : string) : nat :=
  match match_ l re_indent with
  | Some m => String.length (default EmptyString (group m 1))
  | None => 0
  end.

(** [ keyMatch[2] ] for [ keyMatch = l.match(/^(\s* )([a-z_]+)\s*:/i) ] *)
Definition keyMatch (l : string) : option string :=
  match match_ l re_key with
  | Some m => group m 2
  | None => None
  end.

(** [platformMatch[1]] *)
Definition platformMatch (l : string) : option string :=
  match match_ l re_platform with
  | Some m => group m 1
  | None => None
  end.

(** [serviceMatch[1].split(".")[0]] *)
Definition serviceDomainMatch (l : string) : option string :=
  match match_ l re_service_domain with
  | Some m => List.head (Js.split "." (default EmptyString (group m 1)))
  | None => None
  end.

(** Reading a property of [undefined]. *)
Definition undefined_line : JsError :=
  TypeError "Cannot read properties of undefined (reading 'match')".

(** The loop [for (let i = position.line - 1; i >= 0; i--)] that collects
    the parent keys: [n] iterations are left, the next one reads
    [lines[n - 1]]. The threshold [currentIndent] is the same in every
    iteration: the statement [currentIndent === prevIndent;] in the body
    is a comparison whose value is dropped. *)
Fixpoint parentKeys_loop (lines : list string) (currentIndent : nat) (n : nat)
    (parentKeys : list string) (parentKey : option string)
  : Result JsError (list string * option string) :=
  match n with
  | O => Ok (parentKeys, parentKey)
  | S i =>
      match lines !! i with
      | None => Throw undefined_line
      | Some prevLine =>
          let prevIndent := indent prevLine in
          match keyMatch prevLine with
          | Some key =>
              if (prevIndent <? currentIndent)%nat then
                parentKeys_loop lines currentIndent i (key :: parentKeys)
                  (if truthy parentKey then parentKey else Some key)
              else parentKeys_loop lines currentIndent i parentKeys parentKey
          | None => parentKeys_loop lines currentIndent i parentKeys parentKey
          end
      end
  end.

(** The loops [for (let i = position.line; i >= 0; i--)] that look for
    the first line on which [find] succeeds: [n] iterations are left, the
    next one reads [lines[n - 1]]. *)
Fixpoint scan_up (find : string -> option string) (lines : list string)
    (n : nat) : Result JsError (option string) :=
  match n with
  | O => Ok None
  | S i =>
      match lines !! i with
      | None => Throw undefined_line
      | Some l =>
          match find l with
          | Some found => Ok (Some found)
          | None => scan_up find lines i
          end
      end
  end.

(** [a.includes(x)] on an array of strings. *)
Definition array_includes (a : list string) (x : string) : bool :=
  List.existsb (String.eqb x) a.

(** [jinjaStart > jinjaEnd] *)
Definition detectJinja (lineBeforeCursor : string) : bool :=
  let jinjaStart := lastIndexOf lineBeforeCursor "{{" in
  let jinjaEnd := lastIndexOf lineBeforeCursor "}}" in
  (jinjaEnd <? jinjaStart)%Z.

Definition bind {E A B : Type} (r : Result E A) (k : A -> Result E B)
  : Result E B :=
  match r with
  | Ok a => k a
  | Throw e => Throw e
  end.

Notation "x <-- r ;; k" := (bind r (fun x => k))
  (at level 100, r at next level, right associativity).

Definition analyzeContext (document : TextDocument) (position : Position)
  : Result JsError Context :=
  let text := getText document in
  let offset := offsetAt document position in
  let lines := Js.split LF text in
  let line := or_else (lines !! TextDocument.line position) EmptyString in
  let lineBeforeCursor := Js.substring line 0 (character position) in
  let inJinja := detectJinja lineBeforeCursor in
  let colonIndex := indexOf lineBeforeCursor ":" in
  let inKey := (colonIndex =? -1)%Z in
  let inValue := negb (colonIndex =? -1)%Z in
  let key :=
    if (colonIndex =? -1)%Z then None
    else Some (remove_first
                 (trim (Js.substring lineBeforeCursor 0 (Z.to_nat colonIndex)))
                 re_leading_dash) in
  let inList := test re_list_item lineBeforeCursor in
  let currentIndent := indent lineBeforeCursor in
  found <-- parentKeys_loop lines currentIndent (TextDocument.line position)
              [] None ;;
  let parentKeys := fst found in
  let parentKey := snd found in
  triggerType <--
    (if array_includes parentKeys "trigger" || array_includes parentKeys "triggers"
     then scan_up platformMatch lines (S (TextDocument.line position))
     else Ok None) ;;
  domain <--
    (if array_includes parentKeys "action" || array_includes parentKeys "actions"
     then scan_up serviceDomainMatch lines (S (TextDocument.line position))
     else Ok None) ;;
  Ok {| ctx_line := line;
        lineBeforeCursor := lineBeforeCursor;
        offset := offset;
        position := position;
        inKey := inKey;
        inValue := inValue;
        key := key;
        parentKey := parentKey;
        parentKeys := parentKeys;
        inList := inList;
        inJinja := inJinja;
        triggerType := triggerType;
        actionType := None;
        domain := domain |}.

(** ** Occurrences of a marker in a string *)

(** [needle] occurs in [s] at offset [i]. *)
Definition occurs_at (s needle : string) (i : nat) : Prop :=
  exists before after,
    s = before ++ needle ++ after /\ String.length before = i.

(** The occurrence at [i] is the last one. *)
Definition last_occurrence (s needle : string) (i : nat) : Prop :=
  occurs_at s needle i /\ forall j, occurs_at s needle j -> j <= i.

(** ** The enclosing-key chain, as the specification words it

    Walking upward from the line above the cursor, a line that holds a key
    (one on which [keyMatch] succeeds: white space, a run of letters and
    underscores, white space, a colon) is accepted when its indent is
    strictly less than the indent of every line accepted before it (and
    than the indent at the cursor, the first threshold); each accepted key
    is put in front of the chain. [n] lines are left to visit. *)
Fixpoint enclosing_chain (lines : list string) (threshold : nat) (n : nat)
    (chain : list string) : list string :=
  match n with
  | O => chain
  | S i =>
      match lines !! i with
      | None => enclosing_chain lines threshold i chain
      | Some l =>
          match keyMatch l with
          | Some key =>
              if (indent l <? threshold)%nat
              then enclosing_chain lines (indent l) i (key :: chain)
              else enclosing_chain lines threshold i chain
          | None => enclosing_chain lines threshold i chain
          end
      end
  end.

(** The key lines above line [n] that are shallower than [limit] get
    strictly shallower going upward. *)
Definition properly_nested (lines : list string) (limit : nat) (n : nat) : Prop :=
  forall i j li lj ki kj,
    i < j -> j < n ->
    lines !! i = Some li -> lines !! j = Some lj ->
    keyMatch li = Some ki -> keyMatch lj = Some kj ->
    indent li < limit -> indent lj < limit ->
    indent li < indent lj.

(** ** The trigger platform, as the specification words it

    Scanning forward from the cursor line, the word of the nearest line
    that matches [platform: <word>]. *)
Fixpoint scan_down (find : string -> option string) (lines : list string)
  : option string :=
  match lines with
  | [] => None
  | l :: rest =>
      match find l with
      | Some found => Some found
      | None => scan_down find rest
      end
  end.

Definition platform_forward (document : TextDocument) (position : Position)
  : option string :=
  scan_down platformMatch
    (List.skipn (TextDocument.line position) (Js.split LF (getText document))).

(** ** The chain of the source, as a filter

    The key of a line that holds one and is indented less than [limit]. *)
Definition key_below (limit : nat) (l : string) : list string :=
  match keyMatch l with
  | Some key => if (indent l <? limit)%nat then [key] else []
  | None => []
  end.

(** The keys of the lines that hold one and are indented less than
    [limit], in the order of the lines. *)
Definition shallower_keys (limit : nat) (lines : list string) : list string :=
  List.flat_map (key_below limit) lines.

(** The number of characters at the head of [s] that satisfy [p]. *)
Fixpoint leading (p : ascii -> bool) (s : string) : nat :=
  match s with
  | String c s' => if p c then S (leading p s') else 0
  | EmptyString => 0
  end.

(** What is left of [s] behind its leading characters that satisfy [p]. *)
Fixpoint skip (p : ascii -> bool) (s : string) : string :=
  match s with
  | String c s' => if p c then skip p s' else s
  | EmptyString => EmptyString
  end.

(** Every character of [s] satisfies [p]. *)
Definition only (p : ascii -> bool) (s : string) : Prop :=
  leading p s = String.length s.

(** The text [snd entry] stands in [text] at the offset [fst entry]. *)
Definition located (text : string) (entry : nat * string) : Prop :=
  Js.substring text (fst entry) (fst entry + String.length (snd entry))
  = snd entry.

(** The first entry ends before the second begins. *)
Definition precedes (e1 e2 : nat * string) : Prop :=
  fst e1 + String.length (snd e1) <= fst e2.

(** ** Example documents *)

Definition automation_example : TextDocument :=
  {| uri := "file:///config/automations.yaml";
     getText := "automation:
  trigger:
    platform: time" |}.

(** The cursor on the third line, after [time]. *)
Definition after_time : Position := {| line := 2; character := 18 |}.

Definition siblings_example : TextDocument :=
  {| uri := "file:///config/automations.yaml";
     getText := "automation:
  trigger:
  condition:
    state: on" |}.

Definition two_triggers_example : TextDocument :=
  {| uri := "file:///config/automations.yaml";
     getText := "trigger:
  - platform: state
    entity_id: light.kitchen
  - platform: time" |}.

Definition action_example : TextDocument :=
  {| uri := "file:///config/automations.yaml";
     getText := "action:
  - service: light.turn_on
    data:
      brightness: 255" |}.

(** The cursor on the [entity_id] line of the first trigger. *)
Definition on_entity_line : Position := {| line := 2; character := 28 |}.

Definition template_example : TextDocument :=
  {| uri := "file:///config/sensors.yaml";
     getText := "value_template: {{ states('sensor.a') }} and {{ now(" |}.

(** ** The reference scans *)

Record EntityReference : Type := mkEntityReference {
  entityId : string;
  entity_range : Range;
  reference_inJinja : bool
}.

Record ServiceReference : Type := mkServiceReference {
  service_name : string;
  service_range : Range
}.

Record IncludeReference : Type := mkIncludeReference {
  path : string;
  include_range : Range
}.

(** [match[1]] *)
Definition captured (m : Match) : string := default EmptyString (group m 1).

(** [match.index + match[0].indexOf(match[1])] *)
Definition capture_offset (m : Match) : Z :=
  (Z.of_nat (index m) + indexOf (whole m) (captured m))%Z.

(** The range from [startOffset] over [len] characters. *)
Definition range_at (document : TextDocument) (startOffset : Z) (len : nat)
  : Range :=
  {| start := positionAt document (Z.to_nat startOffset);
     end_ := positionAt document (Z.to_nat (startOffset + Z.of_nat len)) |}.

Definition entity_reference (document : TextDocument) (jinja : bool)
    (base : nat) (m : Match) : EntityReference :=
  {| entityId := captured m;
     entity_range := range_at document (Z.of_nat base + capture_offset m)
                              (String.length (captured m));
     reference_inJinja := jinja |}.

(** [findEntityReferences(document)]: the four scans, in the order in
    which they push their references. *)
Definition findEntityReferences (document : TextDocument)
  : list EntityReference :=
  let text := getText document in
  (List.map (entity_reference document false 0) (exec_all entityIdPattern text)
   ++ List.flat_map
        (fun m => List.map (entity_reference document false (index m))
                           (exec_all itemPattern (whole m)))
        (exec_all listEntityPattern text)
   ++ List.map (entity_reference document true 0) (exec_all statesPattern text)
   ++ List.map (entity_reference document true 0) (exec_all isStatePattern text)
  )%list.

(** [findServiceReferences(document)] *)
Definition findServiceReferences (document : TextDocument)
  : list ServiceReference :=
  List.map (fun m => {| service_name := captured m;
                        service_range := range_at document (capture_offset m)
                                           (String.length (captured m)) |})
           (exec_all servicePattern (getText document)).

(** [findIncludeReferences(document)] *)
Definition findIncludeReferences (document : TextDocument)
  : list IncludeReference :=
  List.map (fun m => {| path := captured m;
                        include_range := range_at document (capture_offset m)
                                           (String.length (captured m)) |})
           (exec_all includePattern (getText document)).

End Analyzer.

(** * Completion, hover and diagnostics *)

Module Providers.

Import Js Regex TextDocument Analyzer.
Local Open Scope nat_scope.
Local Open Scope string_scope.

(** ** Data of the runtime *)

(** The attributes the server reads by name; the runtime gives them as
    strings. *)
Record Attributes : Type := mkAttributes {
  friendly_name : option string;
  device_class : option string;
  unit_of_measurement : option string
}.

(** An entry of the bulk entity-state list. *)
Record HassState : Type := mkHassState {
  entity_id : string;
  state : string;
  attributes : option Attributes;
  last_changed : string
}.

Record Field : Type := mkField {
  field_description : option string;
  field_required : bool
}.

(** The catalog as fetched: per domain, the services by name. *)
Record ServiceInfo : Type := mkServiceInfo {
  info_name : option string;
  info_description : option string;
  info_fields : option (list (string * Field));
  info_target : bool
}.

Record DomainObj : Type := mkDomainObj {
  catalog_domain : string;
  catalog_services : list (string * ServiceInfo)
}.

(** An entry of [getServiceList()]. *)
Record Service : Type := mkService {
  service_domain : string;
  service : string;
  fullName : string;
  name : string;
  description : string;
  fields : list (string * Field);
  target : bool
}.

(** What [parseYaml] throws: a message and, when the parser gives one, the
    one-based line and column of the failure. *)
Record YamlError : Type := mkYamlError {
  yaml_message : string;
  linePos : option (nat * nat)
}.

(** ** What lies outside the server

    The outcome of awaiting each cached query of [haClient] (that is, of
    the corresponding [getCached]), the credential of the environment,
    the file system, the path functions and the structural parser. *)
Record Runtime : Type := mkRuntime {
  SUPERVISOR_TOKEN : option string;
  getStates : Result JsError (list HassState);
  getServices : Result JsError (list DomainObj);
  renderTemplate : string -> Result JsError string;
  fileURLToPath : string -> Result JsError string;
  dirname : string -> string;
  resolve : string -> string -> string;
  isAbsolute : string -> bool;
  existsSync : string -> bool;
  parseYaml : string -> Result YamlError unit
}.

Definition error_message (e : JsError) : string :=
  match e with
  | TypeError m => m
  | Error m => m
  end.

(** [getEntityMap()]: a later state replaces an earlier one with the same
    identifier. *)
Definition entityMap_of (states : list HassState) : gmap string HassState :=
  List.fold_left (fun map st => <[entity_id st := st]> map) states ∅.

Definition getEntityMap (rt : Runtime)
  : Result JsError (gmap string HassState) :=
  match getStates rt with
  | Ok states => Ok (entityMap_of states)
  | Throw e => Throw e
  end.

Definition service_of (domain : string) (entry : string * ServiceInfo)
  : Service :=
  let serviceName := fst entry in
  let serviceInfo := snd entry in
  {| service_domain := domain;
     service := serviceName;
     fullName := domain ++ "." ++ serviceName;
     name := or_else (info_name serviceInfo) serviceName;
     description := or_else (info_description serviceInfo) EmptyString;
     fields := default [] (info_fields serviceInfo);
     target := info_target serviceInfo |}.

(** [getServiceList()] *)
Definition getServiceList (rt : Runtime) : Result JsError (list Service) :=
  match getServices rt with
  | Ok services =>
      Ok (List.flat_map
            (fun domainObj => List.map (service_of (catalog_domain domainObj))
                                       (catalog_services domainObj))
            services)
  | Throw e => Throw e
  end.

(** ** Completion *)

Inductive CompletionItemKind : Type :=
| KindValue | KindFunction | KindFolder | KindModule | KindEnumMember
| KindProperty.

Inductive ItemData : Type :=
| DataEntity (entityId : string)
| DataService (service : string).

Record CompletionItem : Type := mkCompletionItem {
  label : string;
  kind : CompletionItemKind;
  detail : string;
  documentation : string;
  insertText : string;
  sortText : string;
  data : ItemData
}.

(** [ /:\s*([a-z_.]* )$/i ] *)
Definition re_partial : regex :=
  seq [chr ":"; Star cls_s; Group 1 (Star (Chars ident_dot_char)); AssertEnd].

(** [partialMatch?.[1]?.toLowerCase() || ''] *)
Definition partial_of (lineBeforeCursor : string) : string :=
  match match_ lineBeforeCursor re_partial with
  | Some m => match group m 1 with
              | Some g => toLowerCase g
              | None => EmptyString
              end
  | None => EmptyString
  end.


Definition nonempty (s : string) : bool :=
  match s with
  | EmptyString => false
  | String _ _ => true
  end.

(** [lines.filter(Boolean).join("\n")] *)
Definition markdown (lines : list string) : string :=
  join (String LF EmptyString) (List.filter nonempty lines).

(** [state.attributes?.friendly_name || entityId] *)
Definition friendlyName_of (st : HassState) : string :=
  or_else (attributes st ≫= friendly_name) (entity_id st).

(** [entityId.startsWith(partial) ? `0${entityId}` : `1${entityId}`] *)
Definition sortText_of (identifier partial : string) : string :=
  if startsWith identifier partial then "0" ++ identifier
  else "1" ++ identifier.

Definition entity_item (partial : string) (st : HassState) : CompletionItem :=
  let entityId := entity_id st in
  let friendlyName := friendlyName_of st in
  let domain := default EmptyString (List.head (Js.split "." entityId)) in
  let deviceClass := attributes st ≫= device_class in
  let unit_ := attributes st ≫= unit_of_measurement in
  {| label := entityId;
     kind := KindValue;
     detail := friendlyName;
     documentation :=
       markdown
         [ "**" ++ friendlyName ++ "**";
           EmptyString;
           "- **State:** " ++ state st;
           "- **Domain:** " ++ domain;
           if truthy deviceClass
           then "- **Device Class:** " ++ default EmptyString deviceClass else EmptyString;
           if truthy unit_
           then "- **Unit:** " ++ default EmptyString unit_ else EmptyString ];
     insertText := entityId;
     sortText := sortText_of entityId partial;
     data := DataEntity entityId |}.

(** The test that makes the loop of [getEntityCompletions] [continue]. *)
Definition entity_skipped (partial : string) (st : HassState) : bool :=
  nonempty partial
  && negb (includes (toLowerCase (entity_id st)) partial)
  && negb (includes (toLowerCase (friendlyName_of st)) partial).

(** [getEntityCompletions(context)]: an error of the query is logged and
    the candidates are empty. *)
Definition getEntityCompletions (rt : Runtime) (context : Context)
  : list CompletionItem :=
  match getStates rt with
  | Throw _ => []
  | Ok states =>
      let partial := partial_of (lineBeforeCursor context) in
      List.map (entity_item partial)
               (List.filter (fun st => negb (entity_skipped partial st)) states)
  end.

Definition field_doc (entry : string * Field) : string :=
  "- `" ++ fst entry ++ "`: "
  ++ or_else (field_description (snd entry)) "No description".

Definition service_item (partial : string) (svc : Service) : CompletionItem :=
  let fieldDocs :=
    join (String LF EmptyString) (List.map field_doc (List.firstn 5 (fields svc))) in
  {| label := fullName svc;
     kind := KindFunction;
     detail := or_else (Some (name svc)) (service svc);
     documentation :=
       markdown
         [ "**" ++ fullName svc ++ "**";
           EmptyString;
           description svc;
           EmptyString;
           if nonempty fieldDocs then "**Fields:**" else EmptyString;
           fieldDocs ];
     insertText := fullName svc;
     sortText := sortText_of (fullName svc) partial;
     data := DataService (fullName svc) |}.

Definition service_skipped (partial : string) (svc : Service) : bool :=
  nonempty partial && negb (includes (toLowerCase (fullName svc)) partial).

(** [getServiceCompletions(context)] *)
Definition getServiceCompletions (rt : Runtime) (context : Context)
  : list CompletionItem :=
  match getServiceList rt with
  | Throw _ => []
  | Ok services =>
      let partial := partial_of (lineBeforeCursor context) in
      List.map (service_item partial)
               (List.filter (fun svc => negb (service_skipped partial svc))
                            services)
  end.

(** ** Hover *)

(** What a hover shows. Each constructor stands for the Markdown block
    that the source renders from the data it carries: the notice for an
    unknown entity, the block of a known entity (label, state, domain,
    attributes), the notice for an unknown service, the block of a known
    service (description, targeting, fields), the result of a template and
    the error of its evaluation. *)
Inductive Hover : Type :=
| UnknownEntityNotice (entityId : string)
| EntityBlock (entityId : string) (st : HassState)
| UnknownServiceNotice (serviceName : string)
| ServiceBlock (svc : Service)
| TemplateResult (result : string)
| TemplateError (message : string).

(** [getEntityHover(entityId)]: an error of the query gives [null]. *)
Definition getEntityHover (rt : Runtime) (entityId : string) : option Hover :=
  match getEntityMap rt with
  | Throw _ => None
  | Ok entityMap =>
      match entityMap !! entityId with
      | None => Some (UnknownEntityNotice entityId)
      | Some st => Some (EntityBlock entityId st)
      end
  end.

(** [getServiceHover(serviceName)] *)
Definition getServiceHover (rt : Runtime) (serviceName : string)
  : option Hover :=
  match getServiceList rt with
  | Throw _ => None
  | Ok services =>
      match List.find (fun s => String.eqb (fullName s) serviceName) services with
      | None => Some (UnknownServiceNotice serviceName)
      | Some svc => Some (ServiceBlock svc)
      end
  end.

(** [getTemplateHover(template)] *)
Definition getTemplateHover (rt : Runtime) (template : string) : option Hover :=
  match renderTemplate rt template with
  | Ok result => Some (TemplateResult result)
  | Throw e => Some (TemplateError (error_message e))
  end.

(** [ /[a-zA-Z0-9_.]/ ] *)
Definition token_char (c : ascii) : bool := word_char c || is_char "." c.

Definition token_char_at (text : string) (i : nat) : bool :=
  match charAt text i with
  | Some c => token_char c
  | None => false
  end.

(** [while (start > 0 && /[a-zA-Z0-9_.]/.test(text[start - 1])) start--] *)
Fixpoint word_start (text : string) (fuel start : nat) : nat :=
  match fuel with
  | O => start
  | S fuel' =>
      if (0 <? start)%nat && token_char_at text (start - 1)
      then word_start text fuel' (start - 1)
      else start
  end.

(** [while (end < text.length && /[a-zA-Z0-9_.]/.test(text[end])) end++] *)
Fixpoint word_end (text : string) (fuel end_ : nat) : nat :=
  match fuel with
  | O => end_
  | S fuel' =>
      if (end_ <? String.length text)%nat && token_char_at text end_
      then word_end text fuel' (S end_)
      else end_
  end.

(** [getWordRangeAtPosition(document, position)] *)
Definition getWordRangeAtPosition (document : TextDocument)
    (position : Position) : option Range :=
  let text := getText document in
  let offset := offsetAt document position in
  let start := word_start text offset offset in
  let end_ := word_end text (String.length text - offset) offset in
  if (start =? end_)%nat then None
  else Some {| start := positionAt document start;
               end_ := positionAt document end_ |}.

(** [ /^[a-z_]+\.[a-z0-9_]+$/i ] *)
Definition re_identifier_shape : regex :=
  seq [AssertStart; re_dotted_id; AssertEnd].

(** [ /(?:service|action):\s*/ ] *)
Definition re_service_key : regex :=
  seq [Alt (lit "service") (lit "action"); chr ":"; Star cls_s].

(** [ /\{\{[^}]*$/ ] *)
Definition re_open_template : regex :=
  seq [lit "{{"; Star (Chars (fun c => negb (is_char "}" c))); AssertEnd].

(** [text.lastIndexOf(needle, from)]: the last occurrence that starts at
    [from] or before. *)
Definition lastIndexOf_upto (s needle : string) (from : nat) : Z :=
  lastIndexOf (Js.substring s 0 (from + String.length needle)) needle.

(** The handler of [connection.onHover]; [document] is what
    [documents.get(uri)] gives. The two tests on the shape of the word are
    those of the source, in its order. *)
Definition onHover (rt : Runtime) (document : option TextDocument)
    (position : Position) : Result JsError (option Hover) :=
  match document with
  | None => Ok None
  | Some document =>
      let text := getText document in
      let offset := offsetAt document position in
      match getWordRangeAtPosition document position with
      | None => Ok None
      | Some wordRange =>
          let word := getTextIn document wordRange in
          if test re_identifier_shape word then
            Ok (getEntityHover rt word)
          else
            inService <--
              (if test re_identifier_shape word then
                 match Js.split LF text !! line position with
                 | None => Throw undefined_line
                 | Some lineText => Ok (test re_service_key lineText)
                 end
               else Ok false) ;;
            if inService then Ok (getServiceHover rt word)
            else if test re_open_template (Js.substring text 0 offset) then
              let templateEnd := indexOf_from text "}}" offset in
              if negb (templateEnd =? -1)%Z then
                let template :=
                  Js.substring text
                    (Z.to_nat (lastIndexOf_upto text "{{" offset))
                    (Z.to_nat (templateEnd + 2)) in
                Ok (getTemplateHover rt template)
              else Ok None
            else Ok None
      end
  end.

(** ** Diagnostics *)

Inductive DiagnosticSeverity : Type :=
| SeverityError
| SeverityWarning.

Record Diagnostic : Type := mkDiagnostic {
  severity : DiagnosticSeverity;
  range : Range;
  message : string;
  source : string;
  code : string
}.

Definition unknown_entity (ref : EntityReference) : Diagnostic :=
  {| severity := SeverityWarning;
     range := entity_range ref;
     message := "Unknown entity: " ++ entityId ref;
     source := "ha-lsp";
     code := "unknown-entity" |}.

Definition unknown_service (ref : ServiceReference) : Diagnostic :=
  {| severity := SeverityWarning;
     range := service_range ref;
     message := "Unknown service: " ++ service_name ref;
     source := "ha-lsp";
     code := "unknown-service" |}.

Definition include_not_found (ref : IncludeReference) : Diagnostic :=
  {| severity := SeverityError;
     range := include_range ref;
     message := "Include file not found: " ++ path ref;
     source := "ha-lsp";
     code := "include-not-found" |}.

Definition yaml_syntax (yamlError : YamlError) : Diagnostic :=
  {| severity := SeverityError;
     range :=
       match linePos yamlError with
       | Some (l, col) =>
           {| start := {| line := l - 1; character := col - 1 |};
              end_ := {| line := l - 1; character := col |} |}
       | None =>
           {| start := {| line := 0; character := 0 |};
              end_ := {| line := 0; character := 1 |} |}
       end;
     message := "YAML syntax error: " ++ yaml_message yamlError;
     source := "ha-lsp";
     code := "yaml-syntax" |}.

(** [isAbsolute(ref.path) ? ref.path : resolve(docDir, ref.path)] *)
Definition includePath (rt : Runtime) (docDir : string) (ref : IncludeReference)
  : string :=
  if isAbsolute rt (path ref) then path ref else resolve rt docDir (path ref).

(** [validateDocument(document)]. The diagnostics pushed before an
    exception are kept: the handler of the enclosing [try] logs the error
    and the function returns the array as it is. *)
Definition validateDocument (rt : Runtime) (document : TextDocument)
  : list Diagnostic :=
  if negb (truthy (SUPERVISOR_TOKEN rt)) then []
  else
    let entityRefs := findEntityReferences document in
    match getEntityMap rt with
    | Throw _ => []
    | Ok entityMap =>
        let diagnostics :=
          List.map unknown_entity
            (List.filter (fun ref => negb (bool_decide (is_Some (entityMap !! entityId ref))))
                         entityRefs) in
        let serviceRefs := findServiceReferences document in
        match getServiceList rt with
        | Throw _ => diagnostics
        | Ok services =>
            let serviceSet : gset string := list_to_set (List.map fullName services) in
            let diagnostics :=
              (diagnostics ++
               List.map unknown_service
                 (List.filter (fun ref => negb (bool_decide (service_name ref ∈ serviceSet)))
                              serviceRefs))%list in
            let includeRefs := findIncludeReferences document in
            match fileURLToPath rt (uri document) with
            | Throw _ => diagnostics
            | Ok docPath =>
                let docDir := dirname rt docPath in
                let diagnostics :=
                  (diagnostics ++
                   List.map include_not_found
                     (List.filter (fun ref => negb (existsSync rt (includePath rt docDir ref)))
                                  includeRefs))%list in
                match parseYaml rt (getText document) with
                | Ok _ => diagnostics
                | Throw yamlError => (diagnostics ++ [yaml_syntax yamlError])%list
                end
            end
        end
    end.

(** ** Words of the specification *)

(** The identifier is present in the snapshot. *)
Definition in_snapshot (states : list HassState) (identifier : string) : bool :=
  List.existsb (fun st => String.eqb (entity_id st) identifier) states.

(** The full name is that of a service of the list. *)
Definition in_catalog (services : list Service) (fullName_ : string) : bool :=
  List.existsb (fun svc => String.eqb (fullName svc) fullName_) services.

(** The hover is not taken from the service catalog. *)
Definition entity_or_template (h : option Hover) : Prop :=
  match h with
  | Some (UnknownServiceNotice _) | Some (ServiceBlock _) => False
  | _ => True
  end.

(** The findings that carry a given code. *)
Definition with_code (c : string) (diagnostics : list Diagnostic)
  : list Diagnostic :=
  List.filter (fun d => String.eqb (code d) c) diagnostics.

(** ** Example runtimes and documents *)

Definition kitchen_light : HassState :=
  {| entity_id := "light.kitchen";
     state := "on";
     attributes := Some {| friendly_name := Some "Kitchen";
                           device_class := None;
                           unit_of_measurement := None |};
     last_changed := "2024-01-01T00:00:00+00:00" |}.

Definition linked_switch : HassState :=
  {| entity_id := "switch.linked_kitchen";
     state := "off";
     attributes := Some {| friendly_name := Some "Light.Kitchen link";
                           device_class := None;
                           unit_of_measurement := None |};
     last_changed := "2024-01-01T00:00:00+00:00" |}.

(** A switch whose name does not hold the text typed in the examples. *)
Definition plain_switch : HassState :=
  {| entity_id := "switch.linked_kitchen";
     state := "off";
     attributes := Some {| friendly_name := Some "Linked kitchen switch";
                           device_class := None;
                           unit_of_measurement := None |};
     last_changed := "2024-01-01T00:00:00+00:00" |}.


Definition catalog_example : list DomainObj :=
  [ {| catalog_domain := "light";
       catalog_services :=
         [ ("turn_on",
            {| info_name := Some "Turn on";
               info_description := Some "Turns on one or more lights.";
               info_fields :=
                 Some [("brightness",
                        {| field_description := Some "Brightness of the light.";
                           field_required := false |})];
               info_target := true |});
           ("turn_off",
            {| info_name := Some "Turn off";
               info_description := Some "Turns off one or more lights.";
               info_fields := None;
               info_target := true |}) ] |};
    {| catalog_domain := "switch";
       catalog_services :=
         [ ("toggle",
            {| info_name := Some "Toggle";
               info_description := Some "Toggles a switch.";
               info_fields := None;
               info_target := true |}) ] |} ].

(** A stand-in for the structural parser: it rejects a text that opens a
    bracket and does not close it. *)
Definition bracket_parser (text : string) : Result YamlError unit :=
  if includes text "[" && negb (includes text "]")
  then Throw {| yaml_message := "Flow sequence in block collection must be closed";
                linePos := Some (1, 6) |}
  else Ok tt.

(** A runtime that answers: the credential is set and both queries
    succeed. No file exists. *)
Definition live_runtime (states : list HassState) : Runtime :=
  {| SUPERVISOR_TOKEN := Some "token";
     getStates := Ok states;
     getServices := Ok catalog_example;
     renderTemplate := fun _ => Ok EmptyString;
     fileURLToPath := fun u => Ok (Js.substring u 7 (String.length u));
     dirname := fun _ => "/config";
     resolve := fun dir p => dir ++ "/" ++ p;
     isAbsolute := fun p => startsWith p "/";
     existsSync := fun _ => false;
     parseYaml := bracket_parser |}.

(** The same without the credential: every query throws. *)
Definition offline_runtime : Runtime :=
  {| SUPERVISOR_TOKEN := None;
     getStates := Throw (Error "SUPERVISOR_TOKEN not available");
     getServices := Throw (Error "SUPERVISOR_TOKEN not available");
     renderTemplate := fun _ => Throw (Error "SUPERVISOR_TOKEN not available");
     fileURLToPath := fun u => Ok (Js.substring u 7 (String.length u));
     dirname := fun _ => "/config";
     resolve := fun dir p => dir ++ "/" ++ p;
     isAbsolute := fun p => startsWith p "/";
     existsSync := fun _ => false;
     parseYaml := bracket_parser |}.

Definition known_entity_example : TextDocument :=
  {| uri := "file:///config/automations.yaml";
     getText := "entity_id: light.kitchen" |}.

Definition unknown_entity_example : TextDocument :=
  {| uri := "file:///config/automations.yaml";
     getText := "entity_id: light.nonexistent" |}.

Definition broken_example : TextDocument :=
  {| uri := "file:///config/configuration.yaml";
     getText := "list: [1, 2
automation: !include missing.yaml" |}.

Definition service_line_example : TextDocument :=
  {| uri := "file:///config/scripts.yaml";
     getText := "service: light.turn_on" |}.

(** The context of a cursor at the end of a line. *)
Definition context_at_end_of (l : string) : Context :=
  {| ctx_line := l;
     lineBeforeCursor := l;
     offset := String.length l;
     position := {| line := 0; character := String.length l |};
     inKey := false;
     inValue := true;
     key := Some "entity_id";
     parentKey := None;
     parentKeys := [];
     inList := false;
     inJinja := false;
     triggerType := None;
     actionType := None;
     domain := None |}.

End Providers.


(** * The client of the runtime *)

Module Client.

Import Cache Js.
Local Open Scope string_scope.

(** What a request yields: the text of the response or the value of its
    JSON, [J] being the type of parsed JSON. *)
Inductive JsValue (J : Type) : Type :=
| Text (s : string)
| Json (j : J).

Arguments Text {J} s.
Arguments Json {J} j.

Record Request : Type := mkRequest {
  url : string;
  method : string;
  authorization : string;
  contentType : string;
  body : option string
}.

(** The response of the global [fetch]: [response.ok], [response.status],
    what awaiting [response.text()] and [response.json()] gives, and the
    [content-type] header. *)
Record Response (J : Type) : Type := mkResponse {
  ok : bool;
  status : N;
  text : Result JsError string;
  json : Result JsError J;
  content_type : option string
}.

Arguments ok {J} r.
Arguments status {J} r.
Arguments text {J} r.
Arguments json {J} r.
Arguments content_type {J} r.

Section WithWorld.

Context {J W : Type}.

(** [Date.now()] *)
Variable now : W -> Z.

(** [process.env.SUPERVISOR_TOKEN] *)
Variable SUPERVISOR_TOKEN : option string.

(** The global [fetch]: it changes the world and yields a response or
    throws. *)
Variable http : Request -> W -> Result JsError (Response J) * W.

(** [JSON.stringify({ template })], [JSON.parse(result)] and the empty
    array. *)
Variable stringify_template : string -> string.
Variable JSON_parse : JsValue J -> Result JsError J.
Variable empty_array : J.

Definition SUPERVISOR_API : string := "http://supervisor/core/api".

(** [fetch(endpoint, method, body)] of [HomeAssistantClient]; [template]
    is the template of the body [{ template }], if there is a body. *)
Definition fetch (endpoint method : string) (template : option string)
  : Fetcher (V := JsValue J) (E := JsError) (W := W) :=
  fun w =>
    if negb (truthy SUPERVISOR_TOKEN) then
      (Throw (Error "SUPERVISOR_TOKEN not available"), w)
    else
      let options :=
        {| url := SUPERVISOR_API ++ endpoint;
           method := method;
           authorization := "Bearer " ++ default EmptyString SUPERVISOR_TOKEN;
           contentType := "application/json";
           body := stringify_template <$> template |} in
      match http options w with
      | (Throw e, w') => (Throw e, w')
      | (Ok response, w') =>
          if negb (ok response) then
            match text response with
            | Throw e => (Throw e, w')
            | Ok t =>
                (Throw (Error ("HA API error (" ++ pretty (status response)
                               ++ "): " ++ t)), w')
            end
          else if truthy (content_type response)
                  && includes (default EmptyString (content_type response))
                              "application/json"
          then match json response with
               | Ok j => (Ok (Json j), w')
               | Throw e => (Throw e, w')
               end
          else match text response with
               | Ok t => (Ok (Text t), w')
               | Throw e => (Throw e, w')
               end
      end.

Definition Client : Type := HomeAssistantClient (V := JsValue J).

Definition getStates (c : Client) (w : W) :=
  getCached now c "states" (fetch "/states" "GET" None) w.

Definition getServices (c : Client) (w : W) :=
  getCached now c "services" (fetch "/services" "GET" None) w.

Definition getConfig (c : Client) (w : W) :=
  getCached now c "config" (fetch "/config" "GET" None) w.

(** [const result = await this.fetch("/template", "POST", { template });
    return JSON.parse(result);] *)
Definition template_query (template : string)
  : Fetcher (V := JsValue J) (E := JsError) (W := W) :=
  fun w =>
    match fetch "/template" "POST" (Some template) w with
    | (Ok result, w') =>
        (match JSON_parse result with
         | Ok j => Ok (Json j)
         | Throw e => Throw e
         end, w')
    | (Throw e, w') => (Throw e, w')
    end.

(** The same inside [try { ... } catch { return []; }]. *)
Definition template_query_or_empty (template : string)
  : Fetcher (V := JsValue J) (E := JsError) (W := W) :=
  fun w =>
    match template_query template w with
    | (Ok v, w') => (Ok v, w')
    | (Throw _, w') => (Ok (Json empty_array), w')
    end.

Definition areas_template : string :=
  "{% set area_list = [] %}{% for area in areas() %}{% set area_list = area_list + [{'id': area, 'name': area_name(area)}] %}{% endfor %}{{ area_list | tojson }}".

Definition devices_template : string :=
  "{% set device_list = [] %}{% for device in devices() %}{% set device_list = device_list + [{'id': device, 'name': device_attr(device, 'name'), 'area': device_attr(device, 'area_id')}] %}{% endfor %}{{ device_list | tojson }}".

Definition floors_template : string :=
  "{% set floor_list = [] %}{% for floor in floors() %}{% set floor_list = floor_list + [{'id': floor, 'name': floor_name(floor)}] %}{% endfor %}{{ floor_list | tojson }}".

Definition labels_template : string :=
  "{% set label_list = [] %}{% for label in labels() %}{% set label_list = label_list + [{'id': label, 'name': label_name(label)}] %}{% endfor %}{{ label_list | tojson }}".

Definition getAreas (c : Client) (w : W) :=
  getCached now c "areas" (template_query areas_template) w.

Definition getDevices (c : Client) (w : W) :=
  getCached now c "devices" (template_query devices_template) w.

Definition getFloors (c : Client) (w : W) :=
  getCached now c "floors" (template_query_or_empty floors_template) w.

Definition getLabels (c : Client) (w : W) :=
  getCached now c "labels" (template_query_or_empty labels_template) w.

(** [renderTemplate(template)]: not cached. *)
Definition renderTemplate (template : string) (w : W) :=
  fetch "/template" "POST" (Some template) w.

End WithWorld.

(** ** An example runtime

    The world is the reading of the clock and a request takes five
    milliseconds; the runtime knows areas and devices but answers a
    query about floors with an error of the template engine. *)

Definition old_runtime (request : Request) (w : Z)
  : Result JsError (Response (list string)) * Z :=
  if includes (default EmptyString (body request)) "floors()" then
    (Ok {| ok := false; status := 400%N;
           text := Ok "UndefinedError: 'floors' is undefined";
           json := Throw (Error "Unexpected token");
           content_type := Some "text/plain" |}, w + 5)%Z
  else
    (Ok {| ok := true; status := 200%N;
           text := Ok "[]";
           json := Ok [];
           content_type := Some "application/json" |}, w + 5)%Z.

(** A stand-in for [JSON.parse]: a text is the array of its lines. *)
Definition lines_parser (v : JsValue (list string))
  : Result JsError (list string) :=
  match v with
  | Text s => Ok (Js.split LF s)
  | Json j => Ok j
  end.

(** A client whose floors were fetched at clock reading 1005. *)
Definition floors_client : Client (J := list string) :=
  {| cache := {[ "floors" := Json ["ground"; "first"] ]};
     cacheTimestamps := {[ "floors" := 1005%Z ]} |}.

End Client.

(** * The other handlers of the server *)

Module Handlers.

Import Js Regex TextDocument Analyzer Providers.
Local Open Scope nat_scope.
Local Open Scope string_scope.

(** ** Data derived from the states *)

(** [getEntityIds()] *)
Definition getEntityIds (rt : Runtime) : Result JsError (list string) :=
  match getStates rt with
  | Ok states => Ok (List.map entity_id states)
  | Throw e => Throw e
  end.

(** [const [domain] = state.entity_id.split(".")] *)
Definition domain_of (entityId : string) : string :=
  default EmptyString (List.head (Js.split "." entityId)).

(** [domains.add(domain)] on a [Set], kept in insertion order. *)
Definition set_add (x : string) (s : list string) : list string :=
  if array_includes s x then s else (s ++ [x])%list.

(** The place of [x] in a sorted array. *)
Fixpoint insert_sorted (x : string) (l : list string) : list string :=
  match l with
  | [] => [x]
  | y :: l' => if String.leb x y then x :: l else y :: insert_sorted x l'
  end.

(** [a.sort()] with the default comparison, that of the code units: the
    sorted arrangement of the array. *)
Definition sort (a : list string) : list string :=
  List.fold_right insert_sorted [] a.

(** The order of the code units, strict and large. *)
Definition strictly_before (a b : string) : Prop := String.ltb a b = true.
Definition not_after (a b : string) : Prop := String.leb a b = true.

(** [getDomains()] *)
Definition getDomains (rt : Runtime) : Result JsError (list string) :=
  match getStates rt with
  | Ok states =>
      Ok (sort (List.fold_left (fun domains st => set_add (domain_of (entity_id st)) domains)
                               states []))
  | Throw e => Throw e
  end.

(** ** Areas and devices *)

Record Area : Type := mkArea {
  area_id : string;
  area_name : string
}.

Record Device : Type := mkDevice {
  device_id : option string;
  device_name : option string;
  device_area : option string
}.

(** The outcome of awaiting [haClient.getAreas()] and
    [haClient.getDevices()]. *)
Record Registry : Type := mkRegistry {
  getAreas : Result JsError (list Area);
  getDevices : Result JsError (list Device)
}.

(** ** Candidates of every kind *)

Inductive CandidateData : Type :=
| ForEntity (entityId : string)
| ForService (service : string)
| ForArea (areaId : string)
| ForDevice (deviceId : string)
| ForJinjaEntity (entityId : string).

(** A completion item; a field that an item does not have is [None]. *)
Record Candidate : Type := mkCandidate {
  cand_label : string;
  cand_kind : CompletionItemKind;
  cand_detail : string;
  cand_documentation : option string;
  cand_insertText : string;
  cand_insertTextFormat : option nat;
  cand_sortText : option string;
  cand_data : option CandidateData
}.

Definition of_item (item : CompletionItem) : Candidate :=
  {| cand_label := label item;
     cand_kind := kind item;
     cand_detail := detail item;
     cand_documentation := Some (documentation item);
     cand_insertText := insertText item;
     cand_insertTextFormat := None;
     cand_sortText := Some (sortText item);
     cand_data := Some (match data item with
                        | DataEntity e => ForEntity e
                        | DataService s => ForService s
                        end) |}.

(** An item with a label, a kind, a detail and the text to insert. *)
Definition plain (k : CompletionItemKind) (text_of : string -> string)
    (entry : string * string) : Candidate :=
  {| cand_label := fst entry;
     cand_kind := k;
     cand_detail := snd entry;
     cand_documentation := None;
     cand_insertText := text_of (fst entry);
     cand_insertTextFormat := None;
     cand_sortText := None;
     cand_data := None |}.

(** [getAreaCompletions(context)] *)
Definition getAreaCompletions (reg : Registry) (context : Context)
  : list Candidate :=
  match getAreas reg with
  | Throw _ => []
  | Ok areas =>
      List.map (fun area =>
                  {| cand_label := area_id area;
                     cand_kind := KindFolder;
                     cand_detail := area_name area;
                     cand_documentation := Some ("Area: " ++ area_name area);
                     cand_insertText := area_id area;
                     cand_insertTextFormat := None;
                     cand_sortText := None;
                     cand_data := Some (ForArea (area_id area)) |})
               areas
  end.

Definition device_candidate (id : string) (device : Device) : Candidate :=
  {| cand_label := id;
     cand_kind := KindModule;
     cand_detail := or_else (device_name device) id;
     cand_documentation :=
       Some (if truthy (device_area device)
             then "Device in area: " ++ default EmptyString (device_area device)
             else "Device");
     cand_insertText := id;
     cand_insertTextFormat := None;
     cand_sortText := None;
     cand_data := Some (ForDevice id) |}.

(** [getDeviceCompletions(context)]: a device without identifier is
    passed over. *)
Definition getDeviceCompletions (reg : Registry) (context : Context)
  : list Candidate :=
  match getDevices reg with
  | Throw _ => []
  | Ok devices =>
      List.flat_map
        (fun device =>
           if truthy (device_id device)
           then [device_candidate (default EmptyString (device_id device)) device]
           else [])
        devices
  end.

(** The expression that tells a call of [states] being typed:
    [ /states\s*\(\s*[Q]?[a-z_.]*$/i ], where [Q] stands for the class of
    the two quotation marks. *)
Definition re_states_call : regex :=
  seq [lit_i "states"; Star cls_s; chr "("; Star cls_s;
       Opt (Chars quote_char); Star (Chars ident_dot_char); AssertEnd].

Definition jinjaFunctions : list (string * string * string) :=
  [ ("states", "Get entity state", "states('$1')");
    ("is_state", "Check entity state", "is_state('$1', '$2')");
    ("state_attr", "Get entity attribute", "state_attr('$1', '$2')");
    ("is_state_attr", "Check entity attribute", "is_state_attr('$1', '$2', '$3')");
    ("now", "Current datetime", "now()");
    ("today_at", "Time today", "today_at('$1')");
    ("as_timestamp", "Convert to timestamp", "as_timestamp($1)");
    ("relative_time", "Human-readable time diff", "relative_time($1)");
    ("float", "Convert to float", "float($1)");
    ("int", "Convert to int", "int($1)");
    ("area_entities", "Get area entities", "area_entities('$1')");
    ("area_devices", "Get area devices", "area_devices('$1')");
    ("device_entities", "Get device entities", "device_entities('$1')");
    ("device_attr", "Get device attribute", "device_attr('$1', '$2')") ].

(** [getJinjaCompletions(context)] *)
Definition getJinjaCompletions (rt : Runtime) (context : Context)
  : list Candidate :=
  if test re_states_call (lineBeforeCursor context) then
    match getStates rt with
    | Throw _ => []
    | Ok states =>
        List.map (fun st =>
                    {| cand_label := entity_id st;
                       cand_kind := KindValue;
                       cand_detail := friendlyName_of st;
                       cand_documentation := None;
                       cand_insertText := entity_id st ++ "'";
                       cand_insertTextFormat := None;
                       cand_sortText := None;
                       cand_data := Some (ForJinjaEntity (entity_id st)) |})
                 states
    end
  else
    List.map (fun fn =>
                {| cand_label := fst (fst fn);
                   cand_kind := KindFunction;
                   cand_detail := snd (fst fn);
                   cand_documentation := None;
                   cand_insertText := snd fn;
                   cand_insertTextFormat := Some 2;
                   cand_sortText := None;
                   cand_data := None |})
             jinjaFunctions.

(** [getTriggerPlatformCompletions()] *)
Definition getTriggerPlatformCompletions : list Candidate :=
  List.map (plain KindEnumMember (fun l => l))
    [ ("state", "Trigger on entity state change");
      ("numeric_state", "Trigger on numeric threshold");
      ("time", "Trigger at specific time");
      ("time_pattern", "Trigger on time pattern");
      ("sun", "Trigger at sunrise/sunset");
      ("zone", "Trigger on zone enter/leave");
      ("device", "Device trigger");
      ("mqtt", "MQTT message trigger");
      ("webhook", "Webhook trigger");
      ("event", "Event trigger");
      ("homeassistant", "HA start/stop trigger");
      ("template", "Template trigger");
      ("calendar", "Calendar event trigger");
      ("geo_location", "Geo location trigger");
      ("conversation", "Voice assistant trigger");
      ("persistent_notification", "Notification trigger") ].

(** [getConditionTypeCompletions()] *)
Definition getConditionTypeCompletions : list Candidate :=
  List.map (plain KindEnumMember (fun l => l))
    [ ("state", "Entity state condition");
      ("numeric_state", "Numeric state condition");
      ("time", "Time window condition");
      ("sun", "Sun position condition");
      ("zone", "Zone condition");
      ("template", "Template condition");
      ("device", "Device condition");
      ("and", "All conditions must be true");
      ("or", "Any condition must be true");
      ("not", "Condition must be false");
      ("trigger", "Check which trigger fired") ].

Definition automationKeys : list (string * string) :=
  [ ("alias", "Friendly name for the automation");
    ("description", "Description of the automation");
    ("trigger", "Trigger conditions");
    ("condition", "Conditions to check");
    ("action", "Actions to perform");
    ("mode", "Execution mode (single, restart, queued, parallel)");
    ("max", "Max concurrent runs (for queued/parallel)");
    ("max_exceeded", "Action when max exceeded");
    ("variables", "Variables available in automation");
    ("trace", "Trace configuration") ].

Definition triggerKeys : list (string * string) :=
  [ ("platform", "Trigger platform type");
    ("entity_id", "Entity to monitor");
    ("to", "State to transition to");
    ("from", "State to transition from");
    ("for", "Duration in state");
    ("attribute", "Attribute to monitor");
    ("id", "Trigger identifier");
    ("variables", "Trigger-local variables") ].

Definition actionKeys : list (string * string) :=
  [ ("service", "Service to call");
    ("action", "Action to call (alias for service)");
    ("target", "Target entities/areas/devices");
    ("data", "Service data");
    ("entity_id", "Entity ID (in target)");
    ("delay", "Delay before next action");
    ("wait_template", "Wait for template to be true");
    ("wait_for_trigger", "Wait for trigger");
    ("repeat", "Repeat actions");
    ("choose", "Conditional actions");
    ("if", "If-then-else");
    ("parallel", "Run actions in parallel");
    ("sequence", "Sequence of actions");
    ("variables", "Set variables");
    ("stop", "Stop execution");
    ("event", "Fire event") ].

Definition key_candidate : string * string -> Candidate :=
  plain KindProperty (fun l => l ++ ": ").

Definition is_key (k : option string) (expected : string) : bool :=
  match k with
  | Some s => String.eqb s expected
  | None => false
  end.

(** [getKeyCompletions(context)] *)
Definition getKeyCompletions (context : Context) : list Candidate :=
  ((if (List.length (parentKeys context) =? 0)%nat
       || is_key (List.head (parentKeys context)) "automation"
    then List.map key_candidate automationKeys else [])
   ++ (if is_key (parentKey context) "trigger"
          || array_includes (parentKeys context) "trigger"
       then List.map key_candidate triggerKeys else [])
   ++ (if is_key (parentKey context) "action"
          || array_includes (parentKeys context) "action"
       then List.map key_candidate actionKeys else []))%list.

(** The body of the [try] of [connection.onCompletion]. Whatever the
    functions called may throw is caught in them. *)
Definition complete (rt : Runtime) (reg : Registry) (context : Context)
  : list Candidate :=
  if inJinja context then getJinjaCompletions rt context
  else
    let key := toLowerCase <$> key context in
    let in_value := inValue context in
    if in_value && (is_key key "entity_id" || is_key key "entity"
                    || is_key key "entities")
    then List.map of_item (getEntityCompletions rt context)
    else if in_value && (is_key key "service" || is_key key "action")
    then List.map of_item (getServiceCompletions rt context)
    else if in_value && (is_key key "area_id" || is_key key "area")
    then getAreaCompletions reg context
    else if in_value && (is_key key "device_id" || is_key key "device")
    then getDeviceCompletions reg context
    else if in_value && is_key key "platform"
            && array_includes (parentKeys context) "trigger"
    then getTriggerPlatformCompletions
    else if in_value && is_key key "condition"
    then getConditionTypeCompletions
    else if inKey context then getKeyCompletions context
    else [].

(** The handler of [connection.onCompletion]; the context is analyzed
    before the [try], so what [analyzeContext] throws leaves the
    handler. *)
Definition onCompletion (rt : Runtime) (reg : Registry)
    (document : option TextDocument) (position : Position)
  : Result JsError (list Candidate) :=
  match document with
  | None => Ok []
  | Some document =>
      match analyzeContext document position with
      | Throw e => Throw e
      | Ok context => Ok (complete rt reg context)
      end
  end.

(** ** Go to definition *)

Record Location : Type := mkLocation {
  location_uri : string;
  location_range : Range
}.

Definition origin : Range :=
  {| start := {| line := 0; character := 0 |};
     end_ := {| line := 0; character := 0 |} |}.

Definition file_location (p : string) : Location :=
  {| location_uri := "file://" ++ p; location_range := origin |}.

(** [ /!secret\s+(\w+)/ ] *)
Definition re_secret : regex :=
  seq [lit "!secret"; Plus cls_s; Group 1 (Plus cls_w)].

(** The first of the paths that exists. *)
Definition first_existing (rt : Runtime) (paths : list string) : option string :=
  List.find (existsSync rt) paths.

(** The three places where [secrets.yaml] is looked for;
    [resolve(docDir, "..", "secrets.yaml")] is resolved in two steps. *)
Definition possiblePaths (rt : Runtime) (docDir : string) : list string :=
  [ resolve rt docDir "secrets.yaml";
    resolve rt (resolve rt docDir "..") "secrets.yaml";
    "/homeassistant/secrets.yaml" ].

(** The part of [connection.onDefinition] that follows the test on
    [!include]. *)
Definition secret_definition (rt : Runtime) (document : TextDocument)
    (lineText : string) : Result JsError (option Location) :=
  match match_ lineText re_secret with
  | None => Ok None
  | Some _ =>
      match fileURLToPath rt (uri document) with
      | Throw e => Throw e
      | Ok docPath =>
          let docDir := dirname rt docPath in
          Ok (file_location <$> first_existing rt (possiblePaths rt docDir))
      end
  end.

(** The handler of [connection.onDefinition]. *)
Definition onDefinition (rt : Runtime) (document : option TextDocument)
    (position : Position) : Result JsError (option Location) :=
  match document with
  | None => Ok None
  | Some document =>
      match Js.split LF (getText document) !! line position with
      | None => Throw undefined_line
      | Some lineText =>
          match match_ lineText includePattern with
          | Some includeMatch =>
              match fileURLToPath rt (uri document) with
              | Throw e => Throw e
              | Ok docPath =>
                  let docDir := dirname rt docPath in
                  let includePath := captured includeMatch in
                  let resolvedPath :=
                    if isAbsolute rt includePath then includePath
                    else resolve rt docDir includePath in
                  if existsSync rt resolvedPath
                  then Ok (Some (file_location resolvedPath))
                  else secret_definition rt document lineText
              end
          | None => secret_definition rt document lineText
          end
      end
  end.

(** ** Example data *)

Definition registry_example : Registry :=
  {| getAreas := Ok [ {| area_id := "kitchen"; area_name := "Kitchen" |} ];
     getDevices :=
       Ok [ {| device_id := Some "abc123"; device_name := Some "Lamp";
               device_area := Some "kitchen" |};
            {| device_id := None; device_name := Some "Orphan";
               device_area := None |} ] |}.

Definition failing_registry : Registry :=
  {| getAreas := Throw (Error "unreachable");
     getDevices := Throw (Error "unreachable") |}.

(** A runtime in which the files named exist and both queries fail. *)
Definition files_runtime (files : list string) : Runtime :=
  {| SUPERVISOR_TOKEN := Some "token";
     Providers.getStates := Throw (Error "unreachable");
     getServices := Throw (Error "unreachable");
     renderTemplate := fun _ => Throw (Error "unreachable");
     fileURLToPath := fun u => Ok (Js.substring u 7 (String.length u));
     dirname := fun _ => "/config";
     resolve := fun dir p => dir ++ "/" ++ p;
     isAbsolute := fun p => startsWith p "/";
     existsSync := fun p => array_includes files p;
     parseYaml := bracket_parser |}.

Definition secret_example : TextDocument :=
  {| uri := "file:///config/configuration.yaml";
     getText := "api_key: !secret weather_key
packages: !include packages.yaml" |}.

End Handlers.

(** * Theorems on the cache *)

Module CacheFacts.

Import Cache.
Local Open Scope Z_scope.

Section WithWorld.

Context {V E W : Type}.
Variable now : W -> Z.

Local Abbreviation HomeAssistantClient := (@HomeAssistantClient V).
Local Abbreviation Fetcher := (@Fetcher V E W).
Local Abbreviation isCacheValid := (isCacheValid now).
Local Abbreviation getCached := (@getCached V E W now).

(** *** Basic facts *)

Lemma getCached_hit (c : HomeAssistantClient) key (fetcher : Fetcher) w :
  isCacheValid c key w = true ->
  getCached c key fetcher w = (Ok (cache c !! key), c, w).
Proof. intros H. unfold getCached. now rewrite H. Qed.

Lemma getCached_refresh_ok (c : HomeAssistantClient) key (fetcher : Fetcher) w data w' :
  isCacheValid c key w = false ->
  fetcher w = (Ok data, w') ->
  getCached c key fetcher w =
    (Ok (Some data),
     {| cache := <[key := data]> (cache c);
        cacheTimestamps := <[key := now w']> (cacheTimestamps c) |},
     w').
Proof. intros H F. unfold getCached. now rewrite H, F. Qed.

Lemma getCached_refresh_throw (c : HomeAssistantClient) key (fetcher : Fetcher) w error w' :
  isCacheValid c key w = false ->
  fetcher w = (Throw error, w') ->
  getCached c key fetcher w =
    (match cache c !! key with
     | Some stale => Ok (Some stale)
     | None => Throw error
     end, c, w').
Proof.
  intros H F. unfold getCached. rewrite H, F.
  now destruct (cache c !! key).
Qed.

Lemma isCacheValid_spec (c : HomeAssistantClient) key w :
  isCacheValid c key w = true <->
  exists timestamp,
    cacheTimestamps c !! key = Some timestamp /\
    timestamp <> 0 /\ now w - timestamp < CACHE_TTL.
Proof.
  unfold isCacheValid. destruct (cacheTimestamps c !! key) as [t|].
  - rewrite andb_true_iff, negb_true_iff, Z.eqb_neq, Z.ltb_lt.
    split.
    + intros [? ?]. exists t. auto.
    + intros (t' & [= <-] & ? & ?). auto.
  - split; [discriminate | intros (? & [=] & _)].
Qed.

(** An expired entry stays expired as the clock advances. *)
Lemma isCacheValid_false_mono (c : HomeAssistantClient) key w w2 :
  isCacheValid c key w = false ->
  now w <= now w2 ->
  isCacheValid c key w2 = false.
Proof.
  unfold isCacheValid. destruct (cacheTimestamps c !! key) as [t|]; auto.
  rewrite !andb_false_iff, !negb_false_iff, !Z.ltb_ge.
  intros [H|H] L; [now left | right; lia].
Qed.

(** X2. A lookup on another key does not disturb an entry: whatever
    [getCached] does for [key'], the value and the timestamp stored for a
    different [key] are what they were. *)
Lemma getCached_other_key (c : HomeAssistantClient) key key' (fetcher : Fetcher) w :
  key <> key' ->
  cache (client_after (getCached c key' fetcher w)) !! key = cache c !! key /\
  cacheTimestamps (client_after (getCached c key' fetcher w)) !! key
    = cacheTimestamps c !! key.
Proof.
  intros Hne. unfold getCached, client_after.
  destruct (isCacheValid c key' w); simpl; auto.
  destruct (fetcher w) as [[data|error] w']; simpl.
  - now rewrite !lookup_insert_ne by congruence.
  - now destruct (cache c !! key').
Qed.

(** *** The claims on the cache *)

(** C1. After a successful fetch for [key] (the entry was missing or
    expired, the fetcher yielded [data], and the clock read [now w1]
    when it completed), let [c2] be any later state of the client that
    still holds the entry so written. A [getCached] for [key] issued at
    a clock reading less than [CACHE_TTL] = 60000 ms above [now w1]
    returns exactly [data], whatever fetcher is supplied, and leaves
    both the client and the world as they were: the fetcher is not
    invoked. The clock is assumed to read non-zero at the fetch
    (milliseconds since 1970). *)
Theorem getCached_within_ttl_returns_fetched
    (c : HomeAssistantClient) (key : string) (fetcher : Fetcher)
    (w w1 : W) (data : V) :
  isCacheValid c key w = false ->
  fetcher w = (Ok data, w1) ->
  now w1 <> 0 ->
  let c1 := client_after (getCached c key fetcher w) in
  returned (getCached c key fetcher w) = Ok (Some data) /\
  forall (c2 : HomeAssistantClient) (fetcher2 : Fetcher) (w2 : W),
    cache c2 !! key = cache c1 !! key ->
    cacheTimestamps c2 !! key = cacheTimestamps c1 !! key ->
    now w2 < now w1 + CACHE_TTL ->
    getCached c2 key fetcher2 w2 = (Ok (Some data), c2, w2).
Proof.
  intros Hexp Hf Hnz c1.
  assert (Hc1 : getCached c key fetcher w =
                (Ok (Some data),
                 {| cache := <[key := data]> (cache c);
                    cacheTimestamps := <[key := now w1]> (cacheTimestamps c) |},
                 w1))
    by now apply getCached_refresh_ok.
  subst c1. rewrite Hc1. unfold returned, client_after. simpl.
  split; [reflexivity|].
  intros c2 fetcher2 w2 Hv Ht Hlt.
  rewrite lookup_insert_eq in Hv. rewrite lookup_insert_eq in Ht.
  rewrite getCached_hit.
  - now rewrite Hv.
  - apply isCacheValid_spec. exists (now w1). repeat split; auto. lia.
Qed.

(** C2. When the entry is missing or expired and the fetcher throws,
    [getCached] returns the previously cached value if there is one,
    and throws exactly when there is none; what it throws is the
    fetcher's own error. *)
Theorem getCached_fetch_failure_stale_or_raise
    (c : HomeAssistantClient) (key : string) (fetcher : Fetcher)
    (w w' : W) (error : E) :
  isCacheValid c key w = false ->
  fetcher w = (Throw error, w') ->
  let r := returned (getCached c key fetcher w) in
  (forall stale, cache c !! key = Some stale -> r = Ok (Some stale)) /\
  (raises r <-> cache c !! key = None) /\
  (cache c !! key = None -> r = Throw error).
Proof.
  intros Hexp Hf r. subst r.
  rewrite (getCached_refresh_throw _ _ _ _ _ _ Hexp Hf).
  unfold returned. simpl.
  destruct (cache c !! key) as [stale|]; simpl.
  - split; [now intros ? [= <-]|]. split; [|discriminate].
    split; [contradiction | discriminate].
  - split; [discriminate|]. split; [|reflexivity].
    split; auto.
Qed.

(** C10. When the entry is missing or expired and the fetcher throws,
    the client is returned unchanged: the cached value and the
    timestamp stored for [key] are what they were. Hence the entry is
    still expired at every later clock reading, and every later
    [getCached] for [key] runs the fetcher it is given: a value it
    yields is stored and returned in place of the stale one. *)
Theorem getCached_fetch_failure_keeps_state
    (c : HomeAssistantClient) (key : string) (fetcher : Fetcher)
    (w w' : W) (error : E) :
  isCacheValid c key w = false ->
  fetcher w = (Throw error, w') ->
  let c' := client_after (getCached c key fetcher w) in
  c' = c /\
  cache c' !! key = cache c !! key /\
  cacheTimestamps c' !! key = cacheTimestamps c !! key /\
  forall (fetcher2 : Fetcher) (w2 : W),
    now w <= now w2 ->
    isCacheValid c' key w2 = false /\
    world_after (getCached c' key fetcher2 w2) = (fetcher2 w2).2 /\
    match fetcher2 w2 with
    | (Ok data, w3) =>
        getCached c' key fetcher2 w2 =
          (Ok (Some data),
           {| cache := <[key := data]> (cache c);
              cacheTimestamps := <[key := now w3]> (cacheTimestamps c) |},
           w3)
    | (Throw error2, w3) =>
        getCached c' key fetcher2 w2 =
          (match cache c !! key with
           | Some stale => Ok (Some stale)
           | None => Throw error2
           end, c, w3)
    end.
Proof.
  intros Hexp Hf c'.
  assert (Hc' : c' = c).
  { subst c'. rewrite (getCached_refresh_throw _ _ _ _ _ _ Hexp Hf).
    reflexivity. }
  rewrite Hc'. repeat split.
  - now apply isCacheValid_false_mono with w.
  - pose proof (isCacheValid_false_mono _ _ _ _ Hexp H) as Hexp2.
    unfold world_after, getCached. rewrite Hexp2.
    destruct (fetcher2 w2) as [[data|error2] w3]; simpl; auto.
    now destruct (cache c !! key).
  - pose proof (isCacheValid_false_mono _ _ _ _ Hexp H) as Hexp2.
    destruct (fetcher2 w2) as [[data|error2] w3] eqn:Hf2.
    + now apply getCached_refresh_ok.
    + now apply getCached_refresh_throw.
Qed.

(** *** Further properties of the cache *)

(** X1. The two maps hold the same keys at all times: they do in a new
    client, they do after [invalidateCache], and [getCached] keeps them
    so, whatever it does. On such a client a lookup that finds the entry
    valid returns a value, never [undefined], and changes nothing. *)
Theorem cache_consistency_kept :
  same_keys (@new_client V) /\
  (forall (c : HomeAssistantClient), same_keys (invalidateCache c)) /\
  (forall (c : HomeAssistantClient) key (fetcher : Fetcher) w,
     same_keys c -> same_keys (client_after (getCached c key fetcher w))) /\
  (forall (c : HomeAssistantClient) key (fetcher : Fetcher) w,
     same_keys c -> isCacheValid c key w = true ->
     exists data, getCached c key fetcher w = (Ok (Some data), c, w)).
Proof.
  split; [|split; [|split]].
  - intros key. simpl. rewrite !lookup_empty. split; intros [? [=]].
  - intros c key. simpl. rewrite !lookup_empty. split; intros [? [=]].
  - intros c key fetcher w Hc. unfold getCached, client_after.
    destruct (isCacheValid c key w); simpl; [assumption|].
    destruct (fetcher w) as [[data|error] w']; simpl.
    + intros key'. simpl. destruct (decide (key = key')) as [->|Hne].
      * rewrite !lookup_insert_eq. split; eauto.
      * rewrite !lookup_insert_ne by assumption. apply Hc.
    + now destruct (cache c !! key).
  - intros c key fetcher w Hc Hvalid.
    rewrite (getCached_hit _ _ _ _ Hvalid).
    apply isCacheValid_spec in Hvalid as (t & Ht & _).
    destruct (proj2 (Hc key)) as [data Hdata]; [eauto|].
    exists data. now rewrite Hdata.
Qed.

(** X3. After [invalidateCache] every lookup, for every key and at every
    clock reading, runs its fetcher: a value it yields is stored and
    returned, and an error it throws reaches the caller, no stale value
    being left to fall back on. *)
Theorem getCached_after_invalidate
    (c : HomeAssistantClient) (key : string) (fetcher : Fetcher) (w : W) :
  getCached (invalidateCache c) key fetcher w =
    match fetcher w with
    | (Ok data, w') =>
        (Ok (Some data),
         {| cache := {[ key := data ]};
            cacheTimestamps := {[ key := now w' ]} |}, w')
    | (Throw error, w') => (Throw error, invalidateCache c, w')
    end.
Proof.
  unfold getCached, isCacheValid, invalidateCache. simpl.
  rewrite lookup_empty.
  destruct (fetcher w) as [[data|error] w']; [|now rewrite lookup_empty].
  now rewrite !insert_empty.
Qed.

End WithWorld.

Lemma getCached_within_ttl_returns_fetched_witness :
  getCached clock warmed_client "states" (failing "unreachable") 50000
    = (Ok (Some "snapshot"), warmed_client, 50000).
Proof.
  apply (proj2 (getCached_within_ttl_returns_fetched clock new_client "states"
                  (answering "snapshot") 1000 1005 "snapshot"
                  eq_refl eq_refl ltac:(discriminate))
               warmed_client (failing "unreachable") 50000 eq_refl eq_refl).
  vm_compute. reflexivity.
Defined.

Lemma getCached_fetch_failure_stale_or_raise_witness :
  returned (getCached clock warmed_client "states" (failing "unreachable") 70000)
    = Ok (Some "snapshot") /\
  returned (getCached clock new_client "states" (failing "unreachable") 70000)
    = Throw "unreachable".
Proof.
  split.
  - apply (proj1 (getCached_fetch_failure_stale_or_raise clock warmed_client
                    "states" (failing "unreachable") 70000 70005 "unreachable"
                    eq_refl eq_refl)).
    vm_compute. reflexivity.
  - apply (proj2 (proj2 (getCached_fetch_failure_stale_or_raise clock new_client
                    "states" (failing "unreachable") 70000 70005 "unreachable"
                    eq_refl eq_refl))).
    vm_compute. reflexivity.
Defined.

Lemma getCached_fetch_failure_keeps_state_witness :
  client_after
    (getCached clock warmed_client "states" (failing "unreachable") 70000)
    = warmed_client /\
  isCacheValid clock warmed_client "states" 70010 = false.
Proof.
  pose proof (getCached_fetch_failure_keeps_state clock warmed_client "states"
                (failing "unreachable") 70000 70005 "unreachable"
                eq_refl eq_refl) as (Hsame & _ & _ & Hlater).
  split; [exact Hsame|].
  rewrite <- Hsame at 1.
  apply (Hlater (failing "unreachable") 70010). vm_compute. discriminate.
Defined.

Lemma cache_consistency_kept_witness :
  exists data,
    getCached clock warmed_client "states" (failing "unreachable") 50000
      = (Ok (Some data), warmed_client, 50000).
Proof.
  apply (proj2 (proj2 (proj2 (@cache_consistency_kept string string Z clock)))).
  - apply (proj1 (proj2 (proj2 (@cache_consistency_kept string string Z clock)))).
    apply (proj1 (@cache_consistency_kept string string Z clock)).
  - vm_compute. reflexivity.
Defined.

(** A lookup of the services leaves the entry of the states as it is. *)
Lemma getCached_other_key_witness :
  cache (client_after (getCached clock warmed_client "services"
                         (answering "catalog") 2000)) !! "states"
    = Some "snapshot".
Proof.
  rewrite (proj1 (getCached_other_key clock warmed_client "states" "services"
                    (answering "catalog") 2000 ltac:(discriminate))).
  vm_compute. reflexivity.
Defined.

(** Why C1 asks for a non-zero clock reading: a timestamp of zero is
    falsy, so an entry fetched at the epoch is never taken as valid and
    the next lookup queries again. *)
Lemma getCached_epoch_timestamp_is_refetched :
  let c1 := client_after
              (getCached clock new_client "states" (answering "old") (-5)) in
  cacheTimestamps c1 !! "states" = Some 0 /\
  returned (getCached clock c1 "states" (answering "new") 10) = Ok (Some "new").
Proof. split; vm_compute; reflexivity. Qed.

End CacheFacts.

(** * Theorems on the matcher *)

Module RegexFacts.

Import Js Regex.
Local Open Scope nat_scope.

Lemma reaches_refl (st : mstate) : reaches st st.
Proof. split; lia. Qed.

Lemma reaches_trans (a b c : mstate) :
  reaches a b -> reaches b c -> reaches a c.
Proof. intros [? ?] [? ?]. split; lia. Qed.

(** A successful run has called its continuation on a state reached by
    consuming input. *)
Definition sound (body : cont -> cont) : Prop :=
  forall k st res,
    body k st = Some res ->
    exists st', k st' = Some res /\ reaches st st'.

Lemma star_loop_sound (body : cont -> cont) :
  sound body -> forall fuel, sound (star_loop body fuel).
Proof.
  intros Hbody fuel. induction fuel as [|fuel IH]; intros k st res; simpl.
  - intros H. exists st. split; [assumption | apply reaches_refl].
  - destruct (body _ st) as [r|] eqn:Hb.
    + intros [= ->]. apply Hbody in Hb as (st1 & Hk & Hreach).
      destruct (pos st1 =? pos st); [discriminate|].
      apply IH in Hk as (st2 & Hk2 & Hreach2).
      exists st2. split; [assumption | eapply reaches_trans; eauto].
    + intros H. exists st. split; [assumption | apply reaches_refl].
Qed.

Lemma run_sound (r : regex) : sound (run r).
Proof.
  induction r as [|p|r1 IH1 r2 IH2|r1 IH1 r2 IH2|r1 IH1|n r1 IH1| |];
    intros k st res; cbn [run].
  - intros H. exists st. split; [assumption | apply reaches_refl].
  - destruct (rest st) as [|c s'] eqn:Hrest; [discriminate|].
    destruct (p c); [|discriminate].
    intros H. eexists. split; [exact H|].
    split; simpl; rewrite ?Hrest; simpl; lia.
  - intros H. apply IH1 in H as (st1 & H & Hr1).
    apply IH2 in H as (st2 & H & Hr2).
    exists st2. split; [assumption | eapply reaches_trans; eauto].
  - destruct (run r1 k st) as [x|] eqn:H1.
    + intros [= ->]. now apply IH1.
    + apply IH2.
  - apply (star_loop_sound _ IH1).
  - intros H. apply IH1 in H as (st1 & H & Hr1).
    eexists. split; [exact H | exact Hr1].
  - destruct (pos st =? 0); [|discriminate].
    intros H. exists st. split; [assumption | apply reaches_refl].
  - destruct (rest st); [|discriminate].
    intros H. exists st. split; [assumption | apply reaches_refl].
Qed.

(** An expression that is not nullable consumes at least one character. *)
Lemma run_progress (r : regex) :
  nullable r = false ->
  forall k st res,
    run r k st = Some res ->
    exists st', k st' = Some res /\ reaches st st' /\ pos st < pos st'.
Proof.
  induction r as [|p|r1 IH1 r2 IH2|r1 IH1 r2 IH2|r1 IH1|n r1 IH1| |];
    cbn [run nullable]; try discriminate; intros Hnull k st res.
  - destruct (rest st) as [|c s'] eqn:Hrest; [discriminate|].
    destruct (p c); [|discriminate].
    intros H. eexists. split; [exact H|].
    split; [split|]; simpl; rewrite ?Hrest; simpl; lia.
  - intros H. apply andb_false_iff in Hnull as [Hn|Hn].
    + apply (IH1 Hn) in H as (st1 & H & Hr1 & Hlt).
      apply run_sound in H as (st2 & H & Hr2).
      exists st2. split; [assumption|].
      split; [eapply reaches_trans; eauto | destruct Hr2; lia].
    + apply run_sound in H as (st1 & H & Hr1).
      apply (IH2 Hn) in H as (st2 & H & Hr2 & Hlt).
      exists st2. split; [assumption|].
      split; [eapply reaches_trans; eauto | destruct Hr1; lia].
  - apply orb_false_iff in Hnull as [Hn1 Hn2].
    destruct (run r1 k st) as [x|] eqn:H1.
    + intros [= ->]. now apply IH1.
    + now apply IH2.
  - intros H. apply (IH1 Hnull) in H as (st1 & H & Hr1 & Hlt).
    eexists. split; [exact H|]. split; [exact Hr1 | exact Hlt].
Qed.

Lemma substring_length (s : string) (n m : nat) :
  n + m <= String.length s ->
  String.length (String.substring n m s) = m.
Proof.
  revert n m. induction s as [|c s IH]; intros [|n] [|m]; simpl; try lia;
    intros H.
  - f_equal. apply (IH 0 m). lia.
  - apply (IH n 0). lia.
  - apply (IH n (S m)). lia.
Qed.

(** A match found from offset [i] on starts at [i] or later, ends within
    the input, and is not empty when the expression is not nullable. *)
Lemma search_bounds (r : regex) (input : string) :
  forall (s : string) (i : nat) (m : Match),
    i + String.length s = String.length input ->
    search r input i s = Some m ->
    i <= index m /\ index m <= lastIndex_after m /\ lastIndex_after m <= String.length input /\
    (nullable r = false -> index m < lastIndex_after m).
Proof.
  induction s as [|c s IH]; intros i m Hlen; simpl.
  - destruct (run r Some _) as [st|] eqn:Hrun; [|discriminate].
    intros [= <-]. simpl.
    pose proof Hrun as Hs. apply run_sound in Hs as (st' & [= ->] & Hle & Heq).
    simpl in *. repeat split; try lia.
    intros Hn. apply (run_progress _ Hn) in Hrun as (st' & [= ->] & _ & Hlt).
    exact Hlt.
  - destruct (run r Some _) as [st|] eqn:Hrun.
    + intros [= <-]. simpl.
      pose proof Hrun as Hs. apply run_sound in Hs as (st' & [= ->] & Hle & Heq).
      simpl in *. repeat split; try lia.
      intros Hn. apply (run_progress _ Hn) in Hrun as (st' & [= ->] & _ & Hlt).
      exact Hlt.
    + intros H. simpl in Hlen. apply IH in H; [|lia]. intuition lia.
Qed.

Lemma exec_bounds (r : regex) (input : string) (lastIndex : nat) (m : Match) :
  exec r input lastIndex = Some m ->
  lastIndex <= index m /\ index m <= lastIndex_after m /\ lastIndex_after m <= String.length input /\
  (nullable r = false -> index m < lastIndex_after m).
Proof.
  unfold exec. destruct (String.length input <? lastIndex) eqn:Hlt;
    [discriminate|].
  apply Nat.ltb_ge in Hlt. apply search_bounds.
  rewrite substring_length; lia.
Qed.

(** The loop over the matches of an expression that is not nullable ends
    on a failed [exec] before the steps allotted to it run out: allotting
    more does not change its result. *)
Lemma exec_loop_enough (r : regex) (input : string) :
  nullable r = false ->
  forall fuel lastIndex,
    String.length input < fuel + lastIndex ->
    exec_loop r input (S fuel) lastIndex = exec_loop r input fuel lastIndex.
Proof.
  intros Hn. induction fuel as [|fuel IH]; intros lastIndex Hlen.
  - simpl. unfold exec.
    replace (String.length input <? lastIndex) with true; [reflexivity|].
    symmetry. apply Nat.ltb_lt. lia.
  - cbn [exec_loop]. destruct (exec r input lastIndex) as [m|] eqn:Hexec;
      [|reflexivity].
    f_equal. apply IH.
    apply exec_bounds in Hexec as (H1 & _ & _ & H2). specialize (H2 Hn). lia.
Qed.

Lemma exec_all_enough (r : regex) (input : string) (extra : nat) :
  nullable r = false ->
  exec_loop r input (S (String.length input) + extra) 0 = exec_all r input.
Proof.
  intros Hn. unfold exec_all. induction extra as [|extra IH].
  - now rewrite Nat.add_0_r.
  - rewrite Nat.add_succ_r. rewrite exec_loop_enough; [exact IH | exact Hn | lia].
Qed.

(** ** Captures *)

Lemma caps_ok_weaken (lo : nat) (st st' : mstate) :
  caps st' = caps st -> pos st <= pos st' -> caps_ok lo st -> caps_ok lo st'.
Proof.
  unfold caps_ok. intros -> Hle H.
  eapply Forall_impl; [exact H|]. simpl. intros c (? & ? & ?). lia.
Qed.

(** A successful run keeps the captures within the part of the input
    that it has consumed. *)
Definition keeps_caps (body : cont -> cont) : Prop :=
  forall k st res,
    body k st = Some res ->
    exists st', k st' = Some res /\ reaches st st' /\
                forall lo, lo <= pos st -> caps_ok lo st -> caps_ok lo st'.

Lemma star_loop_keeps_caps (body : cont -> cont) :
  keeps_caps body -> forall fuel, keeps_caps (star_loop body fuel).
Proof.
  intros Hbody fuel. induction fuel as [|fuel IH]; intros k st res; simpl.
  - intros H. exists st. split; [assumption|]. split; [apply reaches_refl | auto].
  - destruct (body _ st) as [r|] eqn:Hb.
    + intros [= ->]. apply Hbody in Hb as (st1 & Hk & Hreach & Hcaps).
      destruct (pos st1 =? pos st); [discriminate|].
      apply IH in Hk as (st2 & Hk2 & Hreach2 & Hcaps2).
      exists st2. split; [assumption|].
      split; [eapply reaches_trans; eauto|].
      intros lo Hlo Hok. apply Hcaps2; [destruct Hreach; lia | auto].
    + intros H. exists st. split; [assumption|].
      split; [apply reaches_refl | auto].
Qed.

Lemma run_keeps_caps (r : regex) : keeps_caps (run r).
Proof.
  induction r as [|p|r1 IH1 r2 IH2|r1 IH1 r2 IH2|r1 IH1|n r1 IH1| |];
    intros k st res; cbn [run].
  - intros H. exists st. split; [assumption|]. split; [apply reaches_refl | auto].
  - destruct (rest st) as [|c s'] eqn:Hrest; [discriminate|].
    destruct (p c); [|discriminate].
    intros H. eexists. split; [exact H|]. split.
    + split; simpl; rewrite ?Hrest; simpl; lia.
    + intros lo Hlo Hok. eapply caps_ok_weaken; [| |exact Hok]; simpl; auto.
  - intros H. apply IH1 in H as (st1 & H & Hr1 & Hc1).
    apply IH2 in H as (st2 & H & Hr2 & Hc2).
    exists st2. split; [assumption|].
    split; [eapply reaches_trans; eauto|].
    intros lo Hlo Hok. apply Hc2; [destruct Hr1; lia | auto].
  - destruct (run r1 k st) as [x|] eqn:H1.
    + intros [= ->]. now apply IH1.
    + apply IH2.
  - apply (star_loop_keeps_caps _ IH1).
  - intros H. apply IH1 in H as (st1 & H & Hr1 & Hc1).
    eexists. split; [exact H|]. split; [exact Hr1|].
    intros lo Hlo Hok. unfold caps_ok. simpl. constructor.
    + simpl. destruct Hr1. lia.
    + apply (Hc1 lo Hlo Hok).
  - destruct (pos st =? 0); [|discriminate].
    intros H. exists st. split; [assumption|]. split; [apply reaches_refl | auto].
  - destruct (rest st); [|discriminate].
    intros H. exists st. split; [assumption|]. split; [apply reaches_refl | auto].
Qed.

(** The text of a group of a match is the input between two offsets that
    lie within the match. *)
Lemma search_groups (r : regex) (input : string) :
  forall (s : string) (i : nat) (m : Match),
    search r input i s = Some m ->
    forall n g, group m n = Some g ->
      exists a b, index m <= a /\ a <= b /\ b <= lastIndex_after m /\
                  g = Js.substring input a b.
Proof.
  induction s as [|c s IH]; intros i m; simpl.
  - destruct (run r Some _) as [st|] eqn:Hrun; [|discriminate].
    intros [= <-] n g Hg.
    apply run_keeps_caps in Hrun as (st' & [= ->] & _ & Hcaps).
    specialize (Hcaps i (Nat.le_refl _) (List.Forall_nil _)).
    unfold group in Hg. simpl in Hg.
    destruct (List.find _ _) as [[n' g']|] eqn:Hfind; [|discriminate].
    injection Hg as ->. apply List.find_some in Hfind as [Hin _].
    apply in_map_iff in Hin as ([n'' [a b]] & [= _ <-] & Hin).
    unfold caps_ok in Hcaps. rewrite List.Forall_forall in Hcaps.
    apply Hcaps in Hin. simpl in Hin. exists a, b. simpl. intuition.
  - destruct (run r Some _) as [st|] eqn:Hrun.
    + intros [= <-] n g Hg.
      apply run_keeps_caps in Hrun as (st' & [= ->] & _ & Hcaps).
      specialize (Hcaps i (Nat.le_refl _) (List.Forall_nil _)).
      unfold group in Hg. simpl in Hg.
      destruct (List.find _ _) as [[n' g']|] eqn:Hfind; [|discriminate].
      injection Hg as ->. apply List.find_some in Hfind as [Hin _].
      apply in_map_iff in Hin as ([n'' [a b]] & [= _ <-] & Hin).
      unfold caps_ok in Hcaps. rewrite List.Forall_forall in Hcaps.
      apply Hcaps in Hin. simpl in Hin. exists a, b. simpl. intuition.
    + apply IH.
Qed.

Lemma exec_groups (r : regex) (input : string) (lastIndex : nat) (m : Match) :
  exec r input lastIndex = Some m ->
  whole m = Js.substring input (index m) (lastIndex_after m) /\
  forall n g, group m n = Some g ->
    exists a b, index m <= a /\ a <= b /\ b <= lastIndex_after m /\
                g = Js.substring input a b.
Proof.
  unfold exec. destruct (String.length input <? lastIndex); [discriminate|].
  intros H. split; [|eapply search_groups; eauto].
  clear -H. revert H. generalize (String.substring lastIndex
                                    (String.length input - lastIndex) input).
  intros s. revert lastIndex. induction s as [|c s IH]; intros i; simpl.
  - destruct (run r Some _); [|discriminate]. now intros [= <-].
  - destruct (run r Some _); [now intros [= <-] | apply IH].
Qed.

(** The matches of the loop are matches of [exec], each one starting where
    the one before ended or later. *)
Lemma exec_loop_matches (r : regex) (input : string) :
  forall fuel lastIndex m,
    In m (exec_loop r input fuel lastIndex) ->
    exists i, lastIndex <= i /\ exec r input i = Some m.
Proof.
  induction fuel as [|fuel IH]; intros lastIndex m; simpl; [tauto|].
  destruct (exec r input lastIndex) as [m0|] eqn:Hexec; [|simpl; tauto].
  intros [<-|Hin]; [eauto|].
  apply IH in Hin as (i & Hi & Hm). exists i. split; [|assumption].
  apply exec_bounds in Hexec. lia.
Qed.

(** No two matches of the loop overlap, and they come in the order of
    the input. *)
Lemma exec_loop_ordered (r : regex) (input : string) :
  forall fuel lastIndex,
    StronglySorted (fun m1 m2 => lastIndex_after m1 <= index m2)
                   (exec_loop r input fuel lastIndex).
Proof.
  induction fuel as [|fuel IH]; intros lastIndex; simpl; [constructor|].
  destruct (exec r input lastIndex) as [m0|] eqn:Hexec; [|constructor].
  constructor; [apply IH|].
  apply List.Forall_forall. intros m Hm.
  apply exec_loop_matches in Hm as (i & Hi & Hexec').
  apply exec_bounds in Hexec'. lia.
Qed.

End RegexFacts.

(** * Theorems on the context analyzer *)

Module AnalyzerFacts.

Import Js Regex TextDocument Analyzer.
Local Open Scope nat_scope.
Local Open Scope string_scope.

(** ** Occurrences and [lastIndexOf] *)

Lemma append_String (c : ascii) (s t : string) :
  String c s ++ t = String c (s ++ t).
Proof. reflexivity. Qed.

Lemma append_empty (t : string) : EmptyString ++ t = t.
Proof. reflexivity. Qed.

Lemma prefix_occurs (needle s : string) :
  String.prefix needle s = true <-> exists after, s = needle ++ after.
Proof.
  revert s. induction needle as [|c needle IH]; intros s; simpl.
  - split; [intros _; now exists s | intros _; now destruct s].
  - destruct s as [|d s]; simpl.
    + split; [discriminate | intros [after H]; rewrite append_String in H; discriminate].
    + destruct (ascii_dec c d) as [->|Hne].
      * rewrite IH. split; intros [after H]; exists after;
          rewrite ?append_String in *; congruence.
      * split; [discriminate | intros [after H]; rewrite append_String in H; congruence].
Qed.

Lemma occurs_at_0 (s needle : string) :
  occurs_at s needle 0 <-> String.prefix needle s = true.
Proof.
  rewrite prefix_occurs. split.
  - intros (before & after & -> & Hlen).
    destruct before; [|discriminate]. now exists after.
  - intros [after ->]. now exists EmptyString, after.
Qed.

Lemma occurs_at_S (c : ascii) (s needle : string) (j : nat) :
  occurs_at (String c s) needle (S j) <-> occurs_at s needle j.
Proof.
  split.
  - intros (before & after & H & Hlen).
    destruct before as [|d before]; [discriminate|].
    rewrite append_String in H. simpl in Hlen.
    injection H as -> ->. injection Hlen as <-.
    now exists before, after.
  - intros (before & after & -> & <-).
    now exists (String c before), after.
Qed.

Lemma occurs_at_empty (needle : string) (j : nat) :
  occurs_at EmptyString needle j -> j = 0.
Proof.
  intros (before & after & H & <-).
  destruct before; [reflexivity | discriminate].
Qed.

Lemma lastIndexOf_at_spec (s needle : string) (i : nat) (found : Z) :
  ((forall j, ~ occurs_at s needle j) /\
   lastIndexOf_at s needle i found = found) \/
  (exists j, last_occurrence s needle j /\
             lastIndexOf_at s needle i found = Z.of_nat (i + j)).
Proof.
  revert i found. induction s as [|c s IH]; intros i found.
  - cbn [lastIndexOf_at]. destruct (String.prefix needle EmptyString) eqn:Hp.
    + right. exists 0. rewrite Nat.add_0_r. split; [|reflexivity].
      split; [now apply occurs_at_0|].
      intros j Hj. apply occurs_at_empty in Hj. lia.
    + left. split; [|reflexivity].
      intros j Hj. pose proof (occurs_at_empty _ _ Hj) as ->.
      apply occurs_at_0 in Hj. congruence.
  - cbn [lastIndexOf_at]. set (p := String.prefix needle (String c s)).
    destruct (IH (S i) (if p then Z.of_nat i else found))
      as [[Hnone Heq] | (j & [Hocc Hmax] & Heq)].
    + rewrite Heq. destruct p eqn:Hp; subst p.
      * right. exists 0. rewrite Nat.add_0_r. split; [|reflexivity].
        split; [now apply occurs_at_0|].
        intros [|j] Hj; [lia|]. apply occurs_at_S in Hj. now apply Hnone in Hj.
      * left. split; [|reflexivity].
        intros [|j] Hj.
        -- apply occurs_at_0 in Hj. congruence.
        -- apply occurs_at_S in Hj. now apply Hnone in Hj.
    + right. exists (S j). rewrite Heq. split; [|f_equal; lia].
      split; [now apply occurs_at_S|].
      intros [|j'] Hj'; [lia|]. apply occurs_at_S in Hj'.
      apply Hmax in Hj'. lia.
Qed.

Lemma last_occurrence_unique (s needle : string) (i j : nat) :
  last_occurrence s needle i -> last_occurrence s needle j -> i = j.
Proof.
  intros [Hi Hmi] [Hj Hmj]. apply Hmi in Hj. apply Hmj in Hi. lia.
Qed.

(** [lastIndexOf] gives the last occurrence, and -1 when there is none. *)
Lemma lastIndexOf_spec (s needle : string) :
  ((forall j, ~ occurs_at s needle j) /\ lastIndexOf s needle = (-1)%Z) \/
  (exists j, last_occurrence s needle j /\ lastIndexOf s needle = Z.of_nat j).
Proof. apply (lastIndexOf_at_spec s needle 0 (-1)%Z). Qed.

Lemma append_inj_length (a b c d : string) :
  a ++ c = b ++ d -> String.length a = String.length b -> a = b /\ c = d.
Proof.
  revert b. induction a as [|x a IH]; intros [|y b];
    rewrite ?append_String, ?append_empty; simpl; try discriminate.
  - auto.
  - intros [= -> H] [= L]. destruct (IH _ H L) as [-> ->]. auto.
Qed.

(** An opening and a closing marker never start at the same offset. *)
Lemma markers_apart (s : string) (i : nat) :
  occurs_at s "{{" i -> occurs_at s "}}" i -> False.
Proof.
  intros (b1 & a1 & H1 & L1) (b2 & a2 & H2 & L2).
  rewrite H1 in H2. apply append_inj_length in H2 as [_ H2]; [|congruence].
  discriminate.
Qed.

Lemma detectJinja_iff (p : string) :
  detectJinja p = true <->
  exists i, last_occurrence p "{{" i /\
            forall j, last_occurrence p "}}" j -> j < i.
Proof.
  unfold detectJinja.
  destruct (lastIndexOf_spec p "{{") as [[Hno ->] | (i & Hi & ->)].
  - split.
    + rewrite Z.ltb_lt.
      destruct (lastIndexOf_spec p "}}") as [[_ ->] | (j & _ & ->)]; lia.
    + intros (i & [Hi _] & _). now apply Hno in Hi.
  - destruct (lastIndexOf_spec p "}}") as [[Hno ->] | (j & Hj & ->)].
    + split; [|intros _; apply Z.ltb_lt; lia].
      intros _. exists i. split; [assumption|].
      intros j [Hj _]. now apply Hno in Hj.
    + rewrite Z.ltb_lt. split.
      * intros Hlt. exists i. split; [assumption|].
        intros j' Hj'. rewrite (last_occurrence_unique _ _ _ _ Hj' Hj). lia.
      * intros (i' & Hi' & Hlt).
        rewrite (last_occurrence_unique _ _ _ _ Hi Hi').
        apply Hlt in Hj. lia.
Qed.

Lemma last_occurrence_exists (s needle : string) (i : nat) :
  occurs_at s needle i -> exists k, last_occurrence s needle k /\ i <= k.
Proof.
  intros Hi. destruct (lastIndexOf_spec s needle) as [[Hno _] | (k & Hk & _)].
  - now apply Hno in Hi.
  - exists k. split; [assumption|]. now apply Hk.
Qed.

(** ** What [analyzeContext] returns *)

Lemma analyzeContext_inv (document : TextDocument) (position : Position)
    (ctx : Context) :
  analyzeContext document position = Ok ctx ->
  let lines := Js.split LF (getText document) in
  lineBeforeCursor ctx =
    Js.substring (or_else (lines !! line position) EmptyString) 0
                 (character position) /\
  inJinja ctx = detectJinja (lineBeforeCursor ctx) /\
  parentKeys_loop lines (indent (lineBeforeCursor ctx)) (line position) [] None
    = Ok (parentKeys ctx, parentKey ctx) /\
  (if array_includes (parentKeys ctx) "trigger"
      || array_includes (parentKeys ctx) "triggers"
   then scan_up platformMatch lines (S (line position))
   else Ok None) = Ok (triggerType ctx).
Proof.
  unfold analyzeContext. cbv zeta.
  destruct (parentKeys_loop _ _ _ _ _) as [[pks pk]|e] eqn:Hloop;
    cbn [bind fst snd]; [|discriminate].
  destruct (if array_includes pks "trigger" || array_includes pks "triggers"
            then _ else _) as [tt|e] eqn:Htrig; cbn [bind]; [|discriminate].
  destruct (if array_includes pks "action" || array_includes pks "actions"
            then _ else _) as [dm|e] eqn:Hdom; cbn [bind]; [|discriminate].
  intros [= <-]. cbn [lineBeforeCursor inJinja parentKeys parentKey triggerType].
  auto.
Qed.

Lemma parentKeys_loop_total (lines : list string) (currentIndent n : nat)
    (acc : list string) (pk : option string) :
  n <= length lines ->
  exists r, parentKeys_loop lines currentIndent n acc pk = Ok r.
Proof.
  revert acc pk. induction n as [|i IH]; intros acc pk Hn; simpl.
  - eauto.
  - destruct (lookup_lt_is_Some_2 lines i) as [l ->]; [lia|].
    destruct (keyMatch l); [destruct (Nat.ltb _ _)|]; apply IH; lia.
Qed.

Lemma scan_up_total (find : string -> option string) (lines : list string)
    (n : nat) :
  n <= length lines -> exists r, scan_up find lines n = Ok r.
Proof.
  induction n as [|i IH]; intros Hn; simpl.
  - eauto.
  - destruct (lookup_lt_is_Some_2 lines i) as [l ->]; [lia|].
    destruct (find l); [eauto | apply IH; lia].
Qed.

(** With the cursor on a line of the document, [analyzeContext] returns. *)
Lemma analyzeContext_total (document : TextDocument) (position : Position) :
  line position < length (Js.split LF (getText document)) ->
  exists ctx, analyzeContext document position = Ok ctx.
Proof.
  intros Hline. unfold analyzeContext. cbv zeta.
  edestruct parentKeys_loop_total as [[pks pk] ->]; [apply Nat.lt_le_incl, Hline|].
  cbn [bind fst snd].
  destruct (array_includes pks "trigger" || array_includes pks "triggers").
  - edestruct (scan_up_total platformMatch) as [tt ->]; [apply Hline|].
    cbn [bind].
    destruct (array_includes pks "action" || array_includes pks "actions").
    + edestruct (scan_up_total serviceDomainMatch) as [dm ->]; [apply Hline|].
      cbn [bind]. eauto.
    + cbn [bind]. eauto.
  - cbn [bind].
    destruct (array_includes pks "action" || array_includes pks "actions").
    + edestruct (scan_up_total serviceDomainMatch) as [dm ->]; [apply Hline|].
      cbn [bind]. eauto.
    + cbn [bind]. eauto.
Qed.

Lemma array_includes_In (a : list string) (x : string) :
  array_includes a x = true <-> In x a.
Proof.
  unfold array_includes. rewrite existsb_exists. split.
  - intros (y & Hy & Heq). apply String.eqb_eq in Heq. now subst.
  - intros Hx. exists x. split; [assumption | apply String.eqb_refl].
Qed.

(** ** The enclosing-key chain *)

(** On properly nested lines the loop of the source and the walk of the
    specification accept the same lines. *)
Lemma parentKeys_loop_nested (lines : list string) (currentIndent : nat) :
  forall (n threshold : nat) (acc : list string) (pk : option string),
    n <= length lines ->
    threshold <= currentIndent ->
    (forall i l k, i < n -> lines !! i = Some l -> keyMatch l = Some k ->
                   indent l < currentIndent -> indent l < threshold) ->
    properly_nested lines currentIndent n ->
    exists pk',
      parentKeys_loop lines currentIndent n acc pk =
        Ok (enclosing_chain lines threshold n acc, pk').
Proof.
  induction n as [|i IH]; intros threshold acc pk Hn Hle Hbelow Hnest; simpl.
  - eauto.
  - destruct (lookup_lt_is_Some_2 lines i) as [l Hl]; [lia|]. rewrite Hl.
    assert (Hnest' : properly_nested lines currentIndent i).
    { intros a b la lb ka kb Hab Hb. apply Hnest; lia. }
    destruct (keyMatch l) as [k|] eqn:Hk.
    + destruct (Nat.ltb (indent l) currentIndent) eqn:Hcur.
      * apply Nat.ltb_lt in Hcur.
        assert (Hthr : indent l < threshold) by (eapply Hbelow; eauto).
        apply Nat.ltb_lt in Hthr. rewrite Hthr.
        apply IH; [lia | lia | | assumption].
        intros a la ka Ha Hla Hka Hshallow.
        eapply (Hnest a i la l ka k); eauto.
      * apply Nat.ltb_ge in Hcur.
        replace (Nat.ltb (indent l) threshold) with false
          by (symmetry; apply Nat.ltb_ge; lia).
        apply IH; [lia | assumption | | assumption].
        intros a la ka Ha. apply Hbelow. lia.
    + apply IH; [lia | assumption | | assumption].
      intros a la ka Ha. apply Hbelow. lia.
Qed.

(** ** The scan for the trigger platform *)

Lemma scan_up_spec (find : string -> option string) (lines : list string)
    (n : nat) :
  n <= length lines ->
  (exists i l found,
      i < n /\ lines !! i = Some l /\ find l = Some found /\
      (forall j l', i < j -> j < n -> lines !! j = Some l' -> find l' = None) /\
      scan_up find lines n = Ok (Some found)) \/
  ((forall j l', j < n -> lines !! j = Some l' -> find l' = None) /\
   scan_up find lines n = Ok None).
Proof.
  induction n as [|i IH]; intros Hn; simpl.
  - right. split; [intros; lia | reflexivity].
  - destruct (lookup_lt_is_Some_2 lines i) as [l Hl]; [lia|]. rewrite Hl.
    destruct (find l) as [found|] eqn:Hf.
    + left. exists i, l, found. repeat split; auto. intros; lia.
    + destruct IH as [(a & la & found & Ha & Hla & Hfa & Hbetween & Hres)
                     | [Hnone Hres]]; [lia| |].
      * left. exists a, la, found. repeat split; auto.
        intros j l' Haj Hj Hl'.
        destruct (Nat.eq_dec j i) as [->|Hne].
        -- congruence.
        -- eapply Hbetween; eauto. lia.
      * right. split; [|assumption].
        intros j l' Hj Hl'.
        destruct (Nat.eq_dec j i) as [->|Hne].
        -- congruence.
        -- eapply Hnone; eauto. lia.
Qed.

(** ** The reference scans *)

(** No pattern of the reference scans matches the empty string, so each
    loop over its matches ends on a failed [exec]. *)
Lemma reference_patterns_consume :
  nullable entityIdPattern = false /\
  nullable listEntityPattern = false /\
  nullable itemPattern = false /\
  nullable statesPattern = false /\
  nullable isStatePattern = false /\
  nullable servicePattern = false /\
  nullable includePattern = false.
Proof. repeat split; reflexivity. Qed.

(** ** The claims on the analyzer *)

(** C8. For every document and cursor for which [analyzeContext]
    returns, with [before] the text of the cursor line before the cursor:
    [inJinja] is true if and only if the last occurrence of the opening
    marker in [before] lies after the last occurrence of the closing
    marker in [before] (a closing marker that does not occur is behind
    nothing). In particular [inJinja] is false when every opening marker
    in [before] is followed by a closing one, that is, outside any
    marker pair, and true when some opening marker in [before] has no
    closing marker after it. *)
Theorem inJinja_iff_last_open_after_last_close
    (document : TextDocument) (position : Position) (ctx : Context) :
  analyzeContext document position = Ok ctx ->
  let lines := Js.split LF (getText document) in
  let before := lineBeforeCursor ctx in
  before = Js.substring (or_else (lines !! line position) EmptyString) 0
                        (character position) /\
  (inJinja ctx = true <->
   exists i, last_occurrence before "{{" i /\
             forall j, last_occurrence before "}}" j -> j < i) /\
  ((forall i, occurs_at before "{{" i ->
              exists j, i < j /\ occurs_at before "}}" j) ->
   inJinja ctx = false) /\
  ((exists i, occurs_at before "{{" i /\
              forall j, occurs_at before "}}" j -> j <= i) ->
   inJinja ctx = true).
Proof.
  intros Hctx lines before.
  destruct (analyzeContext_inv _ _ _ Hctx) as (Hbefore & Hjinja & _).
  fold before in Hjinja. rewrite Hjinja.
  split; [exact Hbefore|]. split; [apply detectJinja_iff|]. split.
  - intros Hclosed. apply not_true_is_false. intros Htrue.
    apply detectJinja_iff in Htrue as (i & [Hi Hmax] & Hlt).
    destruct (Hclosed i Hi) as (j & Hij & Hj).
    destruct (last_occurrence_exists _ _ _ Hj) as (k & Hk & Hjk).
    apply Hlt in Hk. lia.
  - intros (i & Hi & Hnone). apply detectJinja_iff.
    destruct (last_occurrence_exists _ _ _ Hi) as (k & Hk & Hik).
    exists k. split; [assumption|].
    intros j [Hj _]. pose proof (Hnone j Hj) as Hji.
    destruct (Nat.eq_dec j k) as [->|Hne]; [|lia].
    exfalso. apply (markers_apart before k); [apply Hk | assumption].
Qed.

Lemma inJinja_iff_last_open_after_last_close_witness :
  exists ctx,
    analyzeContext template_example {| line := 0; character := 52 |} = Ok ctx /\
    (inJinja ctx = true <->
     exists i, last_occurrence (lineBeforeCursor ctx) "{{" i /\
               forall j, last_occurrence (lineBeforeCursor ctx) "}}" j -> j < i).
Proof.
  pose proof (fun ctx H =>
    proj1 (proj2 (inJinja_iff_last_open_after_last_close
                    template_example {| line := 0; character := 52 |} ctx H)))
    as T.
  eexists. split; [vm_compute; reflexivity|].
  apply T. vm_compute. reflexivity.
Defined.

(** C3, as amended. For every document and every cursor on one of its
    lines such that the key lines above the cursor that are shallower than
    the text before the cursor get strictly shallower going upward,
    [analyzeContext] returns and its chain of enclosing keys is the
    sequence of key lines met walking upward whose indent is strictly
    less than that of every line accepted before, outermost first. For
    the document [automation:] / [  trigger:] / [    platform: time] with
    the cursor after [time] the chain is [automation, trigger]. *)
Theorem parentKeys_enclosing_chain_when_nested :
  (forall (document : TextDocument) (position : Position),
     let lines := Js.split LF (getText document) in
     let before := Js.substring (or_else (lines !! line position) EmptyString) 0
                                (character position) in
     line position < length lines ->
     properly_nested lines (indent before) (line position) ->
     exists ctx,
       analyzeContext document position = Ok ctx /\
       parentKeys ctx =
         enclosing_chain lines (indent before) (line position) []) /\
  (exists ctx,
     analyzeContext automation_example after_time = Ok ctx /\
     parentKeys ctx = ["automation"; "trigger"]).
Proof.
  split.
  - intros document position lines before Hline Hnest.
    destruct (analyzeContext_total document position Hline) as [ctx Hctx].
    exists ctx. split; [assumption|].
    destruct (analyzeContext_inv _ _ _ Hctx) as (Hbefore & _ & Hloop & _).
    fold lines in Hbefore, Hloop. fold before in Hbefore.
    rewrite Hbefore in Hloop.
    destruct (parentKeys_loop_nested lines (indent before) (line position)
                (indent before) [] None) as [pk' Heq];
      [lia | lia | auto | assumption |].
    rewrite Heq in Hloop. now injection Hloop as <- _.
  - eexists. split; [vm_compute; reflexivity | reflexivity].
Qed.

(** The hypotheses of C3 hold on the example of the specification. *)
Lemma parentKeys_enclosing_chain_when_nested_witness :
  exists ctx,
    analyzeContext automation_example after_time = Ok ctx /\
    parentKeys ctx =
      enclosing_chain (Js.split LF (getText automation_example)) 4 2 [].
Proof.
  apply (proj1 parentKeys_enclosing_chain_when_nested
               automation_example after_time).
  - vm_compute. lia.
  - intros i j li lj ki kj Hij Hj.
    assert (i = 0) as -> by (simpl in Hj; lia).
    assert (j = 1) as -> by (simpl in Hj; lia).
    intros [= <-] [= <-] _ _ _ _. vm_compute. lia.
Defined.

(** C3 as stated fails on its own example: the chain computed there is
    [automation, trigger], not [trigger]. *)
Lemma parentKeys_example_is_not_trigger_alone :
  exists ctx,
    analyzeContext automation_example after_time = Ok ctx /\
    parentKeys ctx = ["automation"; "trigger"] /\
    parentKeys ctx <> ["trigger"].
Proof.
  eexists. split; [vm_compute; reflexivity|]. split; [reflexivity | discriminate].
Qed.

(** Where two key lines above the cursor have the same indent the chain
    of the source keeps both, the walk of the specification only the
    nearer: the threshold of the loop is never lowered. *)
Lemma parentKeys_keeps_siblings :
  exists ctx,
    analyzeContext siblings_example {| line := 3; character := 13 |} = Ok ctx /\
    parentKeys ctx = ["automation"; "trigger"; "condition"] /\
    enclosing_chain (Js.split LF (getText siblings_example)) 4 3 []
      = ["automation"; "condition"].
Proof.
  eexists. split; [vm_compute; reflexivity|]. split; reflexivity.
Qed.

(** C6, as amended. For every document and every cursor on one of its
    lines, [analyzeContext] returns, and when the chain of enclosing keys
    contains [trigger] or [triggers] the trigger type is found by
    scanning upward from the cursor line, that line included: it is the
    word of the nearest line at or above the cursor that matches
    [platform: <word>], and it is absent when no such line matches. *)
Theorem triggerType_nearest_platform_upward
    (document : TextDocument) (position : Position) :
  let lines := Js.split LF (getText document) in
  line position < length lines ->
  exists ctx,
    analyzeContext document position = Ok ctx /\
    (In "trigger" (parentKeys ctx) \/ In "triggers" (parentKeys ctx) ->
     (exists i l word,
         i <= line position /\ lines !! i = Some l /\
         platformMatch l = Some word /\
         (forall j l', i < j -> j <= line position -> lines !! j = Some l' ->
                       platformMatch l' = None) /\
         triggerType ctx = Some word) \/
     ((forall j l', j <= line position -> lines !! j = Some l' ->
                    platformMatch l' = None) /\
      triggerType ctx = None)).
Proof.
  intros lines Hline.
  destruct (analyzeContext_total document position Hline) as [ctx Hctx].
  exists ctx. split; [assumption|].
  intros Hchain.
  destruct (analyzeContext_inv _ _ _ Hctx) as (_ & _ & _ & Htrig).
  fold lines in Htrig.
  replace (array_includes (parentKeys ctx) "trigger"
           || array_includes (parentKeys ctx) "triggers") with true in Htrig.
  2:{ symmetry. apply orb_true_iff.
      destruct Hchain as [H|H]; [left | right]; now apply array_includes_In. }
  destruct (scan_up_spec platformMatch lines (S (line position)))
    as [(i & l & word & Hi & Hl & Hm & Hbetween & Hres) | [Hnone Hres]];
    [exact Hline | |].
  - left. exists i, l, word. repeat split; auto; [lia | |congruence].
    intros j l' Hij Hj. apply Hbetween; lia.
  - right. split; [|congruence].
    intros j l' Hj. apply Hnone. lia.
Qed.

Lemma triggerType_nearest_platform_upward_witness :
  exists ctx,
    analyzeContext two_triggers_example on_entity_line = Ok ctx /\
    triggerType ctx = Some "state".
Proof.
  destruct (triggerType_nearest_platform_upward two_triggers_example
              on_entity_line) as (ctx & Hctx & Hscan).
  - vm_compute. lia.
  - exists ctx. split; [exact Hctx|].
    assert (Hval : analyzeContext two_triggers_example on_entity_line
                   = Ok ctx) by exact Hctx.
    vm_compute in Hval. injection Hval as <-. reflexivity.
Defined.

(** C6 as stated fails: with the cursor between two triggers, the type
    recorded is that of the trigger above ([state]), whereas the nearest
    match scanning forward is that of the trigger below ([time]). *)
Lemma triggerType_is_not_found_forward :
  exists ctx,
    analyzeContext two_triggers_example on_entity_line = Ok ctx /\
    In "trigger" (parentKeys ctx) /\
    triggerType ctx = Some "state" /\
    platform_forward two_triggers_example on_entity_line = Some "time" /\
    triggerType ctx <> platform_forward two_triggers_example on_entity_line.
Proof.
  eexists. split; [vm_compute; reflexivity|].
  split; [left; reflexivity|]. split; [reflexivity|].
  split; [vm_compute; reflexivity|]. vm_compute. discriminate.
Qed.

(** ** Further properties of the analyzer *)

Lemma indent_empty : indent EmptyString = 0.
Proof. reflexivity. Qed.

Lemma parentKeys_loop_no_indent (lines : list string) (n : nat)
    (acc : list string) (pk : option string) :
  n <= length lines ->
  parentKeys_loop lines 0 n acc pk = Ok (acc, pk).
Proof.
  induction n as [|i IH]; intros Hn; simpl; [reflexivity|].
  destruct (lookup_lt_is_Some_2 lines i) as [l ->]; [lia|].
  destruct (keyMatch l); apply IH; lia.
Qed.

Lemma parentKeys_loop_beyond (lines : list string) (currentIndent n : nat)
    (acc : list string) (pk : option string) :
  length lines < n ->
  parentKeys_loop lines currentIndent n acc pk = Throw undefined_line.
Proof.
  intros Hn. destruct n as [|i]; [lia|]. simpl.
  rewrite lookup_ge_None_2 by lia. reflexivity.
Qed.

Lemma substring_of_empty (a b : nat) : Js.substring EmptyString a b = EmptyString.
Proof.
  unfold Js.substring.
  destruct (Nat.min a b), (Nat.max a b - _); reflexivity.
Qed.

(** Beyond the line that follows the last one, the loop over the lines
    above the cursor reads a line that does not exist. *)
Lemma analyzeContext_beyond (document : TextDocument) (position : Position) :
  length (Js.split LF (getText document)) < line position ->
  analyzeContext document position = Throw undefined_line.
Proof.
  intros Hlt. unfold analyzeContext. cbv zeta.
  now rewrite parentKeys_loop_beyond.
Qed.

Lemma analyzeContext_within (document : TextDocument) (position : Position) :
  line position <= length (Js.split LF (getText document)) ->
  exists ctx, analyzeContext document position = Ok ctx.
Proof.
  set (lines := Js.split LF (getText document)).
  intros Hle. destruct (Nat.eq_dec (line position) (length lines)) as [Heq|Hne].
  - unfold analyzeContext. cbv zeta. fold lines.
    rewrite (lookup_ge_None_2 lines (line position)) by lia.
    cbn [or_else]. rewrite substring_of_empty, indent_empty.
    rewrite parentKeys_loop_no_indent by lia.
    cbn [bind fst snd array_includes existsb orb]. eauto.
  - apply analyzeContext_total. fold lines. lia.
Qed.

(** X6. [analyzeContext] throws exactly when the line of the cursor is
    greater than the number of lines of the document, and what it throws
    then is the [TypeError] of reading a line that does not exist; for
    every other cursor it returns a context. *)
Theorem analyzeContext_throws_iff_beyond_last_line
    (document : TextDocument) (position : Position) :
  let lines := Js.split LF (getText document) in
  ((exists e, analyzeContext document position = Throw e) <->
   length lines < line position) /\
  (length lines < line position ->
   analyzeContext document position = Throw undefined_line) /\
  (line position <= length lines ->
   exists ctx, analyzeContext document position = Ok ctx).
Proof.
  intros lines.
  pose proof (analyzeContext_beyond document position) as Hthrow.
  pose proof (analyzeContext_within document position) as Hok.
  fold lines in Hthrow, Hok.
  split; [|split; assumption].
  split.
  - intros [e He]. destruct (Nat.lt_ge_cases (length lines) (line position))
      as [Hlt|Hge]; [assumption|].
    destruct (Hok Hge) as [ctx Hctx]. congruence.
  - intros Hlt. eauto.
Qed.

Lemma analyzeContext_throws_iff_beyond_last_line_witness :
  analyzeContext automation_example {| line := 4; character := 0 |}
    = Throw undefined_line.
Proof.
  apply (proj1 (proj2 (analyzeContext_throws_iff_beyond_last_line
                         automation_example {| line := 4; character := 0 |}))).
  vm_compute. lia.
Defined.

Lemma parentKeys_loop_filter (lines : list string) (currentIndent : nat) :
  forall (n : nat) (acc : list string) (pk : option string),
    n <= length lines ->
    exists pk',
      parentKeys_loop lines currentIndent n acc pk =
        Ok ((shallower_keys currentIndent (List.firstn n lines) ++ acc)%list, pk') /\
      (pk' = None <->
       pk = None /\ shallower_keys currentIndent (List.firstn n lines) = []).
Proof.
  induction n as [|i IH]; intros acc pk Hn.
  - simpl. exists pk. split; [reflexivity | tauto].
  - destruct (lookup_lt_is_Some_2 lines i) as [l Hl]; [lia|].
    cbn [parentKeys_loop]. rewrite Hl.
    assert (Htake : List.firstn (S i) lines = (List.firstn i lines ++ [l])%list)
      by (apply (take_S_r lines i l Hl)).
    rewrite Htake. unfold shallower_keys. rewrite flat_map_app.
    cbn [flat_map]. rewrite app_nil_r. fold (shallower_keys currentIndent).
    unfold key_below.
    destruct (keyMatch l) as [k|].
    + destruct (Nat.ltb (indent l) currentIndent).
      * destruct (IH (k :: acc) (if truthy pk then pk else Some k))
          as (pk' & Heq & Hnone); [lia|].
        exists pk'. rewrite Heq, <- app_assoc. split; [reflexivity|].
        rewrite Hnone. split.
        -- intros [Hpk _]. destruct pk as [[|? ?]|]; discriminate.
        -- intros [_ Happ]. apply app_eq_nil in Happ as [_ [=]].
      * destruct (IH acc pk) as (pk' & Heq & Hnone); [lia|].
        exists pk'. rewrite Heq, !app_nil_r. auto.
    + destruct (IH acc pk) as (pk' & Heq & Hnone); [lia|].
      exists pk'. rewrite Heq, !app_nil_r. auto.
Qed.

(** X7. For every cursor for which [analyzeContext] returns, the chain of
    enclosing keys is made of the keys of all the lines above the cursor
    that hold a key and are indented less than the text before the
    cursor, in the order of the document, two lines of the same indent
    both being kept; and the parent key is absent exactly when the chain
    is empty. *)
Theorem parentKeys_are_the_shallower_keys
    (document : TextDocument) (position : Position) (ctx : Context) :
  analyzeContext document position = Ok ctx ->
  let lines := Js.split LF (getText document) in
  parentKeys ctx =
    shallower_keys (indent (lineBeforeCursor ctx))
                   (List.firstn (line position) lines) /\
  (parentKey ctx = None <-> parentKeys ctx = []).
Proof.
  intros Hctx lines.
  assert (Hle : line position <= length lines).
  { destruct (Nat.lt_ge_cases (length lines) (line position)) as [Hlt|Hge];
      [|assumption].
    apply analyzeContext_beyond in Hlt. congruence. }
  destruct (analyzeContext_inv _ _ _ Hctx) as (_ & _ & Hloop & _).
  fold lines in Hloop.
  destruct (parentKeys_loop_filter lines (indent (lineBeforeCursor ctx))
              (line position) [] None Hle) as (pk' & Heq & Hnone).
  rewrite Heq, app_nil_r in Hloop. injection Hloop as Hkeys Hpk.
  rewrite <- Hkeys, <- Hpk. split; [reflexivity|].
  rewrite Hnone. tauto.
Qed.

Lemma parentKeys_are_the_shallower_keys_witness :
  exists ctx,
    analyzeContext siblings_example {| line := 3; character := 13 |} = Ok ctx /\
    parentKeys ctx = ["automation"; "trigger"; "condition"].
Proof.
  eexists. split; [vm_compute; reflexivity|].
  match goal with
  | |- parentKeys ?c = _ =>
      assert (Hctx : analyzeContext siblings_example
                       {| line := 3; character := 13 |} = Ok c)
        by (vm_compute; reflexivity)
  end.
  rewrite (proj1 (parentKeys_are_the_shallower_keys _ _ _ Hctx)).
  vm_compute. reflexivity.
Defined.

Lemma analyzeContext_inv_hints (document : TextDocument) (position : Position)
    (ctx : Context) :
  analyzeContext document position = Ok ctx ->
  let lines := Js.split LF (getText document) in
  (if array_includes (parentKeys ctx) "trigger"
      || array_includes (parentKeys ctx) "triggers"
   then scan_up platformMatch lines (S (line position))
   else Ok None) = Ok (triggerType ctx) /\
  (if array_includes (parentKeys ctx) "action"
      || array_includes (parentKeys ctx) "actions"
   then scan_up serviceDomainMatch lines (S (line position))
   else Ok None) = Ok (domain ctx) /\
  inKey ctx = negb (inValue ctx) /\
  (key ctx = None <-> inValue ctx = false) /\
  actionType ctx = None.
Proof.
  unfold analyzeContext. cbv zeta.
  destruct (parentKeys_loop _ _ _ _ _) as [[pks pk]|e] eqn:Hloop;
    cbn [bind fst snd]; [|discriminate].
  destruct (if array_includes pks "trigger" || array_includes pks "triggers"
            then _ else _) as [tt|e] eqn:Htrig; cbn [bind]; [|discriminate].
  destruct (if array_includes pks "action" || array_includes pks "actions"
            then _ else _) as [dm|e] eqn:Hdom; cbn [bind]; [|discriminate].
  intros [= <-].
  cbn [parentKeys triggerType domain inKey inValue key actionType].
  split; [assumption|]. split; [assumption|].
  destruct (_ =? _)%Z; cbn [negb]; intuition discriminate.
Qed.

(** X8. The two hints follow the chain. Without [trigger] and [triggers]
    in the chain no trigger type is recorded, and without [action] and
    [actions] no service domain. With [action] or [actions] in the chain
    the service domain is read off the nearest line, at or above the
    cursor, that matches [service: <name>]: it is the part of the name
    before its first dot, and it is absent when no such line matches. *)
Theorem hints_follow_the_chain
    (document : TextDocument) (position : Position) (ctx : Context) :
  analyzeContext document position = Ok ctx ->
  let lines := Js.split LF (getText document) in
  (~ In "trigger" (parentKeys ctx) -> ~ In "triggers" (parentKeys ctx) ->
   triggerType ctx = None) /\
  (~ In "action" (parentKeys ctx) -> ~ In "actions" (parentKeys ctx) ->
   domain ctx = None) /\
  (In "action" (parentKeys ctx) \/ In "actions" (parentKeys ctx) ->
   (exists i l d,
       i <= line position /\ lines !! i = Some l /\
       serviceDomainMatch l = Some d /\
       (forall j l', i < j -> j <= line position -> lines !! j = Some l' ->
                     serviceDomainMatch l' = None) /\
       domain ctx = Some d) \/
   ((forall j l', j <= line position -> lines !! j = Some l' ->
                  serviceDomainMatch l' = None) /\
    domain ctx = None)).
Proof.
  intros Hctx lines.
  destruct (analyzeContext_inv_hints _ _ _ Hctx) as (Htrig & Hdom & _).
  fold lines in Htrig, Hdom.
  assert (Hno : forall a b, ~ In a (parentKeys ctx) -> ~ In b (parentKeys ctx) ->
                array_includes (parentKeys ctx) a
                || array_includes (parentKeys ctx) b = false).
  { intros a b Ha Hb. apply orb_false_iff.
    split; apply not_true_is_false; intros H; apply array_includes_In in H;
      tauto. }
  split; [|split].
  - intros Ha Hb. rewrite (Hno _ _ Ha Hb) in Htrig. congruence.
  - intros Ha Hb. rewrite (Hno _ _ Ha Hb) in Hdom. congruence.
  - intros Hchain.
    replace (array_includes (parentKeys ctx) "action"
             || array_includes (parentKeys ctx) "actions") with true in Hdom.
    2:{ symmetry. apply orb_true_iff.
        destruct Hchain as [H|H]; [left | right]; now apply array_includes_In. }
    assert (Hle : S (line position) <= length lines).
    { destruct (Nat.lt_ge_cases (line position) (length lines)) as [Hlt|Hge];
        [lia|].
      exfalso. destruct (line position) as [|i] eqn:Hline.
      - assert (length lines = 0) as Hz by lia.
        destruct lines; [|discriminate].
        simpl in Hdom. discriminate.
      - cbn [scan_up] in Hdom.
        rewrite (lookup_ge_None_2 lines (S i)) in Hdom by lia. discriminate. }
    destruct (scan_up_spec serviceDomainMatch lines (S (line position)) Hle)
      as [(i & l & d & Hi & Hl & Hm & Hbetween & Hres) | [Hnone Hres]].
    + left. exists i, l, d. repeat split; auto; [lia | |congruence].
      intros j l' Hij Hj. apply Hbetween; lia.
    + right. split; [|congruence].
      intros j l' Hj. apply Hnone. lia.
Qed.

Lemma hints_follow_the_chain_witness :
  exists ctx,
    analyzeContext action_example {| line := 3; character := 21 |} = Ok ctx /\
    triggerType ctx = None /\ domain ctx = Some "light".
Proof.
  eexists. split; [vm_compute; reflexivity|].
  match goal with
  | |- triggerType ?c = _ /\ _ =>
      assert (Hctx : analyzeContext action_example
                       {| line := 3; character := 21 |} = Ok c)
        by (vm_compute; reflexivity)
  end.
  split.
  - apply (proj1 (hints_follow_the_chain _ _ _ Hctx)).
    + vm_compute. intuition discriminate.
    + vm_compute. intuition discriminate.
  - reflexivity.
Defined.

(** ** Substrings *)

Lemma js_substring_le (s : string) (a b : nat) :
  a <= b -> Js.substring s a b = String.substring a (b - a) s.
Proof.
  intros Hle. unfold Js.substring.
  now rewrite Nat.min_l, Nat.max_r by assumption.
Qed.

Lemma substring_zero (s : string) (n : nat) :
  String.substring n 0 s = EmptyString.
Proof.
  revert n. induction s as [|c s IH]; intros [|n]; simpl; auto.
Qed.

Lemma substring_split (s : string) (n m1 m2 : nat) :
  n + m1 + m2 <= String.length s ->
  String.substring n (m1 + m2) s =
    String.substring n m1 s ++ String.substring (n + m1) m2 s.
Proof.
  revert n m1. induction s as [|c s IH]; intros n m1 Hlen.
  - simpl in Hlen. assert (n = 0) as -> by lia. assert (m1 = 0) as -> by lia.
    assert (m2 = 0) as -> by lia. reflexivity.
  - destruct n as [|n].
    + destruct m1 as [|m1].
      * rewrite substring_zero. reflexivity.
      * simpl in Hlen. cbn [Nat.add String.substring].
        rewrite append_String. f_equal.
        rewrite (IH 0 m1) by (simpl; lia). reflexivity.
    + simpl in Hlen. cbn [Nat.add String.substring].
      apply IH. lia.
Qed.

Lemma append_length (a b : string) :
  String.length (a ++ b) = String.length a + String.length b.
Proof.
  induction a as [|c a IH]; [reflexivity|].
  rewrite append_String. simpl. now rewrite IH.
Qed.

(** A part of a part of [s] stands in it where it was taken. *)
Lemma substring_occurs (s : string) (i a b j : nat) :
  i <= a -> a <= b -> b <= j -> j <= String.length s ->
  occurs_at (Js.substring s i j) (Js.substring s a b) (a - i).
Proof.
  intros Hia Hab Hbj Hj.
  rewrite !js_substring_le by lia.
  exists (String.substring i (a - i) s), (String.substring b (j - b) s).
  split.
  - replace (j - i) with ((a - i) + ((b - a) + (j - b))) by lia.
    rewrite substring_split by lia.
    replace (i + (a - i)) with a by lia.
    rewrite substring_split by lia.
    replace (a + (b - a)) with b by lia. reflexivity.
  - apply RegexFacts.substring_length. lia.
Qed.

(** What stands at offset [k] in the part of [s] from [i] to [j] stands
    at offset [i + k] in [s]. *)
Lemma occurs_in_substring (s g : string) (i j k : nat) :
  i <= j -> j <= String.length s ->
  occurs_at (Js.substring s i j) g k ->
  k + String.length g <= j - i /\
  Js.substring s (i + k) (i + k + String.length g) = g.
Proof.
  intros Hij Hj (before & after & Heq & Hk).
  rewrite js_substring_le in Heq by assumption.
  assert (Hlen : j - i = k + (String.length g + String.length after)).
  { apply (f_equal String.length) in Heq.
    rewrite RegexFacts.substring_length, !append_length in Heq by lia. lia. }
  split; [lia|].
  rewrite Hlen in Heq.
  rewrite substring_split, substring_split in Heq by lia.
  apply append_inj_length in Heq as [_ Heq].
  2:{ rewrite RegexFacts.substring_length by lia. congruence. }
  apply append_inj_length in Heq as [Heq _].
  2:{ rewrite RegexFacts.substring_length by lia. reflexivity. }
  rewrite js_substring_le by lia.
  replace (i + k + String.length g - (i + k)) with (String.length g) by lia.
  exact Heq.
Qed.

Lemma substring_full (s : string) :
  Js.substring s 0 (String.length s) = s.
Proof.
  rewrite js_substring_le, Nat.sub_0_r by lia.
  induction s as [|c s IH]; simpl; [reflexivity | now f_equal].
Qed.

(** [indexOf] gives the first occurrence, when there is one. *)
Lemma indexOf_at_found (s needle : string) (i j : nat) :
  occurs_at s needle j ->
  exists k, k <= j /\ occurs_at s needle k /\
            indexOf_at s needle i = Z.of_nat (i + k).
Proof.
  revert i j. induction s as [|c s IH]; intros i j Hj.
  - pose proof (occurs_at_empty _ _ Hj) as ->.
    apply occurs_at_0 in Hj. cbn [indexOf_at]. rewrite Hj.
    exists 0. rewrite Nat.add_0_r. split; [lia|].
    split; [now apply occurs_at_0 | reflexivity].
  - cbn [indexOf_at]. destruct (String.prefix needle (String c s)) eqn:Hp.
    + exists 0. rewrite Nat.add_0_r. split; [lia|].
      split; [now apply occurs_at_0 | reflexivity].
    + destruct j as [|j]; [apply occurs_at_0 in Hj; congruence|].
      apply occurs_at_S in Hj.
      destruct (IH (S i) j Hj) as (k & Hk & Hocc & Heq).
      exists (S k). split; [lia|]. split; [now apply occurs_at_S|].
      rewrite Heq. f_equal. lia.
Qed.

(** ** Where the references are *)

(** The offset computed for the first group of a match is one at which
    the text of the group stands in the input, within the match. *)
Lemma capture_located (r : regex) (input : string) (lastIndex : nat)
    (m : Match) :
  exec r input lastIndex = Some m ->
  exists off,
    capture_offset m = Z.of_nat off /\
    index m <= off /\
    off + String.length (captured m) <= lastIndex_after m /\
    lastIndex_after m <= String.length input /\
    located input (off, captured m).
Proof.
  intros Hexec.
  destruct (RegexFacts.exec_bounds _ _ _ _ Hexec) as (_ & Hil & Hlen & _).
  destruct (RegexFacts.exec_groups _ _ _ _ Hexec) as (Hwhole & Hgroups).
  assert (Hocc : exists j, occurs_at (whole m) (captured m) j).
  { unfold captured. destruct (group m 1) as [g|] eqn:Hg; simpl.
    - destruct (Hgroups 1 g Hg) as (a & b & Ha & Hab & Hb & ->).
      rewrite Hwhole. exists (a - index m). apply substring_occurs; lia.
    - exists 0. apply occurs_at_0. now destruct (whole m). }
  destruct Hocc as [j Hj].
  destruct (indexOf_at_found _ _ 0 _ Hj) as (k & _ & Hk & Hidx).
  rewrite Hwhole in Hk.
  destruct (occurs_in_substring _ _ _ _ _ Hil Hlen Hk) as [Hfit Hsub].
  exists (index m + k). unfold capture_offset, indexOf. rewrite Hidx.
  split; [simpl; lia|].
  split; [lia|]. split; [lia|]. split; [assumption|].
  exact Hsub.
Qed.

Lemma exec_all_located (r : regex) (input : string) :
  let entries :=
    List.map (fun m => (Z.to_nat (capture_offset m), captured m))
             (exec_all r input) in
  Forall (fun m => capture_offset m = Z.of_nat (Z.to_nat (capture_offset m)))
         (exec_all r input) /\
  Forall (located input) entries /\
  Forall (fun e => fst e + String.length (snd e) <= String.length input)
         entries /\
  StronglySorted precedes entries.
Proof.
  intros entries. subst entries. unfold exec_all.
  generalize (S (String.length input)) as fuel. generalize 0 as lastIndex.
  intros lastIndex fuel.
  pose proof (RegexFacts.exec_loop_ordered r input fuel lastIndex) as Hsorted.
  pose proof (RegexFacts.exec_loop_matches r input fuel lastIndex) as Hmatches.
  induction (exec_loop r input fuel lastIndex) as [|m ms IH].
  - simpl. repeat split; constructor.
  - apply StronglySorted_inv in Hsorted as [Hsorted Hhd].
    destruct IH as (IH1 & IH2 & IH3 & IH4);
      [assumption | intros m' Hm'; apply Hmatches; now right |].
    destruct (Hmatches m (or_introl eq_refl)) as (i & _ & Hexec).
    destruct (capture_located _ _ _ _ Hexec)
      as (off & Hoff & Hlo & Hhi & Hlen & Hloc).
    assert (Hnat : Z.to_nat (capture_offset m) = off)
      by (rewrite Hoff; apply Nat2Z.id).
    simpl. rewrite Hnat. repeat split.
    + constructor; [now rewrite Hnat | assumption].
    + constructor; assumption.
    + constructor; [simpl; lia | assumption].
    + constructor; [assumption|].
      apply List.Forall_forall. intros e He.
      apply in_map_iff in He as (m' & <- & Hm').
      rewrite List.Forall_forall in Hhd. specialize (Hhd m' Hm').
      destruct (Hmatches m' (or_intror Hm')) as (i' & _ & Hexec').
      destruct (capture_located _ _ _ _ Hexec')
        as (off' & Hoff' & Hlo' & _).
      unfold precedes. simpl. rewrite Hoff', Nat2Z.id. lia.
Qed.

Lemma scan_located {A : Type} (r : regex) (input : string)
    (mk : Z -> string -> A) :
  exists entries,
    List.map (fun m => mk (capture_offset m) (captured m)) (exec_all r input)
      = List.map (fun e => mk (Z.of_nat (fst e)) (snd e)) entries /\
    Forall (located input) entries /\
    Forall (fun e => fst e + String.length (snd e) <= String.length input)
           entries /\
    StronglySorted precedes entries.
Proof.
  destruct (exec_all_located r input) as (Hnat & Hloc & Hfit & Hsorted).
  eexists. split; [|split; [exact Hloc | split; [exact Hfit | exact Hsorted]]].
  rewrite map_map. apply map_ext_in. intros m Hm.
  rewrite List.Forall_forall in Hnat. cbn [fst snd].
  now rewrite <- (Hnat m Hm).
Qed.

(** X19. The service references and the include references of a
    document are each found at their place and in order: the range of a
    reference is computed from an offset at which the text of the
    reference stands in the document, within the document, and each
    reference ends before the next one begins. *)
Theorem references_located_in_order (document : TextDocument) :
  (exists entries,
     findServiceReferences document =
       List.map (fun e => {| service_name := snd e;
                             service_range :=
                               range_at document (Z.of_nat (fst e))
                                        (String.length (snd e)) |})
                entries /\
     Forall (located (getText document)) entries /\
     Forall (fun e => fst e + String.length (snd e)
                      <= String.length (getText document)) entries /\
     StronglySorted precedes entries) /\
  (exists entries,
     findIncludeReferences document =
       List.map (fun e => {| path := snd e;
                             include_range :=
                               range_at document (Z.of_nat (fst e))
                                        (String.length (snd e)) |})
                entries /\
     Forall (located (getText document)) entries /\
     Forall (fun e => fst e + String.length (snd e)
                      <= String.length (getText document)) entries /\
     StronglySorted precedes entries).
Proof.
  split.
  - apply (scan_located servicePattern (getText document)
             (fun off name_ => {| service_name := name_;
                                  service_range :=
                                    range_at document off (String.length name_) |})).
  - apply (scan_located includePattern (getText document)
             (fun off name_ => {| path := name_;
                                  include_range :=
                                    range_at document off (String.length name_) |})).
Qed.

Lemma exec_all_capture (r : regex) (input : string) (m : Match) :
  In m (exec_all r input) ->
  exists off,
    capture_offset m = Z.of_nat off /\
    off + String.length (captured m) <= String.length input /\
    located input (off, captured m) /\
    index m <= lastIndex_after m /\
    lastIndex_after m <= String.length input /\
    whole m = Js.substring input (index m) (lastIndex_after m).
Proof.
  intros Hm. apply RegexFacts.exec_loop_matches in Hm as (i & _ & Hexec).
  destruct (capture_located _ _ _ _ Hexec) as (off & Hoff & _ & Hhi & Hlen & Hloc).
  destruct (RegexFacts.exec_bounds _ _ _ _ Hexec) as (_ & Hil & _ & _).
  destruct (RegexFacts.exec_groups _ _ _ _ Hexec) as (Hwhole & _).
  exists off. repeat split; auto. lia.
Qed.

(** X20. Every entity reference, whichever of the four scans finds it
    (a value of [entity_id], an item of a list under [entity_id], a call
    of [states] or of [is_state]), has a range computed from an offset at
    which its identifier stands in the document. *)
Theorem entity_references_located
    (document : TextDocument) (ref : EntityReference) :
  In ref (findEntityReferences document) ->
  exists off,
    entity_range ref =
      range_at document (Z.of_nat off) (String.length (entityId ref)) /\
    off + String.length (entityId ref) <= String.length (getText document) /\
    located (getText document) (off, entityId ref).
Proof.
  assert (Hdirect : forall r jinja,
            In ref (List.map (entity_reference document jinja 0)
                             (exec_all r (getText document))) ->
            exists off,
              entity_range ref =
                range_at document (Z.of_nat off) (String.length (entityId ref)) /\
              off + String.length (entityId ref)
                <= String.length (getText document) /\
              located (getText document) (off, entityId ref)).
  { intros r jinja Hin. apply in_map_iff in Hin as (m & <- & Hm).
    destruct (exec_all_capture _ _ _ Hm) as (off & Hoff & Hfit & Hloc & _).
    exists off. unfold entity_reference. cbn [entity_range entityId].
    rewrite Hoff. split; [reflexivity | split; assumption]. }
  unfold findEntityReferences. cbv zeta. rewrite !in_app_iff.
  intros [H|[H|[H|H]]]; try (eapply Hdirect; exact H).
  apply in_flat_map in H as (m & Hm & Hin).
  apply in_map_iff in Hin as (im & <- & Him).
  destruct (exec_all_capture _ _ _ Hm) as (_ & _ & _ & _ & Hil & Hlen & Hwhole).
  destruct (exec_all_capture _ _ _ Him) as (off & Hoff & Hfit & Hloc & _).
  unfold located in Hloc. cbn [fst snd] in Hloc.
  assert (Hocc : occurs_at (whole m) (captured im) off).
  { rewrite <- Hloc at 1. rewrite <- (substring_full (whole m)) at 1.
    replace off with (off - 0) at 3 by lia.
    apply substring_occurs; lia. }
  rewrite Hwhole in Hocc.
  destruct (occurs_in_substring _ _ _ _ _ Hil Hlen Hocc) as [Hin Hsub].
  exists (index m + off). unfold entity_reference. cbn [entity_range entityId].
  rewrite Hoff. split; [f_equal; lia|]. split; [lia | exact Hsub].
Qed.

Lemma entity_references_located_witness :
  exists off,
    off + String.length "light.nonexistent"
      <= String.length (getText Providers.unknown_entity_example) /\
    located (getText Providers.unknown_entity_example) (off, "light.nonexistent").
Proof.
  destruct (entity_references_located Providers.unknown_entity_example
              {| entityId := "light.nonexistent";
                 entity_range := {| start := {| line := 0; character := 11 |};
                                    end_ := {| line := 0; character := 28 |} |};
                 reference_inJinja := false |})
    as (off & _ & Hfit & Hloc).
  - vm_compute. left. reflexivity.
  - exists off. split; assumption.
Defined.

End AnalyzerFacts.

(** * Facts on the lines of a document: indentation and keys *)

Module LineFacts.

Import Js Regex TextDocument Analyzer.
Local Open Scope nat_scope.

Lemma chars_step (p : ascii -> bool) (k : cont) (st : mstate) :
  run (Chars p) k st =
  match rest st with
  | String c s' =>
      if p c then k {| pos := S (pos st); rest := s'; caps := caps st |}
      else None
  | EmptyString => None
  end.
Proof. reflexivity. Qed.

Lemma run_Seq (r1 r2 : regex) (k : cont) (st : mstate) :
  run (Seq r1 r2) k st = run r1 (run r2 k) st.
Proof. reflexivity. Qed.

Lemma run_Group (n : nat) (r1 : regex) (k : cont) (st : mstate) :
  run (Group n r1) k st =
  run r1 (fun st' => k {| pos := pos st'; rest := rest st';
                          caps := (n, (pos st, pos st')) :: caps st' |}) st.
Proof. reflexivity. Qed.

Lemma run_Star (r1 : regex) (k : cont) (st : mstate) :
  run (Star r1) k st = star_loop (run r1) (S (String.length (rest st))) k st.
Proof. reflexivity. Qed.

(** The state reached from [st] by consuming the leading characters of
    its rest that satisfy [p]. *)
Lemma star_greedy_some (p : ascii -> bool) (k : cont) (r : mstate) :
  forall fuel st,
    String.length (rest st) < fuel ->
    k {| pos := pos st + leading p (rest st);
         rest := skip p (rest st);
         caps := caps st |} = Some r ->
    star_loop (run (Chars p)) fuel k st = Some r.
Proof.
  pose proof (chars_step p) as Hbody. revert Hbody.
  generalize (run (Chars p)). intros body Hbody.
  induction fuel as [|fuel IH]; intros [ps rs cs]; cbn [pos rest caps];
    intros Hlen Hk; [lia|].
  cbn [star_loop]. rewrite Hbody. cbn [rest pos caps].
  destruct rs as [|c s']; cbn [leading skip] in Hk.
  - now rewrite Nat.add_0_r in Hk.
  - destruct (p c).
    + replace (S ps =? ps) with false by (symmetry; apply Nat.eqb_neq; lia).
      rewrite (IH {| pos := S ps; rest := s'; caps := cs |}); auto.
      * simpl in *. lia.
      * cbn [pos rest caps]. now rewrite Nat.add_succ_r in Hk.
    + now rewrite Nat.add_0_r in Hk.
Qed.

(** A continuation that fails wherever a character satisfying [p] comes
    next decides the greedy repetition alone. *)
Lemma star_greedy (p : ascii -> bool) (k : cont) :
  (forall st, leading p (rest st) <> 0 -> k st = None) ->
  forall fuel st,
    String.length (rest st) < fuel ->
    star_loop (run (Chars p)) fuel k st =
    k {| pos := pos st + leading p (rest st);
         rest := skip p (rest st);
         caps := caps st |}.
Proof.
  intros Hrej.
  pose proof (chars_step p) as Hbody. revert Hbody.
  generalize (run (Chars p)). intros body Hbody.
  induction fuel as [|fuel IH]; intros [ps rs cs]; cbn [pos rest caps];
    intros Hlen; [lia|].
  cbn [star_loop]. rewrite Hbody. cbn [rest pos caps].
  destruct rs as [|c s'] eqn:Hrs; cbn [leading skip].
  - now rewrite Nat.add_0_r.
  - destruct (p c) eqn:Hp.
    + replace (S ps =? ps) with false by (symmetry; apply Nat.eqb_neq; lia).
      rewrite (IH {| pos := S ps; rest := s'; caps := cs |})
        by (simpl in *; lia).
      cbn [pos rest caps]. rewrite Nat.add_succ_r. cbn [Nat.add].
      destruct (k _) eqn:Hk; [reflexivity|].
      apply Hrej. cbn [rest leading]. now rewrite Hp.
    + now rewrite Nat.add_0_r.
Qed.

Lemma skip_length (p : ascii -> bool) (s : string) :
  leading p s + String.length (skip p s) = String.length s.
Proof.
  induction s as [|c s IH]; simpl; [reflexivity|].
  destruct (p c); simpl; lia.
Qed.

Lemma substring_all (s : string) :
  String.substring 0 (String.length s) s = s.
Proof. induction s as [|c s IH]; simpl; [reflexivity | now f_equal]. Qed.

Lemma substring_skip (p : ascii -> bool) (s : string) (m : nat) :
  String.substring (leading p s) m s = String.substring 0 m (skip p s).
Proof.
  induction s as [|c s IH]; simpl; [reflexivity|].
  destruct (p c); [exact IH | reflexivity].
Qed.

(** An expression that begins with [^] matches at the start of the input
    or nowhere. *)
Lemma search_anchored (r : regex) (input : string) :
  forall s i, 0 < i -> search (Seq AssertStart r) input i s = None.
Proof.
  induction s as [|c s IH]; intros i Hi; cbn [search run pos];
    replace (i =? 0) with false by (symmetry; apply Nat.eqb_neq; lia);
    [reflexivity | apply IH; lia].
Qed.

Lemma match_anchored (r : regex) (l : string) :
  match_ l (Seq AssertStart r) =
  match run r Some {| pos := 0; rest := l; caps := [] |} with
  | Some st => Some (mk_match l 0 st)
  | None => None
  end.
Proof.
  unfold match_, exec. cbn [Nat.ltb Nat.leb]. rewrite Nat.sub_0_r, substring_all.
  destruct l as [|c s]; cbn [search run pos Nat.eqb];
    destruct (run r Some _); try reflexivity.
  apply search_anchored. lia.
Qed.

(** X21. The indentation that the analysis compares is the number of
    white-space characters at the head of the line: blanks, tabs and the
    other white-space characters count one each. *)
Theorem indent_counts_leading_space (l : string) :
  indent l = leading is_space l.
Proof.
  unfold indent, re_indent, seq, cls_s. cbn [fold_right].
  rewrite match_anchored, run_Seq, run_Group, run_Star.
  erewrite star_greedy_some; [| cbn [rest]; lia | reflexivity].
  unfold group, mk_match. cbn.
  unfold Js.substring. rewrite Nat.min_l, Nat.max_r, Nat.sub_0_r by lia.
  apply RegexFacts.substring_length.
  pose proof (skip_length is_space l). lia.
Qed.

Lemma space_not_ident (c : ascii) :
  is_space c = true -> ident_char c = false.
Proof. destruct c as [[] [] [] [] [] [] [] []]; vm_compute; congruence. Qed.

Lemma space_not_colon (c : ascii) :
  is_space c = true -> Ascii.eqb ":" c = false.
Proof. destruct c as [[] [] [] [] [] [] [] []]; vm_compute; congruence. Qed.

Lemma ident_not_colon (c : ascii) :
  ident_char c = true -> Ascii.eqb ":" c = false.
Proof. destruct c as [[] [] [] [] [] [] [] []]; vm_compute; congruence. Qed.

Lemma leading_head (p : ascii -> bool) (s : string) :
  leading p s <> 0 -> exists c s', s = String c s' /\ p c = true.
Proof.
  destruct s as [|c s']; simpl; [congruence|].
  destruct (p c) eqn:Hp; [eauto | congruence].
Qed.

Lemma leading_none (p : ascii -> bool) (s : string) :
  leading p s = 0 -> skip p s = s.
Proof.
  destruct s as [|c s']; simpl; [reflexivity|].
  destruct (p c); [discriminate | reflexivity].
Qed.

(** What [ /^(\s* )([a-z_]+)\s*:/i ] captures as its second group, read
    off the line from left to right. *)
Lemma keyMatch_computed (l : string) :
  keyMatch l =
  let r1 := skip is_space l in
  if leading ident_char r1 =? 0 then None
  else match skip is_space (skip ident_char r1) with
       | String d _ =>
           if Ascii.eqb ":" d
           then Some (String.substring 0 (leading ident_char r1) r1)
           else None
       | EmptyString => None
       end.
Proof.
  assert (Hcolon : forall k st,
             leading is_space (rest st) <> 0 ->
             run (Seq (chr ":") Empty) k st = None).
  { intros k st H. apply leading_head in H as (c & s' & Hr & Hc).
    rewrite run_Seq. unfold chr. rewrite chars_step, Hr.
    now rewrite (space_not_colon _ Hc). }
  assert (Htail : forall k st,
             leading ident_char (rest st) <> 0 ->
             run (Seq (Star (Chars is_space)) (Seq (chr ":") Empty)) k st = None).
  { intros k st H. apply leading_head in H as (c & s' & Hr & Hc).
    rewrite run_Seq, run_Star, star_greedy by (auto; lia).
    assert (Hsp : is_space c = false).
    { destruct (is_space c) eqn:E; [|reflexivity].
      apply space_not_ident in E. congruence. }
    rewrite Hr. cbn [leading skip rest]. rewrite Hsp.
    rewrite run_Seq. unfold chr. rewrite chars_step. cbn [rest].
    now rewrite (ident_not_colon _ Hc). }
  unfold keyMatch, re_key, seq, cls_s, Plus. cbn [fold_right].
  rewrite match_anchored, run_Seq, run_Group, run_Star.
  rewrite star_greedy; cycle 1.
  { intros st H. apply leading_head in H as (c & s' & Hr & Hc).
    rewrite run_Seq, run_Group, run_Seq, chars_step. cbn [rest]. rewrite Hr.
    now rewrite (space_not_ident _ Hc). }
  { cbn [rest]. lia. }
  cbn [pos rest caps Nat.add].
  rewrite run_Seq, run_Group, run_Seq, chars_step. cbn [pos rest caps].
  cbv zeta.
  destruct (skip is_space l) as [|c s'] eqn:Hr1; cbn [leading]; [reflexivity|].
  destruct (ident_char c) eqn:Hc; [|reflexivity].
  cbn [Nat.eqb skip]. rewrite Hc.
  rewrite run_Star, star_greedy; cycle 1.
  { intros st H. now apply Htail. }
  { cbn [rest]. lia. }
  cbn [pos rest caps].
  rewrite run_Seq, run_Star, star_greedy; cycle 1.
  { intros st H. now apply Hcolon. }
  { cbn [rest]. lia. }
  cbn [pos rest caps].
  rewrite run_Seq. unfold chr. rewrite chars_step. cbn [rest].
  destruct (skip is_space (skip ident_char s')) as [|d t]; [reflexivity|].
  destruct (Ascii.eqb ":" d); [|reflexivity].
  unfold group, mk_match. cbn.
  f_equal. unfold Js.substring.
  rewrite Nat.min_l, Nat.max_r by lia.
  replace (S (leading is_space l + leading ident_char s') - leading is_space l)
    with (S (leading ident_char s')) by lia.
  now rewrite substring_skip, Hr1.
Qed.

Lemma cons_append (c : ascii) (s t : string) :
  String.append (String c s) t = String c (String.append s t).
Proof. reflexivity. Qed.

Lemma nil_append (t : string) : String.append EmptyString t = t.
Proof. reflexivity. Qed.

Lemma leading_split (p : ascii -> bool) (s : string) :
  s = String.append (String.substring 0 (leading p s) s) (skip p s) /\
  only p (String.substring 0 (leading p s) s).
Proof.
  unfold only. induction s as [|c s [IH1 IH2]]; cbn [leading skip].
  - split; reflexivity.
  - destruct (p c) eqn:Hp.
    + cbn [String.substring]. rewrite cons_append. cbn [leading String.length].
      rewrite Hp. split; [now f_equal | now f_equal].
    + split; reflexivity.
Qed.

Lemma leading_append (p : ascii -> bool) (a b : string) :
  only p a -> leading p b = 0 ->
  leading p (String.append a b) = String.length a /\
  skip p (String.append a b) = b /\
  String.substring 0 (String.length a) (String.append a b) = a.
Proof.
  unfold only. intros Ha Hb. induction a as [|c a IH].
  - rewrite nil_append. cbn [String.length]. rewrite Hb, (leading_none _ _ Hb).
    repeat split. now destruct b.
  - rewrite cons_append. cbn [leading skip String.length String.substring] in *.
    destruct (p c); [|discriminate].
    destruct IH as (IH1 & IH2 & IH3); [lia|].
    rewrite IH1, IH2, IH3. repeat split.
Qed.

(** X22. A line holds a key exactly when it reads: white space, then a
    non-empty run of letters and underscores (the key), white space, a
    colon. A line that begins with the dash of a list item, or whose
    name holds a digit or a hyphen, holds no key. *)
Theorem keyMatch_shape (l key : string) :
  keyMatch l = Some key <->
  exists sp sp' tail,
    l = String.append sp
          (String.append key (String.append sp' (String ":" tail))) /\
    only is_space sp /\
    only ident_char key /\ key <> EmptyString /\
    only is_space sp'.
Proof.
  rewrite keyMatch_computed. cbv zeta. split.
  - destruct (leading ident_char (skip is_space l) =? 0) eqn:Hm; [discriminate|].
    apply Nat.eqb_neq in Hm.
    destruct (skip is_space (skip ident_char (skip is_space l)))
      as [|d tail] eqn:Ht; [discriminate|].
    destruct (Ascii.eqb_spec ":" d) as [<-|]; [|discriminate].
    intros [= <-].
    destruct (leading_split is_space l) as [H1 O1].
    destruct (leading_split ident_char (skip is_space l)) as [H2 O2].
    destruct (leading_split is_space (skip ident_char (skip is_space l)))
      as [H3 O3].
    rewrite Ht in H3.
    eexists _, _, tail. split; [|split; [exact O1 | split; [exact O2 |
                                  split; [|exact O3]]]].
    + rewrite <- H3, <- H2. exact H1.
    + intros E. apply (f_equal String.length) in E.
      rewrite RegexFacts.substring_length in E; [simpl in E; lia|].
      pose proof (skip_length ident_char (skip is_space l)). lia.
  - intros (sp & sp' & tail & -> & O1 & O2 & Hne & O3).
    destruct key as [|c key']; [congruence|].
    assert (Hc : ident_char c = true).
    { unfold only in O2. cbn [leading String.length] in O2.
      destruct (ident_char c); [reflexivity | discriminate]. }
    assert (Hsp : is_space c = false).
    { destruct (is_space c) eqn:E; [|reflexivity].
      apply space_not_ident in E. congruence. }
    destruct (leading_append is_space sp
                (String.append (String c key')
                               (String.append sp' (String ":" tail))) O1)
      as (_ & -> & _).
    { rewrite cons_append. cbn [leading]. now rewrite Hsp. }
    destruct (leading_append ident_char (String c key')
                (String.append sp' (String ":" tail)) O2)
      as (-> & -> & ->).
    { destruct sp' as [|d sp'']; [rewrite nil_append | rewrite cons_append];
        cbn [leading]; [reflexivity|].
      unfold only in O3. cbn [leading String.length] in O3.
      destruct (is_space d) eqn:E; [|discriminate].
      now rewrite (space_not_ident _ E). }
    cbn [String.length Nat.eqb].
    destruct (leading_append is_space sp' (String ":" tail) O3) as (_ & -> & _);
      reflexivity.
Qed.

Lemma keyMatch_shape_witness :
  keyMatch "  entity_id : light.kitchen" = Some "entity_id".
Proof.
  apply keyMatch_shape. exists "  ", " ", " light.kitchen".
  split; [reflexivity|].
  split; [reflexivity|].
  split; [reflexivity|].
  split; [discriminate | reflexivity].
Defined.

End LineFacts.

(** * Theorems on the feature providers *)

Module ProvidersFacts.

Import Js Regex TextDocument Analyzer Providers.
Local Open Scope nat_scope.
Local Open Scope string_scope.

(** ** Diagnostics *)

Lemma with_code_app (c : string) (a b : list Diagnostic) :
  with_code c (a ++ b)%list = (with_code c a ++ with_code c b)%list.
Proof. apply List.filter_app. Qed.

Lemma with_code_map_same {A : Type} (c : string) (mk : A -> Diagnostic)
    (l : list A) :
  (forall x, code (mk x) = c) ->
  with_code c (List.map mk l) = List.map mk l.
Proof.
  intros Hc. unfold with_code. induction l as [|x l IH]; simpl.
  - reflexivity.
  - rewrite Hc, String.eqb_refl. now f_equal.
Qed.

Lemma with_code_map_other {A : Type} (c : string) (mk : A -> Diagnostic)
    (l : list A) :
  (forall x, String.eqb (code (mk x)) c = false) ->
  with_code c (List.map mk l) = [].
Proof.
  intros Hc. unfold with_code. induction l as [|x l IH]; simpl.
  - reflexivity.
  - now rewrite Hc.
Qed.

Lemma entityMap_of_lookup_from (states : list HassState)
    (map : gmap string HassState) (identifier : string) :
  is_Some (List.fold_left (fun m st => <[entity_id st := st]> m) states map
           !! identifier) <->
  is_Some (map !! identifier) \/ in_snapshot states identifier = true.
Proof.
  revert map. induction states as [|st states IH]; intros map; simpl.
  - split; [auto | intros [H|H]; [assumption | discriminate]].
  - rewrite IH. rewrite orb_true_iff, String.eqb_eq.
    destruct (decide (entity_id st = identifier)) as [Heq|Hne].
    + rewrite Heq, lookup_insert_eq. split; [intros _; auto |].
      intros _. left. eauto.
    + rewrite lookup_insert_ne by assumption. tauto.
Qed.

(** [entityMap.has(id)] holds exactly for the identifiers of the
    snapshot. *)
Lemma entityMap_of_has (states : list HassState) (identifier : string) :
  bool_decide (is_Some (entityMap_of states !! identifier))
  = in_snapshot states identifier.
Proof.
  apply eq_true_iff_eq. rewrite bool_decide_eq_true.
  unfold entityMap_of. rewrite entityMap_of_lookup_from.
  rewrite lookup_empty. split; [intros [[x [=]]|H]; assumption | auto].
Qed.

Lemma filter_ext_bool {A : Type} (f g : A -> bool) (l : list A) :
  (forall x, f x = g x) -> List.filter f l = List.filter g l.
Proof. intros H. apply List.filter_ext. exact H. Qed.

(** With the credential and a snapshot, the findings with code
    [unknown-entity] are those of the extracted references that the
    snapshot lacks, whatever becomes of the later checks. *)
Lemma validateDocument_unknown_entity_findings (rt : Runtime)
    (document : TextDocument) (states : list HassState) :
  truthy (SUPERVISOR_TOKEN rt) = true ->
  getStates rt = Ok states ->
  with_code "unknown-entity" (validateDocument rt document) =
    List.map unknown_entity
      (List.filter (fun ref => negb (in_snapshot states (entityId ref)))
                   (findEntityReferences document)).
Proof.
  intros Htoken Hstates. unfold validateDocument, getEntityMap.
  rewrite Htoken, Hstates. cbn [negb].
  rewrite (filter_ext_bool _ (fun ref => negb (in_snapshot states (entityId ref))))
    by (intros ref; now rewrite entityMap_of_has).
  set (found := List.map unknown_entity _).
  assert (Hfound : with_code "unknown-entity" found = found)
    by now apply with_code_map_same.
  destruct (getServiceList rt) as [services|e]; [|exact Hfound].
  destruct (fileURLToPath rt (uri document)) as [docPath|e].
  - destruct (parseYaml rt (getText document)) as [[]|yamlError];
      rewrite ?with_code_app, Hfound,
        (with_code_map_other _ unknown_service),
        (with_code_map_other _ include_not_found) by reflexivity;
      cbn; now rewrite ?app_nil_r.
  - rewrite with_code_app, Hfound, (with_code_map_other _ unknown_service)
      by reflexivity.
    now rewrite app_nil_r.
Qed.

(** C9. Given the credential and a live entity snapshot [states], the
    findings of [validateDocument] with code [unknown-entity] are, in
    order, one warning for each extracted entity reference that the
    snapshot lacks, placed at the range of that reference, and nothing
    else. The document [entity_id: light.kitchen] with [light.kitchen] in
    the snapshot yields none; with the value replaced by
    [light.nonexistent] it yields exactly one warning, over columns 11 to
    28 of line 0, the extent of the value. *)
Theorem validateDocument_flags_absent_entities :
  (forall (rt : Runtime) (document : TextDocument) (states : list HassState),
     truthy (SUPERVISOR_TOKEN rt) = true ->
     getStates rt = Ok states ->
     with_code "unknown-entity" (validateDocument rt document) =
       List.map
         (fun ref => {| severity := SeverityWarning;
                        range := entity_range ref;
                        message := "Unknown entity: " ++ entityId ref;
                        source := "ha-lsp";
                        code := "unknown-entity" |})
         (List.filter (fun ref => negb (in_snapshot states (entityId ref)))
                      (findEntityReferences document))) /\
  (forall rt : Runtime,
     truthy (SUPERVISOR_TOKEN rt) = true ->
     getStates rt = Ok [kitchen_light] ->
     with_code "unknown-entity" (validateDocument rt known_entity_example) = [] /\
     with_code "unknown-entity" (validateDocument rt unknown_entity_example) =
       [ {| severity := SeverityWarning;
            range := {| start := {| line := 0; character := 11 |};
                        end_ := {| line := 0; character := 28 |} |};
            message := "Unknown entity: light.nonexistent";
            source := "ha-lsp";
            code := "unknown-entity" |} ] /\
     getTextIn unknown_entity_example
       {| start := {| line := 0; character := 11 |};
          end_ := {| line := 0; character := 28 |} |} = "light.nonexistent").
Proof.
  split.
  - intros rt document states Htoken Hstates.
    now apply validateDocument_unknown_entity_findings.
  - intros rt Htoken Hstates.
    rewrite !(validateDocument_unknown_entity_findings rt _ [kitchen_light])
      by assumption.
    repeat split; vm_compute; reflexivity.
Qed.

Lemma validateDocument_flags_absent_entities_witness :
  with_code "unknown-entity"
    (validateDocument (live_runtime [kitchen_light]) unknown_entity_example)
  = List.map unknown_entity
      (List.filter (fun ref => negb (in_snapshot [kitchen_light] (entityId ref)))
                   (findEntityReferences unknown_entity_example)).
Proof.
  apply (proj1 validateDocument_flags_absent_entities
               (live_runtime [kitchen_light]) unknown_entity_example
               [kitchen_light]).
  - reflexivity.
  - reflexivity.
Defined.

(** C4, what the source does. Without the credential [validateDocument]
    returns no finding at all, whatever the document: the test on the
    credential comes first and returns the empty array, so the include
    and syntax checks are not reached. *)
Theorem validateDocument_without_token_reports_nothing
    (rt : Runtime) (document : TextDocument) :
  truthy (SUPERVISOR_TOKEN rt) = false ->
  validateDocument rt document = [].
Proof.
  intros Htoken. unfold validateDocument. now rewrite Htoken.
Qed.

(** On a document whose parse fails and whose include target is missing,
    a runtime without the credential reports neither, one with it reports
    both. *)
Lemma validateDocument_without_token_reports_nothing_witness :
  validateDocument offline_runtime broken_example = [] /\
  (exists yamlError,
     parseYaml offline_runtime (getText broken_example) = Throw yamlError) /\
  List.map path (findIncludeReferences broken_example) = ["missing.yaml"] /\
  List.map code (validateDocument (live_runtime []) broken_example)
    = ["include-not-found"; "yaml-syntax"].
Proof.
  split.
  - apply (validateDocument_without_token_reports_nothing
             offline_runtime broken_example).
    reflexivity.
  - split; [eexists; vm_compute; reflexivity|].
    split; vm_compute; reflexivity.
Defined.

(** ** Hover *)

(** C5, what the source does. Whenever the token under the cursor has
    the shape [domain.name], the hover is that of [getEntityHover]: the
    test on that shape which leads to the entity snapshot comes first and
    returns, so the test which leads to the service catalog is never
    reached, whether or not the line holds [service:] or [action:]. *)
Theorem onHover_dotted_token_resolved_as_entity
    (rt : Runtime) (document : TextDocument) (position : Position)
    (wordRange : Range) :
  getWordRangeAtPosition document position = Some wordRange ->
  test re_identifier_shape (getTextIn document wordRange) = true ->
  onHover rt (Some document) position =
    Ok (getEntityHover rt (getTextIn document wordRange)).
Proof.
  intros Hrange Hshape. unfold onHover. now rewrite Hrange, Hshape.
Qed.

(** On the line [service: light.turn_on], with [light.turn_on] in the
    catalog and not in the snapshot, the hover over the token is the
    notice for an unknown entity, not the block of the service. *)
Lemma onHover_dotted_token_resolved_as_entity_witness :
  onHover (live_runtime [kitchen_light]) (Some service_line_example)
          {| line := 0; character := 12 |}
    = Ok (Some (UnknownEntityNotice "light.turn_on")) /\
  test re_service_key (getText service_line_example) = true /\
  (exists svc,
     getServiceHover (live_runtime [kitchen_light]) "light.turn_on"
       = Some (ServiceBlock svc) /\ fullName svc = "light.turn_on").
Proof.
  split.
  - rewrite (onHover_dotted_token_resolved_as_entity
               (live_runtime [kitchen_light]) service_line_example
               {| line := 0; character := 12 |}
               {| start := {| line := 0; character := 9 |};
                  end_ := {| line := 0; character := 22 |} |}).
    + vm_compute. reflexivity.
    + vm_compute. reflexivity.
    + vm_compute. reflexivity.
  - split; [vm_compute; reflexivity|].
    eexists. split; vm_compute; reflexivity.
Defined.

(** ** Completion *)

Lemma filter_all {A : Type} (l : list A) :
  List.filter (fun _ : A => true) l = l.
Proof. induction l as [|x l IH]; simpl; [reflexivity | now f_equal]. Qed.

Lemma startsWith_empty (s : string) : startsWith s EmptyString = true.
Proof. unfold startsWith. now destruct s. Qed.

(** *** The partial: what is typed after the colon *)























(** ** Further properties of the diagnostics *)

Lemma serviceSet_has (services : list Service) (name_ : string) :
  bool_decide (name_ ∈ (list_to_set (List.map fullName services) : gset string))
  = in_catalog services name_.
Proof.
  apply eq_true_iff_eq. rewrite bool_decide_eq_true, elem_of_list_to_set.
  rewrite list_elem_of_In, in_map_iff. unfold in_catalog.
  rewrite existsb_exists. split.
  - intros (svc & <- & Hsvc). exists svc. split; [assumption|].
    apply String.eqb_refl.
  - intros (svc & Hsvc & Heq). apply String.eqb_eq in Heq. eauto.
Qed.

(** X9. When the credential is set, both queries succeed and the URI of
    the document converts to a path, the findings are, in this order: a
    warning for each entity reference that the snapshot lacks, a warning
    for each service reference whose name is not a full name of the
    catalog, an error for each include whose path (taken as it is when
    absolute, resolved against the directory of the document otherwise)
    does not exist, and last one syntax error if the parser throws. *)
Theorem validateDocument_findings_in_order
    (rt : Runtime) (document : TextDocument) (states : list HassState)
    (services : list Service) (docPath : string) :
  truthy (SUPERVISOR_TOKEN rt) = true ->
  getStates rt = Ok states ->
  getServiceList rt = Ok services ->
  fileURLToPath rt (uri document) = Ok docPath ->
  validateDocument rt document =
    (List.map unknown_entity
       (List.filter (fun ref => negb (in_snapshot states (entityId ref)))
                    (findEntityReferences document))
     ++ List.map unknown_service
          (List.filter (fun ref => negb (in_catalog services (service_name ref)))
                       (findServiceReferences document))
     ++ List.map include_not_found
          (List.filter
             (fun ref => negb (existsSync rt
                                 (if isAbsolute rt (path ref) then path ref
                                  else resolve rt (dirname rt docPath) (path ref))))
             (findIncludeReferences document))
     ++ match parseYaml rt (getText document) with
        | Ok _ => []
        | Throw yamlError => [yaml_syntax yamlError]
        end)%list.
Proof.
  intros Htoken Hstates Hservices Hpath.
  unfold validateDocument, getEntityMap.
  rewrite Htoken, Hstates, Hservices, Hpath. cbn [negb].
  rewrite (filter_ext_bool _ (fun ref => negb (in_snapshot states (entityId ref))))
    by (intros ref; now rewrite entityMap_of_has).
  rewrite (filter_ext_bool
             (fun ref => negb (bool_decide (service_name ref ∈ _)))
             (fun ref => negb (in_catalog services (service_name ref))))
    by (intros ref; now rewrite serviceSet_has).
  unfold includePath.
  destruct (parseYaml rt (getText document)) as [[]|yamlError].
  - now rewrite app_nil_r, <- app_assoc.
  - now rewrite <- !app_assoc.
Qed.

Lemma validateDocument_findings_in_order_witness :
  List.map code (validateDocument (live_runtime []) broken_example)
    = ["include-not-found"; "yaml-syntax"].
Proof.
  rewrite (validateDocument_findings_in_order (live_runtime []) broken_example
             [] _ "/config/configuration.yaml"
             eq_refl eq_refl eq_refl eq_refl).
  vm_compute. reflexivity.
Defined.

(** X10. A query that fails cuts the validation short. If the query for
    the states throws there is no finding at all; if the states are had
    and the query for the services throws, the findings are the unknown
    entities alone; if both are had and the URI of the document does not
    convert to a path, they are the unknown entities and the unknown
    services. In all three cases a document that does not parse gets no
    syntax error. *)
Theorem validateDocument_stops_at_first_failure
    (rt : Runtime) (document : TextDocument) :
  truthy (SUPERVISOR_TOKEN rt) = true ->
  (forall e, getStates rt = Throw e -> validateDocument rt document = []) /\
  (forall states e,
     getStates rt = Ok states -> getServiceList rt = Throw e ->
     validateDocument rt document =
       List.map unknown_entity
         (List.filter (fun ref => negb (in_snapshot states (entityId ref)))
                      (findEntityReferences document))) /\
  (forall states services e,
     getStates rt = Ok states -> getServiceList rt = Ok services ->
     fileURLToPath rt (uri document) = Throw e ->
     validateDocument rt document =
       (List.map unknown_entity
          (List.filter (fun ref => negb (in_snapshot states (entityId ref)))
                       (findEntityReferences document))
        ++ List.map unknown_service
             (List.filter (fun ref => negb (in_catalog services (service_name ref)))
                          (findServiceReferences document)))%list).
Proof.
  intros Htoken. unfold validateDocument, getEntityMap. rewrite Htoken.
  cbn [negb]. repeat split.
  - intros e ->. reflexivity.
  - intros states e -> ->.
    apply f_equal, filter_ext_bool. intros ref. now rewrite entityMap_of_has.
  - intros states services e -> -> ->.
    rewrite (filter_ext_bool _ (fun ref => negb (in_snapshot states (entityId ref))))
      by (intros ref; now rewrite entityMap_of_has).
    rewrite (filter_ext_bool
               (fun ref => negb (bool_decide (service_name ref ∈ _)))
               (fun ref => negb (in_catalog services (service_name ref))))
      by (intros ref; now rewrite serviceSet_has).
    reflexivity.
Qed.

Lemma validateDocument_stops_at_first_failure_witness :
  validateDocument (Handlers.files_runtime []) broken_example = [].
Proof.
  apply (proj1 (validateDocument_stops_at_first_failure
                  (Handlers.files_runtime []) broken_example eq_refl)
               (Error "unreachable")).
  reflexivity.
Defined.

(** ** Further properties of the hover *)

Lemma word_start_le (text : string) (fuel start : nat) :
  word_start text fuel start <= start.
Proof.
  revert start. induction fuel as [|fuel IH]; intros start; simpl; [lia|].
  destruct (_ && _); [|lia]. specialize (IH (start - 1)). lia.
Qed.

Lemma word_end_ge (text : string) (fuel end_ : nat) :
  end_ <= word_end text fuel end_.
Proof.
  revert end_. induction fuel as [|fuel IH]; intros end_; simpl; [lia|].
  destruct (_ && _); [|lia]. specialize (IH (S end_)). lia.
Qed.

Lemma token_char_at_beyond (text : string) (i : nat) :
  String.length text <= i -> token_char_at text i = false.
Proof.
  intros Hle. unfold token_char_at, charAt.
  replace (String.get i text) with (@None ascii); [reflexivity|].
  symmetry. revert i Hle. induction text as [|c text IH]; intros i Hle.
  - now destruct i.
  - destruct i as [|i]; simpl in *; [lia|]. apply IH. lia.
Qed.

Lemma word_start_fixed (text : string) (offset : nat) :
  word_start text offset offset = offset <->
  offset = 0 \/ token_char_at text (offset - 1) = false.
Proof.
  destruct offset as [|n]; simpl; [tauto|].
  rewrite Nat.sub_0_r.
  destruct (token_char_at text n) eqn:Htok; simpl.
  - pose proof (word_start_le text n n) as Hle. split; [lia|].
    intros [H|H]; [lia | discriminate].
  - tauto.
Qed.

Lemma word_end_fixed (text : string) (offset : nat) :
  word_end text (String.length text - offset) offset = offset <->
  token_char_at text offset = false.
Proof.
  destruct (Nat.lt_ge_cases offset (String.length text)) as [Hlt|Hge].
  - destruct (String.length text - offset) as [|fuel] eqn:Hfuel; [lia|].
    simpl. replace (Nat.ltb offset (String.length text)) with true
      by (symmetry; now apply Nat.ltb_lt).
    destruct (token_char_at text offset) eqn:Htok; simpl.
    + pose proof (word_end_ge text fuel (S offset)) as Hge.
      split; [lia | discriminate].
    + tauto.
  - replace (String.length text - offset) with 0 by lia. simpl.
    rewrite token_char_at_beyond by assumption. tauto.
Qed.

(** X11. The word under the cursor is missing exactly when neither the
    character before the cursor nor the character at the cursor is a
    letter, a digit, an underscore or a dot; the hover then shows
    nothing, within a template as elsewhere, and asks nothing of the
    runtime. *)
Theorem onHover_nothing_without_token
    (rt : Runtime) (document : TextDocument) (position : Position) :
  let text := getText document in
  let offset := offsetAt document position in
  (getWordRangeAtPosition document position = None <->
   (offset = 0 \/ token_char_at text (offset - 1) = false) /\
   token_char_at text offset = false) /\
  (getWordRangeAtPosition document position = None ->
   onHover rt (Some document) position = Ok None).
Proof.
  intros text offset. split.
  - unfold getWordRangeAtPosition. fold text offset.
    pose proof (word_start_le text offset offset) as Hs.
    pose proof (word_end_ge text (String.length text - offset) offset) as He.
    rewrite <- word_start_fixed, <- word_end_fixed.
    destruct (Nat.eqb_spec (word_start text offset offset)
                (word_end text (String.length text - offset) offset))
      as [Heq|Hne].
    + split; [intros _; lia | reflexivity].
    + split; [discriminate | intros [H1 H2]; congruence].
  - intros Hnone. unfold onHover. now rewrite Hnone.
Qed.

(** The cursor after the plus sign of a template. *)
Lemma onHover_nothing_without_token_witness :
  onHover (live_runtime [kitchen_light])
          (Some {| uri := "file:///config/sensors.yaml";
                   getText := "value: {{ 1 + 2 }}" |})
          {| line := 0; character := 13 |} = Ok None.
Proof.
  apply (proj2 (onHover_nothing_without_token _
                  {| uri := "file:///config/sensors.yaml";
                     getText := "value: {{ 1 + 2 }}" |}
                  {| line := 0; character := 13 |})).
  vm_compute. reflexivity.
Defined.

(** X12. The hover never throws, whatever the document, the cursor and
    the answers of the runtime, and what it shows is never taken from
    the service catalog: it is nothing, the notice or the block of an
    entity, or the result or the error of a template. *)
Theorem onHover_never_throws_never_service
    (rt : Runtime) (document : option TextDocument) (position : Position) :
  exists h, onHover rt document position = Ok h /\ entity_or_template h.
Proof.
  unfold onHover. destruct document as [document|]; [|now exists None].
  destruct (getWordRangeAtPosition document position) as [wordRange|];
    [|now exists None].
  destruct (test re_identifier_shape (getTextIn document wordRange)).
  - eexists. split; [reflexivity|]. unfold getEntityHover.
    destruct (getEntityMap rt) as [m|]; [|exact I].
    now destruct (m !! _).
  - cbn [bind].
    destruct (test re_open_template _); [|now exists None].
    destruct (negb _); [|now exists None].
    eexists. split; [reflexivity|]. unfold getTemplateHover.
    now destruct (renderTemplate rt _).
Qed.

(** ** Further properties of the completion *)

(** X13. When nothing is typed after the colon (the partial is empty),
    every entity of the snapshot is a candidate, in the order of the
    snapshot, and every weight is [0] followed by the identifier; when
    the query for the states throws there is no candidate. The same
    holds of the services. *)
Theorem completions_with_nothing_typed
    (rt : Runtime) (context : Context) :
  (partial_of (lineBeforeCursor context) = EmptyString ->
   (forall states, getStates rt = Ok states ->
      List.map label (getEntityCompletions rt context)
        = List.map entity_id states /\
      forall item, In item (getEntityCompletions rt context) ->
                   sortText item = "0" ++ label item) /\
   (forall services, getServiceList rt = Ok services ->
      List.map label (getServiceCompletions rt context)
        = List.map fullName services /\
      forall item, In item (getServiceCompletions rt context) ->
                   sortText item = "0" ++ label item)) /\
  (forall e, getStates rt = Throw e -> getEntityCompletions rt context = []) /\
  (forall e, getServiceList rt = Throw e ->
             getServiceCompletions rt context = []).
Proof.
  split; [|split].
  - intros Hp. split.
    + intros states Hstates. unfold getEntityCompletions.
      rewrite Hstates, Hp. cbn [entity_skipped nonempty andb negb].
      pose proof (filter_all states) as Hall.
      unfold entity_skipped. cbn [nonempty andb negb]. rewrite Hall.
      split.
      * rewrite map_map. reflexivity.
      * intros item Hitem. apply in_map_iff in Hitem as (st & <- & _).
        cbn [sortText label entity_item]. unfold sortText_of.
        now rewrite startsWith_empty.
    + intros services Hservices. unfold getServiceCompletions.
      rewrite Hservices, Hp.
      pose proof (filter_all services) as Hall.
      unfold service_skipped. cbn [nonempty andb negb]. rewrite Hall.
      split.
      * rewrite map_map. reflexivity.
      * intros item Hitem. apply in_map_iff in Hitem as (svc & <- & _).
        cbn [sortText label service_item]. unfold sortText_of.
        now rewrite startsWith_empty.
  - intros e He. unfold getEntityCompletions. now rewrite He.
  - intros e He. unfold getServiceCompletions. now rewrite He.
Qed.

Lemma completions_with_nothing_typed_witness :
  List.map label
    (getEntityCompletions (live_runtime [plain_switch; kitchen_light])
                          (context_at_end_of "entity_id: "))
    = ["switch.linked_kitchen"; "light.kitchen"].
Proof.
  apply (proj1 (proj1 (proj1 (completions_with_nothing_typed
                                (live_runtime [plain_switch; kitchen_light])
                                (context_at_end_of "entity_id: "))
                             ltac:(vm_compute; reflexivity))
                      [plain_switch; kitchen_light] eq_refl)).
Defined.

(** *** The word under the cursor *)

Lemma breaks_from_bound (s : string) (i : nat) :
  Forall (fun o => o <= i + String.length s) (breaks_from s i).
Proof.
  remember (String.length s) as n eqn:Hn.
  revert s i Hn. induction n as [n IH] using lt_wf_ind. intros s i ->.
  destruct s as [|c s']; cbn [breaks_from]; [constructor|].
  destruct (Ascii.eqb c CR).
  - destruct s' as [|d s'']; [constructor; [simpl; lia | constructor]|].
    destruct (Ascii.eqb d LF); constructor; try (simpl; lia).
    + eapply List.Forall_impl; [|apply (IH (String.length s'')); simpl; auto; lia].
      simpl. intros; lia.
    + eapply List.Forall_impl;
        [|apply (IH (String.length (String d s''))); simpl; auto; lia].
      simpl. intros; lia.
  - destruct (Ascii.eqb c LF); [constructor; [simpl; lia|]|];
      (eapply List.Forall_impl; [|apply (IH (String.length s')); simpl; auto; lia]);
      simpl; intros; lia.
Qed.

Lemma ensureBeforeEOL_loop_le (content : string) (lineOffset fuel offset : nat) :
  ensureBeforeEOL_loop content lineOffset fuel offset <= offset.
Proof.
  revert offset. induction fuel as [|fuel IH]; intros offset; simpl; [lia|].
  destruct (_ && _); [|lia]. specialize (IH (offset - 1)). lia.
Qed.

(** An offset computed from a position lies within the text. *)
Lemma offsetAt_bound (d : TextDocument) (p : Position) :
  offsetAt d p <= String.length (getText d).
Proof.
  assert (Hall : Forall (fun o => o <= String.length (getText d))
                        (getLineOffsets d)).
  { unfold getLineOffsets. constructor; [lia|]. exact (breaks_from_bound (getText d) 0). }
  unfold offsetAt. cbv zeta.
  destruct (getLineOffsets d !! line p) as [lo|] eqn:Hlo; [|lia].
  pose proof (Forall_lookup_1 _ _ _ _ Hall Hlo) as Hlo_le. cbv beta in Hlo_le.
  destruct (Nat.eqb (character p) 0); [assumption|].
  unfold ensureBeforeEOL.
  etransitivity; [apply ensureBeforeEOL_loop_le|].
  etransitivity; [apply Nat.le_min_r|].
  destruct (getLineOffsets d !! S (line p)) as [nx|] eqn:Hnx; simpl; [|lia].
  exact (Forall_lookup_1 _ _ _ _ Hall Hnx).
Qed.

Lemma word_start_spec (text : string) (fuel start : nat) :
  start <= fuel ->
  let s := word_start text fuel start in
  s <= start /\
  (forall i, s <= i < start -> token_char_at text i = true) /\
  (s = 0 \/ token_char_at text (s - 1) = false).
Proof.
  revert start. induction fuel as [|fuel IH]; intros start Hle; cbn [word_start].
  - repeat split; [lia | intros; lia | left; lia].
  - destruct (Nat.ltb 0 start) eqn:Hpos; cbn [andb].
    + apply Nat.ltb_lt in Hpos.
      destruct (token_char_at text (start - 1)) eqn:Htok.
      * destruct (IH (start - 1)) as (H1 & H2 & H3); [lia|].
        repeat split; [lia | | exact H3].
        intros i Hi. destruct (Nat.eq_dec i (start - 1)) as [->|];
          [assumption | apply H2; lia].
      * repeat split; [lia | intros; lia | now right].
    + apply Nat.ltb_ge in Hpos.
      repeat split; [lia | intros; lia | left; lia].
Qed.

Lemma word_end_spec (text : string) (fuel end_ : nat) :
  String.length text <= end_ + fuel ->
  let e := word_end text fuel end_ in
  end_ <= e /\
  (end_ <= String.length text -> e <= String.length text) /\
  (forall i, end_ <= i < e -> token_char_at text i = true) /\
  token_char_at text e = false.
Proof.
  revert end_. induction fuel as [|fuel IH]; intros end_ Hle; cbn [word_end].
  - repeat split; [lia | lia | intros; lia |].
    apply token_char_at_beyond. lia.
  - destruct (Nat.ltb end_ (String.length text)) eqn:Hin; cbn [andb].
    + apply Nat.ltb_lt in Hin.
      destruct (token_char_at text end_) eqn:Htok.
      * destruct (IH (S end_)) as (H1 & H2 & H3 & H4); [lia|].
        repeat split; [lia | intros; apply H2; lia | | exact H4].
        intros i Hi. destruct (Nat.eq_dec i end_) as [->|];
          [assumption | apply H3; lia].
      * repeat split; [lia | lia | intros; lia | assumption].
    + apply Nat.ltb_ge in Hin.
      repeat split; [lia | lia | intros; lia |].
      now apply token_char_at_beyond.
Qed.

(** X23. The word under the cursor, when there is one, is the longest
    run of letters, digits, underscores and dots around the offset of
    the cursor: it is not empty, it lies within the text, the offset
    lies in it or at one of its ends, every character of it is such a
    character, and neither the character before it nor the one after it
    is. *)
Theorem word_range_is_maximal
    (document : TextDocument) (position : Position) (range : Range) :
  getWordRangeAtPosition document position = Some range ->
  exists first last,
    range = {| start := positionAt document first;
               end_ := positionAt document last |} /\
    first <= offsetAt document position <= last /\
    first < last <= String.length (getText document) /\
    (forall i, first <= i < last ->
               token_char_at (getText document) i = true) /\
    (first = 0 \/ token_char_at (getText document) (first - 1) = false) /\
    token_char_at (getText document) last = false.
Proof.
  unfold getWordRangeAtPosition. cbv zeta.
  pose proof (offsetAt_bound document position) as Hoff.
  destruct (word_start_spec (getText document) _ _
              (Nat.le_refl (offsetAt document position)))
    as (S1 & S2 & S3).
  destruct (word_end_spec (getText document)
              (String.length (getText document) - offsetAt document position)
              (offsetAt document position))
    as (E1 & E2 & E3 & E4); [lia|].
  destruct (Nat.eqb_spec
              (word_start (getText document) (offsetAt document position)
                          (offsetAt document position))
              (word_end (getText document)
                        (String.length (getText document)
                         - offsetAt document position)
                        (offsetAt document position))) as [|Hne];
    [discriminate|].
  intros [= <-]. eexists _, _. split; [reflexivity|].
  split; [lia|]. split; [lia|]. split; [|split; assumption].
  intros i Hi.
  destruct (Nat.lt_ge_cases i (offsetAt document position));
    [apply S2 | apply E3]; lia.
Qed.

Lemma word_range_is_maximal_witness :
  exists first last,
    first <= 12 <= last /\
    token_char_at (getText service_line_example) last = false.
Proof.
  destruct (word_range_is_maximal service_line_example
              {| line := 0; character := 12 |}
              {| start := {| line := 0; character := 9 |};
                 end_ := {| line := 0; character := 22 |} |})
    as (first & last & _ & Hin & _ & _ & _ & Hlast).
  - vm_compute. reflexivity.
  - exists first, last. split; [exact Hin | exact Hlast].
Defined.

End ProvidersFacts.

(** * Theorems on the client of the runtime *)

Module ClientFacts.

Import Cache Js Client.
Local Open Scope Z_scope.
Local Open Scope string_scope.

Section WithWorld.

Context {J W : Type}.
Variable now : W -> Z.
Variable SUPERVISOR_TOKEN : option string.
Variable http : Request -> W -> Result JsError (Response J) * W.
Variable stringify_template : string -> string.
Variable JSON_parse : JsValue J -> Result JsError J.
Variable empty_array : J.

Local Abbreviation fetch :=
  (fetch SUPERVISOR_TOKEN http stringify_template).
Local Abbreviation template_query :=
  (template_query SUPERVISOR_TOKEN http stringify_template JSON_parse).
Local Abbreviation template_query_or_empty :=
  (template_query_or_empty SUPERVISOR_TOKEN http stringify_template JSON_parse
                           empty_array).
Local Abbreviation getStates :=
  (getStates now SUPERVISOR_TOKEN http stringify_template).
Local Abbreviation getFloors :=
  (getFloors now SUPERVISOR_TOKEN http stringify_template JSON_parse
             empty_array).
Local Abbreviation getLabels :=
  (getLabels now SUPERVISOR_TOKEN http stringify_template JSON_parse
             empty_array).

Lemma template_query_or_empty_ok (template : string) (w : W) :
  exists v w', template_query_or_empty template w = (Ok v, w').
Proof.
  unfold Client.template_query_or_empty.
  destruct (template_query template w) as [[v|e] w']; eauto.
Qed.

Lemma getCached_total_fetcher (c : Client (J := J)) (key : string)
    (fetcher : Fetcher (V := JsValue J) (E := JsError) (W := W)) (w : W) :
  (exists v w', fetcher w = (Ok v, w')) ->
  ~ raises (returned (getCached now c key fetcher w)).
Proof.
  intros (v & w' & Hf). unfold getCached.
  destruct (isCacheValid now c key w); [simpl; auto|].
  rewrite Hf. simpl. auto.
Qed.

(** X4. The queries for floors and labels never throw. When the entry is
    missing or expired and the query fails (the request or the parsing of
    its result throws), the empty array is returned and stored under a
    fresh timestamp in place of whatever was cached: the failure is then
    served as a valid entry until it expires. *)
Theorem getFloors_failure_is_cached_as_empty :
  (forall (c : Client (J := J)) (w : W),
     ~ raises (returned (getFloors c w)) /\
     ~ raises (returned (getLabels c w))) /\
  (forall (c : Client (J := J)) (w w' : W) (e : JsError),
     isCacheValid now c "floors" w = false ->
     template_query floors_template w = (Throw e, w') ->
     getFloors c w =
       (Ok (Some (Json empty_array)),
        {| cache := <["floors" := Json empty_array]> (cache c);
           cacheTimestamps := <["floors" := now w']> (cacheTimestamps c) |},
        w')).
Proof.
  split.
  - intros c w. split; apply getCached_total_fetcher,
      template_query_or_empty_ok.
  - intros c w w' e Hexp Hq. unfold Client.getFloors, getCached.
    rewrite Hexp. unfold Client.template_query_or_empty. now rewrite Hq.
Qed.

(** X5. Without the credential no request is issued: [fetch] throws at
    once and leaves the world as it is, whatever the endpoint, so the
    query for the states changes neither the world nor the client, and
    on a consistent client that holds no states it throws that the
    credential is not available. *)
Theorem fetch_without_token_issues_no_request :
  truthy SUPERVISOR_TOKEN = false ->
  (forall endpoint method template (w : W),
     fetch endpoint method template w
       = (Throw (Error "SUPERVISOR_TOKEN not available"), w)) /\
  (forall (c : Client (J := J)) (w : W),
     world_after (getStates c w) = w /\
     client_after (getStates c w) = c /\
     (consistent c -> cache c !! "states" = None ->
      returned (getStates c w)
        = Throw (Error "SUPERVISOR_TOKEN not available"))).
Proof.
  intros Htoken.
  assert (Hfetch : forall endpoint method template (w : W),
             fetch endpoint method template w
               = (Throw (Error "SUPERVISOR_TOKEN not available"), w)).
  { intros. unfold Client.fetch. now rewrite Htoken. }
  split; [exact Hfetch|].
  intros c w. unfold Client.getStates, getCached.
  destruct (isCacheValid now c "states" w) eqn:Hvalid.
  - repeat split. intros Hc Hnone.
    apply CacheFacts.isCacheValid_spec in Hvalid as (t & Ht & _).
    destruct (Hc "states") as [v Hv]; [eauto | congruence].
  - rewrite Hfetch. destruct (cache c !! "states"); simpl; repeat split;
      congruence.
Qed.

End WithWorld.

Lemma getFloors_failure_is_cached_as_empty_witness :
  returned (getFloors (fun w => w) (Some "token") old_runtime (fun t => t)
                      lines_parser [] floors_client 70000%Z)
    = Ok (Some (Json [])).
Proof.
  rewrite (proj2 (getFloors_failure_is_cached_as_empty (fun w : Z => w)
                    (Some "token") old_runtime (fun t => t) lines_parser [])
                 floors_client 70000%Z 70005%Z
                 (Error "HA API error (400): UndefinedError: 'floors' is undefined")).
  - reflexivity.
  - vm_compute. reflexivity.
  - vm_compute. reflexivity.
Defined.

Lemma fetch_without_token_issues_no_request_witness :
  returned (getStates (fun w => w) None old_runtime (fun t => t)
                      (new_client (V := JsValue (list string))) 1000%Z)
    = Throw (Error "SUPERVISOR_TOKEN not available").
Proof.
  apply (proj2 (fetch_without_token_issues_no_request (fun w : Z => w) None
                  old_runtime (fun t => t) eq_refl)
               new_client 1000%Z).
  - intros key. simpl. rewrite lookup_empty. intros [? [=]].
  - reflexivity.
Defined.

End ClientFacts.

(** * Theorems on the other handlers *)

Module HandlersFacts.

Import Js Regex TextDocument Analyzer Providers Handlers.
Local Open Scope nat_scope.
Local Open Scope string_scope.

(** ** The entity map *)

Lemma find_app_last {A : Type} (f : A -> bool) (l : list A) (x : A) :
  List.find f (l ++ [x])%list =
    match List.find f l with
    | Some y => Some y
    | None => if f x then Some x else None
    end.
Proof.
  induction l as [|y l IH]; simpl; [reflexivity|].
  destruct (f y); [reflexivity | exact IH].
Qed.

Lemma entityMap_of_lookup_last (states : list HassState)
    (map : gmap string HassState) (identifier : string) :
  List.fold_left (fun m st => <[entity_id st := st]> m) states map !! identifier
  = match List.find (fun st => String.eqb (entity_id st) identifier)
                    (List.rev states) with
    | Some st => Some st
    | None => map !! identifier
    end.
Proof.
  revert map. induction states as [|st states IH]; intros map; simpl.
  - reflexivity.
  - rewrite IH, find_app_last.
    destruct (List.find _ (List.rev states)); [reflexivity|].
    destruct (String.eqb_spec (entity_id st) identifier) as [Heq|Hne].
    + now rewrite Heq, lookup_insert_eq.
    + now rewrite lookup_insert_ne.
Qed.

(** X14. The entity map gives, for an identifier, the last state of the
    snapshot that bears it (a later state replaces an earlier one with
    the same identifier), and nothing when no state bears it; it cannot
    be had when the query for the states throws. *)
Theorem getEntityMap_last_state_wins (rt : Runtime) :
  (forall states, getStates rt = Ok states ->
     exists entityMap,
       getEntityMap rt = Ok entityMap /\
       forall identifier,
         entityMap !! identifier =
           List.find (fun st => String.eqb (entity_id st) identifier)
                     (List.rev states)) /\
  (forall e, getStates rt = Throw e -> getEntityMap rt = Throw e).
Proof.
  split.
  - intros states Hstates. unfold getEntityMap. rewrite Hstates.
    eexists. split; [reflexivity|]. intros identifier.
    unfold entityMap_of. rewrite entityMap_of_lookup_last, lookup_empty.
    now destruct (List.find _ _).
  - intros e He. unfold getEntityMap. now rewrite He.
Qed.

Lemma getEntityMap_last_state_wins_witness :
  exists entityMap,
    getEntityMap (live_runtime [linked_switch; kitchen_light; plain_switch])
      = Ok entityMap /\
    entityMap !! "switch.linked_kitchen" = Some plain_switch.
Proof.
  destruct (proj1 (getEntityMap_last_state_wins
                     (live_runtime [linked_switch; kitchen_light; plain_switch]))
                  [linked_switch; kitchen_light; plain_switch] eq_refl)
    as (entityMap & Hmap & Hlookup).
  exists entityMap. split; [exact Hmap|].
  rewrite Hlookup. reflexivity.
Defined.

(** ** The domains *)

Lemma set_add_In (x y : string) (s : list string) :
  In y (set_add x s) <-> y = x \/ In y s.
Proof.
  unfold set_add. destruct (array_includes s x) eqn:Hin.
  - apply AnalyzerFacts.array_includes_In in Hin. split; [tauto|].
    intros [->|H]; assumption.
  - rewrite in_app_iff. simpl. intuition congruence.
Qed.

Lemma set_add_NoDup (x : string) (s : list string) :
  List.NoDup s -> List.NoDup (set_add x s).
Proof.
  intros Hs. unfold set_add. destruct (array_includes s x) eqn:Hin;
    [assumption|].
  apply NoDup_ListNoDup. apply (proj2 (NoDup_app s [x])).
  split; [now apply NoDup_ListNoDup|]. split; [|apply NoDup_singleton].
  intros y Hy Hy'. apply list_elem_of_In in Hy. apply list_elem_of_In in Hy'.
  destruct Hy' as [<-|[]].
  apply AnalyzerFacts.array_includes_In in Hy. congruence.
Qed.

Lemma domains_fold (states : list HassState) (init : list string) :
  List.NoDup init ->
  let domains :=
    List.fold_left (fun ds st => set_add (domain_of (entity_id st)) ds)
                   states init in
  List.NoDup domains /\
  forall d, In d domains <->
            In d init \/ exists st, In st states /\ domain_of (entity_id st) = d.
Proof.
  revert init. induction states as [|st states IH]; intros init Hinit; simpl.
  - split; [assumption|]. intros d. split; [auto | intros [H|(st & [] & _)]; assumption].
  - destruct (IH (set_add (domain_of (entity_id st)) init)
                 (set_add_NoDup _ _ Hinit)) as [Hnd Hin].
    split; [exact Hnd|]. intros d. rewrite Hin, set_add_In. split.
    + intros [[->|H]|(st' & Hst' & Hd)]; eauto.
    + intros [H|(st' & [<-|Hst'] & Hd)]; eauto.
Qed.

Lemma insert_sorted_In (x y : string) (l : list string) :
  In y (insert_sorted x l) <-> y = x \/ In y l.
Proof.
  induction l as [|z l IH]; simpl; [intuition congruence|].
  destruct (String.leb x z); simpl; [intuition congruence|].
  rewrite IH. intuition congruence.
Qed.

Lemma insert_sorted_NoDup (x : string) (l : list string) :
  ~ In x l -> List.NoDup l -> List.NoDup (insert_sorted x l).
Proof.
  induction l as [|z l IH]; simpl; intros Hx Hl.
  - apply NoDup_ListNoDup, NoDup_singleton.
  - destruct (String.leb x z).
    + apply List.NoDup_cons; [simpl; tauto | assumption].
    + apply List.NoDup_cons_iff in Hl as [Hz Hl].
      apply List.NoDup_cons.
      * rewrite insert_sorted_In. intuition congruence.
      * apply IH; tauto.
Qed.

Lemma insert_sorted_Sorted (x : string) (l : list string) :
  Sorted not_after l -> Sorted not_after (insert_sorted x l).
Proof.
  induction l as [|z l IH]; simpl; intros Hl.
  - repeat constructor.
  - destruct (String.leb x z) eqn:Hxz.
    + constructor; [assumption | constructor; exact Hxz].
    + apply Sorted_inv in Hl as [Hl Hhd].
      constructor; [now apply IH|].
      assert (Hzx : not_after z x).
      { destruct (String.leb_total x z) as [H|H]; [congruence | exact H]. }
      destruct l as [|u l]; simpl.
      * constructor. exact Hzx.
      * destruct (String.leb x u); constructor; [exact Hzx|].
        now apply HdRel_inv in Hhd.
Qed.

Lemma sort_facts (a : list string) :
  List.NoDup a ->
  Sorted not_after (sort a) /\ List.NoDup (sort a) /\
  forall x, In x (sort a) <-> In x a.
Proof.
  induction a as [|x a IH]; intros Hnd; simpl.
  - repeat split; auto using List.NoDup_nil; tauto.
  - apply List.NoDup_cons_iff in Hnd as [Hx Ha].
    destruct (IH Ha) as (Hs & Hn & Hi).
    split; [now apply insert_sorted_Sorted|]. split.
    + apply insert_sorted_NoDup; [now rewrite Hi | assumption].
    + intros y. rewrite insert_sorted_In, Hi. simpl. intuition congruence.
Qed.

Lemma not_after_strict (a b : string) :
  not_after a b -> a <> b -> strictly_before a b.
Proof.
  unfold not_after, strictly_before, String.leb, String.ltb.
  destruct (String.compare a b) eqn:Hc; try discriminate; [|reflexivity].
  intros _ Hne. apply String.compare_eq_iff in Hc. congruence.
Qed.

Lemma Sorted_strict (l : list string) :
  Sorted not_after l -> List.NoDup l -> Sorted strictly_before l.
Proof.
  induction l as [|x l IH]; intros Hs Hnd; [constructor|].
  apply Sorted_inv in Hs as [Hs Hhd].
  apply List.NoDup_cons_iff in Hnd as [Hx Hl].
  constructor; [now apply IH|].
  destruct l as [|y l]; constructor.
  apply HdRel_inv in Hhd. apply not_after_strict; [assumption|].
  intros ->. apply Hx. now left.
Qed.

(** X15. The domains are returned in strictly increasing order of code
    units, each one once, and they are exactly the texts that come
    before the first dot of the identifier of some entity of the
    snapshot. *)
Theorem getDomains_sorted_and_complete
    (rt : Runtime) (states : list HassState) :
  getStates rt = Ok states ->
  exists domains,
    getDomains rt = Ok domains /\
    Sorted strictly_before domains /\
    List.NoDup domains /\
    forall d, In d domains <->
              exists st, In st states /\ domain_of (entity_id st) = d.
Proof.
  intros Hstates. unfold getDomains. rewrite Hstates.
  eexists. split; [reflexivity|].
  destruct (domains_fold states [] (List.NoDup_nil _)) as [Hnd Hin].
  destruct (sort_facts _ Hnd) as (Hs & Hn & Hi).
  split; [now apply Sorted_strict|]. split; [assumption|].
  intros d. rewrite Hi, Hin. simpl. tauto.
Qed.

Lemma getDomains_sorted_and_complete_witness :
  getDomains (live_runtime [linked_switch; kitchen_light; plain_switch])
    = Ok ["light"; "switch"].
Proof.
  destruct (getDomains_sorted_and_complete
              (live_runtime [linked_switch; kitchen_light; plain_switch])
              [linked_switch; kitchen_light; plain_switch] eq_refl)
    as (domains & Hd & _).
  rewrite Hd. vm_compute in Hd. injection Hd as <-. reflexivity.
Defined.

(** ** Completion *)

(** X16. A completion request fails exactly when the line of the cursor
    is greater than the number of lines of the document: whatever the
    runtime answers or throws, the handler returns a list of
    candidates. Without a document the list is empty. *)
Theorem onCompletion_fails_only_beyond_last_line
    (rt : Runtime) (reg : Registry) (document : TextDocument)
    (position : Position) :
  ((exists e, onCompletion rt reg (Some document) position = Throw e) <->
   length (Js.split LF (getText document)) < line position) /\
  onCompletion rt reg None position = Ok [].
Proof.
  split; [|reflexivity].
  unfold onCompletion. split.
  - intros [e He].
    destruct (Nat.lt_ge_cases (length (Js.split LF (getText document)))
                              (line position)) as [Hlt|Hge]; [assumption|].
    destruct (AnalyzerFacts.analyzeContext_within document position Hge)
      as [ctx Hctx].
    rewrite Hctx in He. discriminate.
  - intros Hlt.
    rewrite (AnalyzerFacts.analyzeContext_beyond document position Hlt).
    eauto.
Qed.

Lemma onCompletion_fails_only_beyond_last_line_witness :
  exists e,
    onCompletion offline_runtime registry_example
                 (Some service_line_example)
                 {| line := 5; character := 0 |} = Throw e.
Proof.
  apply (proj1 (onCompletion_fails_only_beyond_last_line
                  offline_runtime registry_example service_line_example
                  {| line := 5; character := 0 |})).
  vm_compute. lia.
Defined.

(** X17. The device candidates are the devices that have an identifier,
    in the order of the registry, each labelled with it: a device
    without identifier is never offered. The area candidates are all the
    areas, whatever is typed. When the query throws there is no
    candidate. *)
Theorem registry_completions (reg : Registry) (context : Context) :
  (forall devices, getDevices reg = Ok devices ->
     List.map cand_label (getDeviceCompletions reg context) =
       List.flat_map (fun device => match device_id device with
                                    | Some (String c id) => [String c id]
                                    | _ => []
                                    end) devices) /\
  (forall areas, getAreas reg = Ok areas ->
     List.map cand_label (getAreaCompletions reg context)
       = List.map area_id areas) /\
  (forall e, getDevices reg = Throw e -> getDeviceCompletions reg context = []) /\
  (forall e, getAreas reg = Throw e -> getAreaCompletions reg context = []).
Proof.
  repeat split.
  - intros devices Hd. unfold getDeviceCompletions. rewrite Hd. clear Hd.
    induction devices as [|device devices IH]; simpl; [reflexivity|].
    rewrite map_app. f_equal; [|exact IH].
    now destruct (device_id device) as [[|c id]|].
  - intros areas Ha. unfold getAreaCompletions. rewrite Ha.
    now rewrite map_map.
  - intros e He. unfold getDeviceCompletions. now rewrite He.
  - intros e He. unfold getAreaCompletions. now rewrite He.
Qed.

Lemma registry_completions_witness :
  List.map cand_label
    (getDeviceCompletions registry_example (context_at_end_of "device_id: "))
    = ["abc123"].
Proof.
  rewrite (proj1 (registry_completions registry_example
                    (context_at_end_of "device_id: ")) _ eq_refl).
  reflexivity.
Defined.

(** ** Go to definition *)

Lemma secret_definition_exists (rt : Runtime) (document : TextDocument)
    (lineText : string) (loc : Location) :
  secret_definition rt document lineText = Ok (Some loc) ->
  exists p, loc = file_location p /\ existsSync rt p = true.
Proof.
  unfold secret_definition.
  destruct (match_ lineText re_secret); [|discriminate].
  destruct (fileURLToPath rt (uri document)) as [docPath|]; [|discriminate].
  unfold first_existing.
  destruct (List.find _ _) as [p|] eqn:Hfind; [|discriminate].
  intros [= <-]. apply List.find_some in Hfind as [_ Hp]. eauto.
Qed.

(** X18. A definition request never points at a file that does not
    exist: a location returned is [file://] followed by a path that
    exists, at line 0, character 0. The request throws a [TypeError]
    when the line of the cursor is not a line of the document. *)
Theorem onDefinition_target_exists
    (rt : Runtime) (document : TextDocument) (position : Position) :
  (forall loc,
     onDefinition rt (Some document) position = Ok (Some loc) ->
     exists p,
       location_uri loc = "file://" ++ p /\
       location_range loc = origin /\
       existsSync rt p = true) /\
  (length (Js.split LF (getText document)) <= line position ->
   onDefinition rt (Some document) position = Throw undefined_line).
Proof.
  split.
  - intros loc. unfold onDefinition.
    destruct (Js.split LF (getText document) !! line position) as [lineText|];
      [|discriminate].
    assert (Hsecret : secret_definition rt document lineText = Ok (Some loc) ->
                      exists p, location_uri loc = "file://" ++ p /\
                                location_range loc = origin /\
                                existsSync rt p = true).
    { intros H. apply secret_definition_exists in H as (p & -> & Hp). eauto. }
    destruct (match_ lineText includePattern) as [includeMatch|];
      [|exact Hsecret].
    destruct (fileURLToPath rt (uri document)) as [docPath|]; [|discriminate].
    destruct (existsSync rt _) eqn:Hexists; [|exact Hsecret].
    intros [= <-]. eauto.
  - intros Hle. unfold onDefinition.
    now rewrite (lookup_ge_None_2 _ _ Hle).
Qed.

Lemma onDefinition_target_exists_witness :
  exists p,
    location_uri (file_location "/homeassistant/secrets.yaml") = "file://" ++ p /\
    existsSync (files_runtime ["/homeassistant/secrets.yaml"]) p = true.
Proof.
  destruct (proj1 (onDefinition_target_exists
                     (files_runtime ["/homeassistant/secrets.yaml"])
                     secret_example {| line := 0; character := 12 |})
                  (file_location "/homeassistant/secrets.yaml")
                  ltac:(vm_compute; reflexivity))
    as (p & Huri & _ & Hp).
  exists p. split; assumption.
Defined.

End HandlersFacts.
